(** * Verification of the PyConDE 2025 OpenControl demo

    A shallow embedding of three parts of the repository:

    - [Battle]:   [opencontrol/src/pokemon-battle.ts], the damage calculator,
                  the turn simulation, the battle loop and the summary;
    - [Tools]:    [opencontrol/src/tools.ts] and [pokemon-tools.ts], the tools
                  handed to the agent and their error handling;
    - [Schedule]: [build-schedule/index.ts], the importer that loads a
                  schedule feed into the SQLite tables.

    Part I holds the program, Part II ([BattleFacts], [ToolsFacts],
    [ScheduleFacts]) what is proved about it.

    JavaScript numbers are doubles.  Hit points, stats, damage and turn
    counters are integers far below 2^53 and are modelled by [Z]; the
    products of the damage formula are modelled by exact rationals [Q].  The
    multipliers 0.5, 1, 1.5 and 2 are dyadic, so the products by STAB, type
    effectiveness and critical hit are exact in doubles as well.  The
    division of line 57 and the random factor (85..100)/100 are rounded by
    the machine, so that where the exact product is an integer the double
    may fall just below it and the damage of a run be one less than
    [damage] here.  The theorems below depend on the amount of damage only
    through its sign and the multipliers they name; the examples show the
    exact values. *)

From stdpp Require Import gmap strings list fin_maps pretty.
From Stdlib Require Import ZArith QArith Qround Lia Ascii.

Close Scope Q_scope.

(** ** Exceptions

    A JavaScript computation either returns a value or throws; [OutOfFuel]
    is the answer of a loop model whose fuel ran out, and is shown never to
    occur for the fuel the callers supply. *)

Inductive result (A : Type) : Type :=
| Ok (a : A)
| Throw (msg : string)
| OutOfFuel.
Arguments Ok {A} a.
Arguments Throw {A} msg.
Arguments OutOfFuel {A}.

(** * Part I: the program *)

(** ** JavaScript values and strings *)

Module JS.

(** A JavaScript completion: the value returned, or the message of the
    exception thrown ([error instanceof Error ? error.message : String(error)]
    is the only use the handlers make of a caught value). *)
Inductive completion (A : Type) : Type :=
| Returns (a : A)
| Throws (error : string).
Arguments Returns {A} a.
Arguments Throws {A} error.

(** Values that come from outside: database rows and columns, API documents. *)
#[warnings="-register-all"] Inductive json : Type :=
| JUndefined
| JNull
| JBool (b : bool)
| JNumber (n : Z)
| JString (s : string)
| JArray (items : list json)
| JObject (fields : list (string * json)).

Record response : Type := {
  ok : bool;
  status : Z;
  body : completion json     (* response.json() *)
}.

(** ** Strings

    A string is the sequence of bytes of its UTF-8 encoding.  [trim] strips
    what [String.prototype.trim] strips, the white space and the line
    terminators of the language, each in its encoding of one, two or three
    bytes.  [toLowerCase] maps A-Z; the language also lower-cases the letters
    outside ASCII, none of which becomes a letter of the word [select], so a
    comparison of the first characters with [select] comes out the same. *)

Definition lower_char (c : ascii) : ascii :=
  let n := nat_of_ascii c in
  if (65 <=? n)%nat && (n <=? 90)%nat then ascii_of_nat (n + 32) else c.

Fixpoint toLowerCase (s : string) : string :=
  match s with
  | EmptyString => EmptyString
  | String c rest => String (lower_char c) (toLowerCase rest)
  end.

(** U+0009 to U+000D and U+0020: one byte. *)
Definition is_white_space (c : ascii) : bool :=
  let n := nat_of_ascii c in
  (n =? 9)%nat || (n =? 10)%nat || (n =? 11)%nat || (n =? 12)%nat
  || (n =? 13)%nat || (n =? 32)%nat.

(** U+00A0, the no-break space: C2 A0. *)
Definition is_white_space2 (a b : ascii) : bool :=
  (nat_of_ascii a =? 194)%nat && (nat_of_ascii b =? 160)%nat.

(** Three bytes: U+1680 (E1 9A 80), U+2000 to U+200A (E2 80 80 to E2 80 8A),
    the line and paragraph separators U+2028 and U+2029 (E2 80 A8, E2 80 A9),
    U+202F (E2 80 AF), U+205F (E2 81 9F), U+3000 (E3 80 80) and the byte order
    mark U+FEFF (EF BB BF). *)
Definition is_white_space3 (a b c : ascii) : bool :=
  let x := nat_of_ascii a in
  let y := nat_of_ascii b in
  let z := nat_of_ascii c in
  ((x =? 225)%nat && (y =? 154)%nat && (z =? 128)%nat)
  || ((x =? 226)%nat && (y =? 128)%nat
      && (((128 <=? z)%nat && (z <=? 138)%nat)
          || (z =? 168)%nat || (z =? 169)%nat || (z =? 175)%nat))
  || ((x =? 226)%nat && (y =? 129)%nat && (z =? 159)%nat)
  || ((x =? 227)%nat && (y =? 128)%nat && (z =? 128)%nat)
  || ((x =? 239)%nat && (y =? 187)%nat && (z =? 191)%nat).

Fixpoint trimStart (s : string) : string :=
  match s with
  | EmptyString => EmptyString
  | String a rest1 =>
      if is_white_space a then trimStart rest1
      else
        match rest1 with
        | EmptyString => s
        | String b rest2 =>
            if is_white_space2 a b then trimStart rest2
            else
              match rest2 with
              | EmptyString => s
              | String c rest3 =>
                  if is_white_space3 a b c then trimStart rest3 else s
              end
        end
  end.

(** A string of white space only. *)
Fixpoint all_white_space (s : string) : bool :=
  match s with
  | EmptyString => true
  | String a rest1 =>
      if is_white_space a then all_white_space rest1
      else
        match rest1 with
        | EmptyString => false
        | String b rest2 =>
            if is_white_space2 a b then all_white_space rest2
            else
              match rest2 with
              | EmptyString => false
              | String c rest3 => is_white_space3 a b c && all_white_space rest3
              end
        end
  end.

(** The string without the white space it ends with: nothing is left of a
    tail that is white space only. *)
Fixpoint trimEnd (s : string) : string :=
  match s with
  | EmptyString => EmptyString
  | String c rest => if all_white_space s then EmptyString else String c (trimEnd rest)
  end.

Definition trim (s : string) : string := trimEnd (trimStart s).

Definition startsWith (s searchString : string) : bool := String.prefix searchString s.

Definition includes (s searchString : string) : bool :=
  match String.index 0 searchString s with
  | Some _ => true
  | None => false
  end.

(** [s.slice(1)] *)
Definition slice1 (s : string) : string :=
  match s with
  | EmptyString => EmptyString
  | String _ rest => rest
  end.

(** ** Values *)

Fixpoint prop {A : Type} (obj : list (string * A)) (key : string) : option A :=
  match obj with
  | [] => None
  | (k, v) :: rest => if String.eqb k key then Some v else prop rest key
  end.

(** [obj[key] = v] on an object literal under construction. *)
Fixpoint set_prop {A : Type} (obj : list (string * A)) (key : string) (v : A)
  : list (string * A) :=
  match obj with
  | [] => [(key, v)]
  | (k, old) :: rest =>
      if String.eqb k key then (k, v) :: rest else (k, old) :: set_prop rest key v
  end.

Definition delete_prop {A : Type} (obj : list (string * A)) (key : string)
  : list (string * A) :=
  filter (fun kv => negb (String.eqb (fst kv) key) = true) obj.

(** [v.key]: a [TypeError] on [undefined] and [null], [undefined] where the
    property is missing. *)
Definition get (v : json) (key : string) : completion json :=
  match v with
  | JUndefined => Throws ("TypeError: undefined is not an object (evaluating '" +:+ key +:+ "')")
  | JNull => Throws ("TypeError: null is not an object (evaluating '" +:+ key +:+ "')")
  | JObject fields =>
      Returns (match prop fields key with Some x => x | None => JUndefined end)
  | _ => Returns JUndefined
  end.

Definition truthy (v : json) : bool :=
  match v with
  | JUndefined | JNull => false
  | JBool b => b
  | JNumber n => negb (n =? 0)%Z
  | JString s => negb (String.eqb s "")
  | JArray _ | JObject _ => true
  end.

(** [a || b] *)
Definition or_else (a b : json) : json := if truthy a then a else b.

(** The receiver of [.map], [.forEach]: an array, anything else has no such
    method. *)
Definition array_method (v : json) (method : string) : completion (list json) :=
  match v with
  | JArray items => Returns items
  | JUndefined | JNull =>
      Throws ("TypeError: undefined is not an object (evaluating '" +:+ method +:+ "')")
  | _ => Throws ("TypeError: " +:+ method +:+ " is not a function")
  end.

Definition Bind {A B : Type} (c : completion A) (k : A -> completion B) : completion B :=
  match c with
  | Returns a => k a
  | Throws e => Throws e
  end.

Fixpoint map_completion {A B : Type} (f : A -> completion B) (l : list A)
  : completion (list B) :=
  match l with
  | [] => Returns []
  | x :: rest =>
      Bind (f x) (fun y => Bind (map_completion f rest) (fun ys => Returns (y :: ys)))
  end.

(** [toUpperCase], on the letters a-z as [toLowerCase] is on A-Z. *)
Definition upper_char (c : ascii) : ascii :=
  let n := nat_of_ascii c in
  if (97 <=? n)%nat && (n <=? 122)%nat then ascii_of_nat (n - 32) else c.

Fixpoint toUpperCase (s : string) : string :=
  match s with
  | EmptyString => EmptyString
  | String c rest => String (upper_char c) (toUpperCase rest)
  end.

(** The line feed of a template literal. *)
Definition newline : string := String (ascii_of_nat 10) EmptyString.

(** [`${n}`] for an integer [n]: its decimal digits. *)
Definition String_of_number (n : Z) : string := pretty n.

(** [a.join(sep)] *)
Definition join (sep : string) (a : list string) : string := String.concat sep a.

(** The byte order mark and the no-break space. *)
Definition BOM : string :=
  String (ascii_of_nat 239) (String (ascii_of_nat 187) (String (ascii_of_nat 191) "")).

Definition NBSP : string := String (ascii_of_nat 194) (String (ascii_of_nat 160) "").

End JS.

(** ** The battle simulator of [opencontrol/src/pokemon-battle.ts] *)

Module Battle.

Local Open Scope Z_scope.

(** ** Data

    A move and a combatant as [fetchPokemonForBattle] builds them.  The
    [types] array of the API holds objects [{slot, type: {name, url}}]; only
    [type.name] is ever read, so a type list is a list of names. *)

Record move : Type := {
  move_name : string;
  power : option Z;               (* null for status moves *)
  move_type : string;             (* move.type.name *)
  damage_class : option string    (* move.damage_class?.name *)
}.

Record stats : Type := {
  hp : Z;
  attack : Z;
  defense : Z;
  special_attack : Z;
  special_defense : Z;
  speed : Z
}.

Record pokemon : Type := {
  id : Z;
  name : string;
  types : list string;
  level : Z;
  pstats : stats;
  current_hp : Z;
  moves : list move
}.

(** ** Type effectiveness chart *)

Definition TYPE_EFFECTIVENESS : list (string * list (string * Q)) :=
  ([ ("normal", [("rock", 1#2); ("ghost", 0#1); ("steel", 1#2)]);
    ("fire", [("fire", 1#2); ("water", 1#2); ("grass", 2#1); ("ice", 2#1);
              ("bug", 2#1); ("rock", 1#2); ("dragon", 1#2); ("steel", 2#1)]);
    ("water", [("fire", 2#1); ("water", 1#2); ("grass", 1#2); ("ground", 2#1);
               ("rock", 2#1); ("dragon", 1#2)]);
    ("electric", [("water", 2#1); ("electric", 1#2); ("grass", 1#2);
                  ("ground", 0#1); ("flying", 2#1); ("dragon", 1#2)]);
    ("grass", [("fire", 1#2); ("water", 2#1); ("grass", 1#2); ("poison", 1#2);
               ("ground", 2#1); ("flying", 1#2); ("bug", 1#2); ("rock", 2#1);
               ("dragon", 1#2); ("steel", 1#2)]);
    ("ice", [("fire", 1#2); ("water", 1#2); ("grass", 2#1); ("ice", 1#2);
             ("ground", 2#1); ("flying", 2#1); ("dragon", 2#1); ("steel", 1#2)]);
    ("fighting", [("normal", 2#1); ("ice", 2#1); ("poison", 1#2);
                  ("flying", 1#2); ("psychic", 1#2); ("bug", 1#2); ("rock", 2#1);
                  ("ghost", 0#1); ("dark", 2#1); ("steel", 2#1); ("fairy", 1#2)]);
    ("poison", [("grass", 2#1); ("poison", 1#2); ("ground", 1#2); ("rock", 1#2);
                ("ghost", 1#2); ("steel", 0#1); ("fairy", 2#1)]);
    ("ground", [("fire", 2#1); ("electric", 2#1); ("grass", 1#2); ("poison", 2#1);
                ("flying", 0#1); ("bug", 1#2); ("rock", 2#1); ("steel", 2#1)]);
    ("flying", [("electric", 1#2); ("grass", 2#1); ("fighting", 2#1); ("bug", 2#1);
                ("rock", 1#2); ("steel", 1#2)]);
    ("psychic", [("fighting", 2#1); ("poison", 2#1); ("psychic", 1#2);
                 ("dark", 0#1); ("steel", 1#2)]);
    ("bug", [("fire", 1#2); ("grass", 2#1); ("fighting", 1#2); ("poison", 1#2);
             ("flying", 1#2); ("psychic", 2#1); ("ghost", 1#2); ("dark", 2#1);
             ("steel", 1#2); ("fairy", 1#2)]);
    ("rock", [("fire", 2#1); ("ice", 2#1); ("fighting", 1#2); ("ground", 1#2);
              ("flying", 2#1); ("bug", 2#1); ("steel", 1#2)]);
    ("ghost", [("normal", 0#1); ("psychic", 2#1); ("ghost", 2#1); ("dark", 1#2)]);
    ("dragon", [("dragon", 2#1); ("steel", 1#2); ("fairy", 0#1)]);
    ("dark", [("fighting", 1#2); ("psychic", 2#1); ("ghost", 2#1); ("dark", 1#2);
              ("fairy", 1#2)]);
    ("steel", [("fire", 1#2); ("water", 1#2); ("electric", 1#2); ("ice", 2#1);
               ("rock", 2#1); ("steel", 1#2); ("fairy", 2#1)]);
    ("fairy", [("fighting", 2#1); ("poison", 1#2); ("bug", 1#2); ("dragon", 2#1);
               ("dark", 2#1); ("steel", 1#2)]) ])%Q.

(** [TYPE_EFFECTIVENESS[moveType][defenderType]] as the chart stores it. *)
Definition chart_entry (moveType defenderType : string) : option Q :=
  match JS.prop TYPE_EFFECTIVENESS moveType with
  | Some row => JS.prop row defenderType
  | None => None
  end.

(** JavaScript truthiness of a number that may be [undefined]: [undefined]
    and [0] are falsy. *)
Definition truthy (v : option Q) : bool :=
  match v with
  | Some q => negb (Qeq_bool q 0)
  | None => false
  end.

(** ** Stat formulas *)

Definition calculateStat (baseStat lvl : Z) : Z :=
  (* iv = 31, ev = 0, nature = 1 *)
  Qfloor ((inject_Z ((2 * baseStat + 31 + 0 / 4) * lvl) / 100 + 5) * 1)%Q.

Definition calculateHP (baseHP lvl : Z) : Z :=
  Qfloor (inject_Z ((2 * baseHP + 31 + 0 / 4) * lvl) / 100)%Q + lvl + 10.

(** ** The mutable world of one battle

    [simulateTurn] receives the two combatant objects by reference and
    writes their [current_hp]; which object [first] and [second] denote
    depends on the speed comparison.  A reference is therefore a
    [combatant] tag into the pair of objects held by the world.
    [Math.random()] is an entropy source read in order: the [drawn]-th call
    returns the [drawn]-th 53-bit sample scaled into the interval [0,1). *)

Inductive combatant : Type := P1 | P2.

Definition opponent (c : combatant) : combatant :=
  match c with P1 => P2 | P2 => P1 end.

Record world : Type := {
  pokemon1 : pokemon;
  pokemon2 : pokemon;
  entropy : nat -> N;
  drawn : nat
}.

Definition deref (w : world) (c : combatant) : pokemon :=
  match c with P1 => pokemon1 w | P2 => pokemon2 w end.

Definition with_hp (p : pokemon) (h : Z) : pokemon :=
  {| id := id p; name := name p; types := types p; level := level p;
     pstats := pstats p; current_hp := h; moves := moves p |}.

Definition set_current_hp (c : combatant) (h : Z) (w : world) : world :=
  match c with
  | P1 => {| pokemon1 := with_hp (pokemon1 w) h; pokemon2 := pokemon2 w;
             entropy := entropy w; drawn := drawn w |}
  | P2 => {| pokemon1 := pokemon1 w; pokemon2 := with_hp (pokemon2 w) h;
             entropy := entropy w; drawn := drawn w |}
  end.

(** State-and-exception monad over the world. *)
Definition M (A : Type) : Type := world -> result (A * world).

Definition ret {A : Type} (a : A) : M A := fun w => Ok (a, w).

Definition bind {A B : Type} (m : M A) (k : A -> M B) : M B :=
  fun w =>
    match m w with
    | Ok (a, w') => k a w'
    | Throw msg => Throw msg
    | OutOfFuel => OutOfFuel
    end.

Definition throw {A : Type} (msg : string) : M A := fun _ => Throw msg.

Definition out_of_fuel {A : Type} : M A := fun _ => OutOfFuel.

Definition read (c : combatant) : M pokemon := fun w => Ok (deref w c, w).

Definition write_hp (c : combatant) (h : Z) : M unit :=
  fun w => Ok (tt, set_current_hp c h w).

Notation "'do' x <- m ; k" := (bind m (fun x => k))
  (at level 10, x name, m at level 100, k at level 200).

Definition unit_sample (n : N) : Q :=
  (Z.of_N (n mod 2 ^ 53) # 2 ^ 53)%Q.

Definition Math_random : M Q :=
  fun w => Ok (unit_sample (entropy w (drawn w)),
               {| pokemon1 := pokemon1 w; pokemon2 := pokemon2 w;
                  entropy := entropy w; drawn := S (drawn w) |}).

(** ** calculateDamage *)

Record damage_result : Type := {
  damage : Z;
  effectiveness : Q;
  isCritical : bool
}.

(** Line 60: [attacker.types.some(t => t.type.name === move.type.name) ? 1.5 : 1]. *)
Definition stab_of (attacker : pokemon) (mv : move) : Q :=
  if existsb (fun t => String.eqb t (move_type mv)) (types attacker)
  then (3 # 2)%Q else (1 # 1)%Q.

(** Lines 64-70: the [forEach] over the defender's types, accumulating in
    [effectiveness]; an entry is multiplied in only when the guard
    [TYPE_EFFECTIVENESS[moveType] && TYPE_EFFECTIVENESS[moveType][t]] is
    truthy. *)
Definition effectiveness_step (moveType : string) (acc : Q) (defenderType : string) : Q :=
  if truthy (chart_entry moveType defenderType)
  then match chart_entry moveType defenderType with
       | Some e => (acc * e)%Q
       | None => acc
       end
  else acc.

Definition type_effectiveness (defender : pokemon) (mv : move) : Q :=
  fold_left (effectiveness_step (move_type mv)) (types defender) (1 # 1)%Q.

(** Line 57, the damage before any multiplier. *)
Definition base_damage (attacker defender : pokemon) (mv : move) (pw : Z) : Z :=
  let lvl := if level attacker =? 0 then 50 else level attacker in
  let isPhysical :=
    match damage_class mv with
    | Some c => String.eqb c "physical"
    | None => false
    end in
  let attackStat :=
    if isPhysical then attack (pstats attacker) else special_attack (pstats attacker) in
  let defenseStat :=
    if isPhysical then defense (pstats defender) else special_defense (pstats defender) in
  Qfloor (((inject_Z (2 * lvl) / 5 + 2) * inject_Z pw * inject_Z attackStat
           / inject_Z defenseStat) / 50)%Q + 2.

(** Lines 63-81, what happens to the damage after the STAB step: type
    effectiveness, the random factor and the critical hit, each followed by
    [Math.floor]. *)
Definition later_multipliers (d1 : Z) (eff : Q) (roll : Z) (crit : bool) : Z :=
  let d2 := Qfloor (inject_Z d1 * eff)%Q in
  let randomFactor := (inject_Z (85 + roll) / 100)%Q in
  let d3 := Qfloor (inject_Z d2 * randomFactor)%Q in
  if crit then Qfloor (inject_Z d3 * (3 # 2))%Q else d3.

(** Lines 59-81 after the base damage; line 61 is the first [Qfloor]. *)
Definition apply_multipliers (base : Z) (stab eff : Q) (roll : Z) (crit : bool) : Z :=
  later_multipliers (Qfloor (inject_Z base * stab)%Q) eff roll crit.

Definition calculateDamage (attacker defender : pokemon) (mv : option move)
  : M damage_result :=
  match mv with
  | None => throw "TypeError: undefined is not an object (evaluating 'move.power')"
  | Some mv =>
      let pw := match power mv with Some p => p | None => 0 end in
      if pw =? 0
      then ret {| damage := 0; effectiveness := (1 # 1)%Q; isCritical := false |}
      else
        let base := base_damage attacker defender mv pw in
        let stab := stab_of attacker mv in
        let eff := type_effectiveness defender mv in
        do r1 <- Math_random;
        let roll := Qfloor (r1 * 16)%Q in
        do r2 <- Math_random;
        let crit := negb (Qle_bool (1 # 16)%Q r2) in
        ret {| damage := apply_multipliers base stab eff roll crit;
               effectiveness := eff;
               isCritical := crit |}
  end.

(** The two draws of [calculateDamage] in a world: [Math.floor(Math.random()
    * 16)] of line 74 is read off the next sample of the entropy, the
    critical hit [Math.random() < 0.0625] of line 78 off the one after it. *)
Definition random_roll (w : world) : Z :=
  Qfloor (unit_sample (entropy w (drawn w)) * 16)%Q.

Definition critical_draw (w : world) : bool :=
  negb (Qle_bool (1 # 16)%Q (unit_sample (entropy w (S (drawn w))))).

(** ** simulateTurn *)

(** One entry of the [events] array.  [ev_by] is the reference the variable
    [first] (or [second]) held when the entry was pushed; the JavaScript
    object records only the names, which need not tell the two combatants
    apart. *)
Record attack_event : Type := {
  ev_by : combatant;
  ev_attacker : string;
  ev_defender : string;
  ev_move : string;
  ev_damage : Z;
  ev_effectiveness : string;
  ev_critical : string;
  ev_remaining_hp : Z;
  ev_fainted : bool
}.

Inductive event : Type :=
| Attack (e : attack_event)
| Message (message : string).

Definition effectiveness_text (eff : Q) : string :=
  if Qeq_bool eff (2 # 1) then "It's super effective!"
  else if Qeq_bool eff (1 # 2) then "It's not very effective..."
  else if Qeq_bool eff (0 # 1) then "It has no effect..."
  else "".

(** The body shared by the two [if (x.current_hp > 0)] blocks: compute the
    damage, write the target's hit points, build the event. *)
Definition strike (striker target : combatant) (mv : option move) : M attack_event :=
  do s <- read striker;
  do t <- read target;
  do result <- calculateDamage s t mv;
  do _ <- write_hp target (Z.max 0 (current_hp t - damage result));
  do t' <- read target;
  ret {| ev_by := striker;
         ev_attacker := name s;
         ev_defender := name t';
         ev_move := match mv with Some m => move_name m | None => "" end;
         ev_damage := damage result;
         ev_effectiveness := effectiveness_text (effectiveness result);
         ev_critical := if isCritical result then "Critical hit!" else "";
         ev_remaining_hp := current_hp t';
         ev_fainted := current_hp t' <=? 0 |}.

Definition simulateTurn (attacker defender : combatant)
    (attackerMove defenderMove : option move) : M (list event) :=
  do a <- read attacker;
  do d <- read defender;
  let attackerFirst := speed (pstats d) <=? speed (pstats a) in
  let first := if attackerFirst then attacker else defender in
  let second := if attackerFirst then defender else attacker in
  let firstMove := if attackerFirst then attackerMove else defenderMove in
  let secondMove := if attackerFirst then defenderMove else attackerMove in
  let second_turn (events : list event) : M (list event) :=
    do s <- read second;
    if 0 <? current_hp s then
      do e <- strike second first secondMove;
      do f <- read first;
      if current_hp f <=? 0
      then ret (events ++ [Attack e; Message (name f +:+ " fainted!")])
      else ret (events ++ [Attack e])
    else ret events in
  do f <- read first;
  if 0 <? current_hp f then
    do e <- strike first second firstMove;
    do s <- read second;
    if current_hp s <=? 0
    then ret [Attack e; Message (name s +:+ " fainted!")]
    else second_turn [Attack e]
  else second_turn [].

(** ** battle_pokemon *)

Inductive log_entry : Type :=
| battle_start (name1 : string) (level1 hp1 : Z) (types1 : list string)
               (name2 : string) (level2 hp2 : Z) (types2 : list string)
| turn (turn_no : Z) (events : list event)
| battle_end (turns_simulated : Z) (winner : string) (pokemon1_hp pokemon2_hp : Z).

(** [p.moves[Math.floor(Math.random() * p.moves.length)]], [None] when the
    index names no element. *)
Definition select_move (c : combatant) : M (option move) :=
  do p <- read c;
  do r <- Math_random;
  let i := Qfloor (r * inject_Z (Z.of_nat (length (moves p))))%Q in
  ret (if i <? 0 then None else moves p !! Z.to_nat i).

(** The [while] loop of lines 242-263; every iteration spends one unit of
    fuel. *)
Fixpoint battle_loop (fuel : nat) (maxTurns : Q) (currentTurn : Z)
    (battleLog : list log_entry) {struct fuel} : M (Z * list log_entry) :=
  do p1 <- read P1;
  do p2 <- read P2;
  if Qle_bool (inject_Z currentTurn) maxTurns
     && (0 <? current_hp p1) && (0 <? current_hp p2)
  then
    match fuel with
    | O => out_of_fuel
    | S fuel' =>
        do pokemon1Move <- select_move P1;
        do pokemon2Move <- select_move P2;
        do turnEvents <- simulateTurn P1 P2 pokemon1Move pokemon2Move;
        let battleLog := battleLog ++ [turn currentTurn turnEvents] in
        let currentTurn := currentTurn + 1 in
        do q1 <- read P1;
        do q2 <- read P2;
        if (current_hp q1 <=? 0) || (current_hp q2 <=? 0)
        then ret (currentTurn, battleLog)
        else battle_loop fuel' maxTurns currentTurn battleLog
    end
  else ret (currentTurn, battleLog).

(** The branch of lines 266-279 that assigns [winner]. *)
Inductive verdict : Type :=
| Draw
| Winner (c : combatant).

Definition decide_winner (hp1 hp2 : Z) : verdict :=
  if (hp1 <=? 0) && (hp2 <=? 0) then Draw
  else if hp1 <=? 0 then Winner P2
  else if hp2 <=? 0 then Winner P1
  else if hp2 <? hp1 then Winner P1
  else if hp1 <? hp2 then Winner P2
  else Draw.

Definition winner_value (v : verdict) (p1 p2 : pokemon) : string :=
  match v with
  | Draw => "draw"
  | Winner P1 => name p1
  | Winner P2 => name p2
  end.

(** [input.turns || 10]: an omitted argument and [0] both give 10. *)
Definition max_turns (turns : option Q) : Q :=
  match turns with
  | Some t => if Qeq_bool t 0 then 10 # 1 else t
  | None => 10 # 1
  end.

(** What the [try] block returns, without the prose summary that
    [generateBattleSummary] derives from the log. *)
Record battle_result : Type := {
  winner : string;
  decided : verdict;
  battle_log : list log_entry;
  turns_run : Z;
  final1 : pokemon;
  final2 : pokemon
}.

(** Lines 220-299, once both combatants are loaded into the world. *)
Definition battle (turns : option Q) : M battle_result :=
  let maxTurns := max_turns turns in
  do s1 <- read P1;
  do s2 <- read P2;
  let battleLog :=
    [battle_start (name s1) (level s1) (current_hp s1) (types s1)
                  (name s2) (level s2) (current_hp s2) (types s2)] in
  do looped <- battle_loop (Z.to_nat (Qfloor maxTurns)) maxTurns 1 battleLog;
  let currentTurn := fst looped in
  let battleLog := snd looped in
  do p1 <- read P1;
  do p2 <- read P2;
  let v := decide_winner (current_hp p1) (current_hp p2) in
  let w := winner_value v p1 p2 in
  let battleLog :=
    battleLog ++ [battle_end (currentTurn - 1) w (current_hp p1) (current_hp p2)] in
  ret {| winner := w; decided := v; battle_log := battleLog;
         turns_run := currentTurn - 1; final1 := p1; final2 := p2 |}.

(** *** Loading the combatants *)

Record api_pokemon : Type := {
  api_id : Z;
  api_name : string;
  api_types : list string;
  api_stats : list (string * Z);   (* stat.name, base_stat *)
  api_moves : list move            (* the move documents behind moves[i].move.url *)
}.

Definition base_stat (data : api_pokemon) (stat : string) : result Z :=
  match JS.prop (api_stats data) stat with
  | Some b => Ok b
  | None => Throw "TypeError: undefined is not an object (evaluating 'base_stat')"
  end.

Definition and_then {A B : Type} (r : result A) (k : A -> result B) : result B :=
  match r with
  | Ok a => k a
  | Throw msg => Throw msg
  | OutOfFuel => OutOfFuel
  end.

Definition fetchPokemonForBattle (api : string -> option api_pokemon)
    (pokemonId : string) : result pokemon :=
  match api pokemonId with
  | None => Throw ("Failed to fetch Pokemon data for " +:+ pokemonId)
  | Some data =>
      let moves4 := take 4 (api_moves data) in
      and_then (base_stat data "hp") (fun b_hp =>
      and_then (base_stat data "attack") (fun b_attack =>
      and_then (base_stat data "defense") (fun b_defense =>
      and_then (base_stat data "special-attack") (fun b_spa =>
      and_then (base_stat data "special-defense") (fun b_spd =>
      and_then (base_stat data "speed") (fun b_speed =>
      Ok {| id := api_id data;
            name := api_name data;
            types := api_types data;
            level := 50;
            pstats := {| hp := calculateHP b_hp 50;
                         attack := calculateStat b_attack 50;
                         defense := calculateStat b_defense 50;
                         special_attack := calculateStat b_spa 50;
                         special_defense := calculateStat b_spd 50;
                         speed := calculateStat b_speed 50 |};
            current_hp := calculateHP b_hp 50;
            moves := moves4 |}))))))
  end.

Record battle_input : Type := {
  in_pokemon1 : string;
  in_pokemon2 : string;
  in_turns : option Q
}.

Inductive tool_output : Type :=
| Success (r : battle_result)
| Failure (error : string).

(** The [run] function: the whole body sits in one [try]/[catch]. *)
Definition battle_pokemon (api : string -> option api_pokemon)
    (rng : nat -> N) (input : battle_input) : result tool_output :=
  let body :=
    and_then (fetchPokemonForBattle api (in_pokemon1 input)) (fun pokemon1 =>
    and_then (fetchPokemonForBattle api (in_pokemon2 input)) (fun pokemon2 =>
    and_then (battle (in_turns input)
                {| pokemon1 := pokemon1; pokemon2 := pokemon2;
                   entropy := rng; drawn := O |})
             (fun r => Ok (fst r)))) in
  match body with
  | Ok r => Ok (Success r)
  | Throw msg => Ok (Failure msg)
  | OutOfFuel => OutOfFuel
  end.

(** ** What the specification says about type effectiveness

    The multiplier as the specification words it: the product, over the
    defender's types, of the chart entry, a pair without entry counting
    for 1.  It is compared with [type_effectiveness], the loop of the code. *)
Definition chart_factor (moveType defenderType : string) : Q :=
  match chart_entry moveType defenderType with
  | Some e => e
  | None => (1 # 1)%Q
  end.

Definition chart_product (moveType : string) (defenderTypes : list string) : Q :=
  fold_right (fun t acc => (chart_factor moveType t * acc)%Q) (1 # 1)%Q defenderTypes.

(** What the loop of lines 64-70 multiplies in for one defender type: the
    chart entry when the guard is truthy, nothing otherwise. *)
Definition guarded_factor (moveType defenderType : string) : Q :=
  if truthy (chart_entry moveType defenderType)
  then chart_factor moveType defenderType
  else (1 # 1)%Q.

Definition chart_values_ok : bool :=
  forallb (fun row =>
    forallb (fun kv => Qeq_bool (snd kv) 0 || Qeq_bool (snd kv) (1 # 2)
                       || Qeq_bool (snd kv) 1 || Qeq_bool (snd kv) 2)
            (snd row))
    TYPE_EFFECTIVENESS.

(** Two worlds that differ only in how much entropy was consumed. *)
Definition same_objects (w w' : world) : Prop :=
  pokemon1 w' = pokemon1 w /\ pokemon2 w' = pokemon2 w /\ entropy w' = entropy w.

(** ** Vocabulary for the statements about a turn *)

Definition hp1 (w : world) : Z := current_hp (pokemon1 w).
Definition hp2 (w : world) : Z := current_hp (pokemon2 w).
Definition hp_of (w : world) (c : combatant) : Z := current_hp (deref w c).

(** Who moves first in [simulateTurn pokemon1 pokemon2]. *)
Definition first_mover (w : world) : combatant :=
  if speed (pstats (pokemon2 w)) <=? speed (pstats (pokemon1 w)) then P1 else P2.

(** The first entry of a turn: the first mover strikes its opponent. *)
Definition opening (w : world) (e : attack_event) : Prop :=
  ev_by e = first_mover w
  /\ ev_attacker e = name (deref w (first_mover w))
  /\ ev_defender e = name (deref w (opponent (first_mover w)))
  /\ ev_remaining_hp e
     = Z.max 0 (hp_of w (opponent (first_mover w)) - ev_damage e).

(** The shape of the events of one turn that starts with both combatants
    standing. *)
Inductive turn_shape (w w' : world) : list event -> Prop :=
| first_knocks_out e1 msg :
    opening w e1 ->
    ev_remaining_hp e1 = 0 ->
    hp_of w' (opponent (first_mover w)) = ev_remaining_hp e1 ->
    hp_of w' (first_mover w) = hp_of w (first_mover w) ->
    turn_shape w w' [Attack e1; Message msg]
| second_knocks_out e1 e2 msg :
    opening w e1 ->
    ev_by e2 = opponent (first_mover w) ->
    0 < ev_remaining_hp e1 ->
    ev_remaining_hp e2 = 0 ->
    hp_of w' (opponent (first_mover w)) = ev_remaining_hp e1 ->
    hp_of w' (first_mover w) = ev_remaining_hp e2 ->
    turn_shape w w' [Attack e1; Attack e2; Message msg]
| both_stand e1 e2 :
    opening w e1 ->
    ev_by e2 = opponent (first_mover w) ->
    0 < ev_remaining_hp e1 ->
    0 < ev_remaining_hp e2 ->
    hp_of w' (opponent (first_mover w)) = ev_remaining_hp e1 ->
    hp_of w' (first_mover w) = ev_remaining_hp e2 ->
    turn_shape w w' [Attack e1; Attack e2].

(** The objects after a step are the objects before it, up to hit points. *)
Definition same_combatants (w w' : world) : Prop :=
  pokemon1 w' = with_hp (pokemon1 w) (hp1 w')
  /\ pokemon2 w' = with_hp (pokemon2 w) (hp2 w')
  /\ entropy w' = entropy w.

(** ** Reading the battle log *)

Definition attacks_of_events (evs : list event) : list attack_event :=
  flat_map (fun ev => match ev with Attack e => [e] | Message _ => [] end) evs.

Definition turns_of_log (l : list log_entry) : list (Z * list event) :=
  flat_map (fun en => match en with turn k evs => [(k, evs)] | _ => [] end) l.

Definition attacks_of_turns (ts : list (Z * list event)) : list attack_event :=
  flat_map (fun t => attacks_of_events (snd t)) ts.

Definition attacks_of_log (l : list log_entry) : list attack_event :=
  attacks_of_turns (turns_of_log l).

(** The target of an attack is still standing after it. *)
Definition stands (e : attack_event) : Prop := 0 < ev_remaining_hp e.

Definition quiet_turn (t : Z * list event) : Prop :=
  Forall stands (attacks_of_events (snd t)).

(** The mover of a turn opens it and every later attack of the turn is the
    opponent's. *)
Definition opened_by (c : combatant) (t : Z * list event) : Prop :=
  exists e rest, snd t = Attack e :: rest /\ ev_by e = c
    /\ Forall (fun e' => ev_by e' = opponent c) (attacks_of_events rest).

(** Every element but the last one satisfies [P]. *)
Definition all_but_last {A : Type} (P : A -> Prop) (l : list A) : Prop :=
  forall pre x post, l = pre ++ x :: post -> post <> [] -> P x.

(** ** The battle loop *)

Definition entry_of_turn (t : Z * list event) : log_entry := turn (fst t) (snd t).

(** What one run of the loop, from turn counter [ct] in world [w] to turn
    counter [ct'] in world [w'], has done; [ts] are the turns it logged. *)
Record loop_post (N : Q) (ct : Z) (w : world) (ct' : Z) (w' : world)
    (ts : list (Z * list event)) : Prop := {
  lp_same : same_combatants w w';
  lp_hp1 : 0 <= hp1 w';
  lp_hp2 : 0 <= hp2 w';
  lp_one_stands : 0 < hp1 w \/ 0 < hp2 w -> 0 < hp1 w' \/ 0 < hp2 w';
  lp_count : ct <= ct';
  lp_cap : ct < ct' -> (inject_Z (ct' - 1) <= N)%Q;
  lp_exit : 0 < hp1 w' -> 0 < hp2 w' -> (N < inject_Z ct')%Q;
  lp_idle : ~ (0 < hp1 w /\ 0 < hp2 w) -> ct' = ct;
  lp_numbers : map fst ts = seqZ ct (ct' - ct);
  lp_attacks : all_but_last stands (attacks_of_turns ts);
  lp_attacks_quiet : 0 < hp1 w' -> 0 < hp2 w' -> Forall stands (attacks_of_turns ts);
  lp_turns : all_but_last quiet_turn ts;
  lp_turns_quiet : 0 < hp1 w' -> 0 < hp2 w' -> Forall quiet_turn ts;
  lp_order : Forall (opened_by (first_mover w)) ts;
  lp_progress : (inject_Z ct <= N)%Q -> 0 < hp1 w -> 0 < hp2 w -> ct < ct';
  lp_nonneg : Forall (fun e => 0 <= ev_remaining_hp e) (attacks_of_turns ts);
  lp_each_turn :
    Forall (fun t => all_but_last stands (attacks_of_events (snd t))) ts
}.

(** ** Sample combatants

    Rattata and Gastly with the base stats of the public API, at level 50. *)

Definition tackle : move :=
  {| move_name := "tackle"; power := Some 40; move_type := "normal";
     damage_class := Some "physical" |}.

Definition lick : move :=
  {| move_name := "lick"; power := Some 30; move_type := "ghost";
     damage_class := Some "physical" |}.

Definition sample_api (key : string) : option api_pokemon :=
  if String.eqb key "rattata" then
    Some {| api_id := 19; api_name := "rattata"; api_types := ["normal"];
            api_stats := [("hp", 30); ("attack", 56); ("defense", 35);
                          ("special-attack", 25); ("special-defense", 35);
                          ("speed", 72)];
            api_moves := [tackle] |}
  else if String.eqb key "gastly" then
    Some {| api_id := 92; api_name := "gastly"; api_types := ["ghost"; "poison"];
            api_stats := [("hp", 30); ("attack", 35); ("defense", 30);
                          ("special-attack", 100); ("special-defense", 35);
                          ("speed", 80)];
            api_moves := [lick] |}
  else None.

Definition rattata : pokemon :=
  {| id := 19; name := "rattata"; types := ["normal"]; level := 50;
     pstats := {| hp := 105; attack := 76; defense := 55; special_attack := 45;
                  special_defense := 55; speed := 92 |};
     current_hp := 105; moves := [tackle] |}.

Definition gastly : pokemon :=
  {| id := 92; name := "gastly"; types := ["ghost"; "poison"]; level := 50;
     pstats := {| hp := 105; attack := 55; defense := 50; special_attack := 120;
                  special_defense := 55; speed := 100 |};
     current_hp := 105; moves := [lick] |}.

Definition sample_entropy (n : nat) : N := (N.of_nat n * 1234567890123457)%N.

Definition sample_world : world :=
  {| pokemon1 := rattata; pokemon2 := gastly; entropy := sample_entropy; drawn := O |}.

(** ** Vocabulary for further statements *)

(** Stats as the formulas give them for non-negative base stats: nothing
    negative, and no zero to divide by. *)
Definition sound_stats (p : pokemon) : Prop :=
  0 <= level p
  /\ 0 <= attack (pstats p) /\ 0 <= special_attack (pstats p)
  /\ 0 < defense (pstats p) /\ 0 < special_defense (pstats p).

Definition sound_move (mv : move) : Prop :=
  match power mv with Some p => 0 <= p | None => True end.

(** A status move: [power] is [null] (or 0), so line 49 returns no damage. *)
Definition powerless (mv : move) : Prop :=
  match power mv with Some p => p = 0 | None => True end.

(** A status move of the public API, and a combatant that knows nothing
    else. *)
Definition growl : move :=
  {| move_name := "growl"; power := None; move_type := "normal";
     damage_class := Some "status" |}.

Definition with_types (p : pokemon) (ts : list string) : pokemon :=
  {| id := id p; name := name p; types := ts; level := level p;
     pstats := pstats p; current_hp := current_hp p; moves := moves p |}.

Definition with_moves (p : pokemon) (ms : list move) : pokemon :=
  {| id := id p; name := name p; types := types p; level := level p;
     pstats := pstats p; current_hp := current_hp p; moves := ms |}.

Definition world_with_moves (ms1 ms2 : list move) : world :=
  {| pokemon1 := with_moves rattata ms1; pokemon2 := with_moves gastly ms2;
     entropy := sample_entropy; drawn := O |}.

(** ** generateBattleSummary

    The counters of lines 324-327 and the lines about fainted combatants
    that the loop appends to [summary]. *)
Record tally : Type := {
  highestDamage : Z;
  highestDamageMove : string;
  criticalHits : Z;
  superEffectiveHits : Z;
  fainted_lines : string
}.

Definition fainted_line (e : attack_event) : string :=
  "- " +:+ ev_defender e +:+ " fainted after " +:+ ev_attacker e +:+ " used "
  +:+ ev_move e +:+ "!" +:+ JS.newline.

Definition is_critical (e : attack_event) : bool :=
  negb (String.eqb (ev_critical e) "").

Definition is_super_effective (e : attack_event) : bool :=
  negb (String.eqb (ev_effectiveness e) "")
  && JS.includes (ev_effectiveness e) "super effective".

(** The callback of [turn.events.forEach], lines 333-345.  On a message
    entry every property it reads is [undefined]: no comparison holds and no
    condition is truthy. *)
Definition tally_event (t : tally) (ev : event) : tally :=
  match ev with
  | Message _ => t
  | Attack e =>
      let higher := highestDamage t <? ev_damage e in
      {| highestDamage := if higher then ev_damage e else highestDamage t;
         highestDamageMove :=
           if higher then ev_attacker e +:+ " used " +:+ ev_move e
           else highestDamageMove t;
         criticalHits := if is_critical e then criticalHits t + 1 else criticalHits t;
         superEffectiveHits :=
           if is_super_effective e then superEffectiveHits t + 1
           else superEffectiveHits t;
         fainted_lines :=
           if ev_fainted e then fainted_lines t +:+ fainted_line e
           else fainted_lines t |}
  end.

Definition tally_entry (t : tally) (en : log_entry) : tally :=
  match en with
  | turn _ events => fold_left tally_event events t
  | _ => t
  end.

(** The entries the loop [for (i = 1; i < battleLog.length - 1; i++)] visits. *)
Definition middle {A : Type} (l : list A) : list A :=
  take (length l - 2) (drop 1 l).

Definition highlights (battleLog : list log_entry) : tally :=
  fold_left tally_entry (middle battleLog)
    {| highestDamage := 0; highestDamageMove := ""; criticalHits := 0;
       superEffectiveHits := 0; fainted_lines := "" |}.

Definition summary_header (pokemon1 pokemon2 : pokemon) : string :=
  "Battle between " +:+ JS.toUpperCase (name pokemon1) +:+ " and "
  +:+ JS.toUpperCase (name pokemon2) +:+ JS.newline +:+ JS.newline
  +:+ name pokemon1 +:+ " (Lv." +:+ JS.String_of_number (level pokemon1)
  +:+ ") - Types: " +:+ JS.join ", " (types pokemon1) +:+ JS.newline
  +:+ name pokemon2 +:+ " (Lv." +:+ JS.String_of_number (level pokemon2)
  +:+ ") - Types: " +:+ JS.join ", " (types pokemon2) +:+ JS.newline +:+ JS.newline
  +:+ "BATTLE HIGHLIGHTS:" +:+ JS.newline.

Definition summary_counters (t : tally) : string :=
  "- Highest damage: " +:+ highestDamageMove t +:+ " dealt "
  +:+ JS.String_of_number (highestDamage t) +:+ " damage" +:+ JS.newline
  +:+ "- Critical hits: " +:+ JS.String_of_number (criticalHits t) +:+ JS.newline
  +:+ "- Super effective hits: " +:+ JS.String_of_number (superEffectiveHits t)
  +:+ JS.newline +:+ JS.newline.

(** Lines 356-366: who is reported as the winner, and with which hit
    points, is decided by comparing [battle_end.winner] with
    [pokemon1.name]. *)
Definition summary_closing (winner : string) (pokemon1_hp pokemon2_hp : Z)
    (pokemon1 pokemon2 : pokemon) : string :=
  if negb (String.eqb winner "draw") then
    let first := String.eqb winner (name pokemon1) in
    let w := if first then pokemon1 else pokemon2 in
    let winnerHp := if first then pokemon1_hp else pokemon2_hp in
    let winnerMaxHp := if first then hp (pstats pokemon1) else hp (pstats pokemon2) in
    name w +:+ " had " +:+ JS.String_of_number winnerHp +:+ "/"
    +:+ JS.String_of_number winnerMaxHp +:+ " HP remaining." +:+ JS.newline
  else "The battle ended in a draw!" +:+ JS.newline.

(** [battle_end] is the last entry of the log; reading [.winner.toUpperCase()]
    throws when there is no entry or the entry has no [winner]. *)
Definition generateBattleSummary (battleLog : list log_entry)
    (pokemon1 pokemon2 : pokemon) : result string :=
  let t := highlights battleLog in
  match last battleLog with
  | Some (battle_end turns_simulated winner pokemon1_hp pokemon2_hp) =>
      Ok (summary_header pokemon1 pokemon2
          +:+ fainted_lines t
          +:+ summary_counters t
          +:+ "BATTLE RESULT: " +:+ JS.toUpperCase winner +:+ " wins in "
          +:+ JS.String_of_number turns_simulated +:+ " turns!" +:+ JS.newline
          +:+ summary_closing winner pokemon1_hp pokemon2_hp pokemon1 pokemon2)
  | _ => Throw "TypeError: undefined is not an object (evaluating 'battle_end.winner.toUpperCase')"
  end.

(** The largest damage among attacks, 0 when there is none. *)
Definition max_damage (es : list attack_event) : Z :=
  fold_right (fun e m => Z.max (ev_damage e) m) 0 es.

Definition count (f : attack_event -> bool) (es : list attack_event) : Z :=
  Z.of_nat (length (List.filter f es)).

(** The six stats [fetchPokemonForBattle] looks up are all in the document. *)
Definition has_stats (data : api_pokemon) : bool :=
  forallb (fun k => match JS.prop (api_stats data) k with
                    | Some _ => true
                    | None => false
                    end)
    ["hp"; "attack"; "defense"; "special-attack"; "special-defense"; "speed"].

Definition has_stats_of (api : string -> option api_pokemon) (key : string) : Prop :=
  exists data, api key = Some data /\ has_stats data = true.

Definition base_or_zero (data : api_pokemon) (k : string) : Z :=
  match JS.prop (api_stats data) k with Some b => b | None => 0 end.

(** The move a combatant brings to [simulateTurn pokemon1 pokemon2 m1 m2]. *)
Definition pick (m1 m2 : option move) (c : combatant) : option move :=
  match c with P1 => m1 | P2 => m2 end.

(** The attacks of one turn, in order, each one a [strike] run in the world
    the previous one left. *)
Inductive strikes (m1 m2 : option move) : world -> list attack_event -> world -> Prop :=
| strikes_nil w : strikes m1 m2 w [] w
| strikes_cons c w e w1 es w' :
    strike c (opponent c) (pick m1 m2 c) w = Ok (e, w1) ->
    strikes m1 m2 w1 es w' ->
    strikes m1 m2 w (e :: es) w'.

End Battle.

(** ** The tools of [opencontrol/src/tools.ts] and [pokemon-tools.ts] *)

Module Tools.

Import JS.

(** What a tool hands back: [{success: true, ...payload}] or
    [{success: false, error}]. *)
Inductive output (A : Type) : Type :=
| Success (payload : A)
| Failure (error : string).
Arguments Success {A} payload.
Arguments Failure {A} error.

Section World.

(** The world outside the process: the SQLite database behind the shared
    handle, the network, the clock and [Math.random].  A call observes the
    world and may change it; its answer is the rows or document it
    returns, or the exception it throws. *)
Variable W : Type.
Variable query_all : string -> list json -> W -> completion (list json) * W.
Variable query_get : string -> list json -> W -> completion json * W.
Variable query_run : string -> list json -> W -> completion unit * W.
Variable fetch : string -> W -> completion response * W.
Variable Math_random : W -> Q * W.
Variable now_ISO : W -> string * W.
(** Template-literal conversion of a value to text. *)
Variable String_of : json -> string.

Definition M (A : Type) : Type := W -> completion A * W.

Definition ret {A : Type} (a : A) : M A := fun w => (Returns a, w).

Definition throw {A : Type} (error : string) : M A := fun w => (Throws error, w).

Definition bind {A B : Type} (m : M A) (k : A -> M B) : M B :=
  fun w =>
    match m w with
    | (Returns a, w') => k a w'
    | (Throws e, w') => (Throws e, w')
    end.

Definition lift {A : Type} (c : completion A) : M A := fun w => (c, w).

Notation "'do' x <- m ; k" := (bind m (fun x => k))
  (at level 10, x name, m at level 100, k at level 200).

(** [try { return {success: true, ...body} } catch (error) { return
    {success: false, error: message} }]; the body may itself return a
    failure value. *)
Definition try_catch {A : Type} (body : M (output A)) : M (output A) :=
  fun w =>
    match body w with
    | (Returns v, w') => (Returns v, w')
    | (Throws e, w') => (Returns (Failure e), w')
    end.

Fixpoint for_each {A B : Type} (l : list A) (acc : B) (step : B -> A -> M B) : M B :=
  match l with
  | [] => ret acc
  | x :: rest => do acc' <- step acc x; for_each rest acc' step
  end.

(** *** tools.ts *)

(** Each tool is given as the block inside its [try] ([..._try]) and the
    [run] function around it.  SQL texts are written on one line. *)

Definition sqlite_schedule_read_try (query : string) : M (output (list json)) :=
  do results <- query_all query [];
  ret (Success results).

Definition sqlite_schedule_read (query : string) : M (output (list json)) :=
  if negb (startsWith (toLowerCase (trim query)) "select")
  then throw "Only SELECT queries are allowed with this tool."
  else try_catch (sqlite_schedule_read_try query).

Definition sqlite_schedule_schema_try (_ : unit)
  : M (output (list (string * (list json * list json)))) :=
  do tables <- query_all
    "SELECT name FROM sqlite_master WHERE type='table' AND name NOT LIKE 'sqlite_%'" [];
  do schema <- for_each tables [] (fun schema table =>
    do tableName <- lift (get table "name");
    let tableName := String_of tableName in
    do columns <- query_all ("PRAGMA table_info(" +:+ tableName +:+ ")") [];
    do foreignKeys <- query_all ("PRAGMA foreign_key_list(" +:+ tableName +:+ ")") [];
    ret (set_prop schema tableName (columns, foreignKeys)));
  ret (Success schema).

Definition sqlite_schedule_schema (input : unit)
  : M (output (list (string * (list json * list json)))) :=
  try_catch (sqlite_schedule_schema_try input).

Record found : Type := {
  message : option string;
  results : list json
}.

Definition talks_by_speaker_sql : string :=
  "SELECT t.*, s.name as speaker_name, r.name as room_name, tr.name as track_name FROM talks t JOIN talk_speakers ts ON t.id = ts.talk_id JOIN speakers s ON ts.speaker_code = s.code LEFT JOIN rooms r ON t.room = r.id LEFT JOIN tracks tr ON t.track = tr.id WHERE ts.speaker_code = ? ORDER BY t.start".

(** [results.length === 0] answers with a message and no rows. *)
Definition found_or (rows : list json) (none : string) : output found :=
  match rows with
  | [] => Success {| message := Some none; results := [] |}
  | _ => Success {| message := None; results := rows |}
  end.

Definition get_talks_by_speaker_try (speaker_code : string) : M (output found) :=
  do rows <- query_all talks_by_speaker_sql [JString speaker_code];
  ret (found_or rows ("No talks found for speaker with code: " +:+ speaker_code)).

Definition get_talks_by_speaker (speaker_code : string) : M (output found) :=
  try_catch (get_talks_by_speaker_try speaker_code).

Definition talks_by_room_sql : string :=
  "SELECT t.*, r.name as room_name, tr.name as track_name FROM talks t JOIN rooms r ON t.room = r.id LEFT JOIN tracks tr ON t.track = tr.id WHERE t.room = ? ORDER BY t.start".

Definition get_talks_by_room_try (room_id : Z) : M (output found) :=
  do rows <- query_all talks_by_room_sql [JNumber room_id];
  ret (found_or rows
         ("No talks found for room with ID: " +:+ String_of (JNumber room_id))).

Definition get_talks_by_room (room_id : Z) : M (output found) :=
  try_catch (get_talks_by_room_try room_id).

(** *** pokemon-tools.ts *)

Definition POKE_API_BASE : string := "https://pokeapi.co/api/v2".

Definition fetchPokeAPI (endpoint : string) : M json :=
  do resp <- fetch (POKE_API_BASE +:+ endpoint);
  if negb (ok resp)
  then throw ("HTTP error! status: " +:+ String_of (JNumber (status resp)))
  else lift (body resp).

(** [{...data}] for a document of the API (an object; an array spreads
    into its indices, any other value into nothing). *)
Definition spread (data : json) : list (string * json) :=
  match data with
  | JObject fields => fields
  | JArray items => imap (fun i v => (String_of (JNumber (Z.of_nat i)), v)) items
  | _ => []
  end.

Definition compressPokemonData (data : json) : completion json :=
  let compressedData := spread data in
  let compressedData := delete_prop compressedData "game_indices" in
  let compressedData := delete_prop compressedData "moves" in
  let compressedData := delete_prop compressedData "sprites" in
  let compressedData := delete_prop compressedData "held_items" in
  match prop compressedData "stats" with
  | Some stats =>
      if truthy stats then
        Bind (array_method stats "forEach") (fun items =>
        Bind (map_completion (fun stat =>
                Bind (get stat "stat") (fun st =>
                Bind (get st "name") (fun nm =>
                Bind (get stat "base_stat") (fun b =>
                Returns (String_of nm, b))))) items) (fun pairs =>
        let simplifiedStats :=
          fold_left (fun acc kv => set_prop acc (fst kv) (snd kv)) pairs [] in
        Returns (JObject (set_prop compressedData "stats" (JObject simplifiedStats)))))
      else Returns (JObject compressedData)
  | None => Returns (JObject compressedData)
  end.

Definition pokemon_read_try (endpoint : string) : M (output json) :=
  do results <- fetchPokeAPI endpoint;
  let isPokemonEndpoint :=
    startsWith endpoint "/pokemon/" && negb (includes endpoint "species") in
  do processedResults <-
    (if isPokemonEndpoint then lift (compressPokemonData results) else ret results);
  ret (Success processedResults).

Definition pokemon_read (endpoint : string) : M (output json) :=
  try_catch (pokemon_read_try endpoint).

(** [v.slice(0, 5)] *)
Definition slice5 (v : json) : completion json :=
  match v with
  | JArray items => Returns (JArray (take 5 items))
  | JString s => Returns (JString (String.substring 0 5 s))
  | JUndefined | JNull =>
      Throws "TypeError: undefined is not an object (evaluating 'slice')"
  | _ => Throws "TypeError: slice is not a function"
  end.

Definition pokemon_schema_try (_ : unit) : M (output (list (string * json))) :=
  do schema <- for_each ["/pokemon"; "/type"; "/ability"; "/move"; "/species"] []
    (fun schema endpoint =>
      do response <- fetchPokeAPI endpoint;
      do count <- lift (get response "count");
      do res <- lift (get response "results");
      do first5 <- lift (slice5 res);
      ret (set_prop schema endpoint
             (JObject [("count", count); ("results", first5);
                       ("description",
                        JString ("Endpoint for " +:+ slice1 endpoint +:+ " data"))])));
  ret (Success schema).

Definition pokemon_schema (input : unit) : M (output (list (string * json))) :=
  try_catch (pokemon_schema_try input).

(** [data.pokemon.map(p => ({name: p.pokemon.name, [extra]: p[extra]}))] *)
Definition pokemon_entries (data : json) (extra : string) : completion (list json) :=
  Bind (get data "pokemon") (fun entries =>
  Bind (array_method entries "map") (fun items =>
  map_completion (fun p =>
    Bind (get p "pokemon") (fun pk =>
    Bind (get pk "name") (fun nm =>
    Bind (get p extra) (fun x =>
    Returns (JObject [("name", nm); (extra, x)]))))) items)).

Definition get_pokemon_by_type_try (type : string) : M (output found) :=
  do typeData <- fetchPokeAPI ("/type/" +:+ toLowerCase type);
  do pokemon <- lift (pokemon_entries typeData "slot");
  ret (found_or pokemon ("No Pokemon found for type: " +:+ type)).

Definition get_pokemon_by_type (type : string) : M (output found) :=
  try_catch (get_pokemon_by_type_try type).

Definition get_pokemon_by_ability_try (ability : string) : M (output found) :=
  do abilityData <- fetchPokeAPI ("/ability/" +:+ toLowerCase ability);
  do pokemon <- lift (pokemon_entries abilityData "is_hidden");
  ret (found_or pokemon ("No Pokemon found with ability: " +:+ ability)).

Definition get_pokemon_by_ability (ability : string) : M (output found) :=
  try_catch (get_pokemon_by_ability_try ability).

(** An argument declared [z.union([z.number(), z.string()])]. *)
Definition id_or_name : Type := (Z + string)%type.

Definition text_of (k : id_or_name) : string :=
  match k with
  | inl n => String_of (JNumber n)
  | inr s => s
  end.

(** [validatePokemon]: its own [try]/[catch] turns every failure into
    [null]. *)
Definition validatePokemon (pokemonIdOrName : id_or_name) : M json :=
  fun w =>
    match (do data <- fetchPokeAPI ("/pokemon/" +:+ toLowerCase (text_of pokemonIdOrName));
           do i <- lift (get data "id");
           do n <- lift (get data "name");
           ret (JObject [("id", i); ("name", n)])) w with
    | (Returns v, w') => (Returns v, w')
    | (Throws _, w') => (Returns JNull, w')
    end.

Record catch_input : Type := {
  pokemon_id_or_name : id_or_name;
  nickname : option string;
  location : option string;
  level : option Z
}.

Record caught : Type := {
  catch_message : option string;
  caught_pokemon : json
}.

Definition string_or (s : option string) (fallback : json) : json :=
  match s with
  | Some t => or_else (JString t) fallback
  | None => fallback
  end.

Definition number_or (n : option Z) (fallback : json) : json :=
  match n with
  | Some k => or_else (JNumber k) fallback
  | None => fallback
  end.

Definition catch_pokemon_try (input : catch_input) : M (output caught) :=
  do pokemon <- validatePokemon (pokemon_id_or_name input);
  if negb (truthy pokemon) then
    ret (Failure ("Pokemon with ID/name '" +:+ text_of (pokemon_id_or_name input)
                  +:+ "' not found"))
  else
    do pid <- lift (get pokemon "id");
    do pname <- lift (get pokemon "name");
    do _ <- query_run
      "INSERT INTO caught_pokemon (pokemon_id, pokemon_name, nickname, location, level) VALUES (?, ?, ?, ?, ?)"
      [pid; pname;
       string_or (nickname input) JNull;
       string_or (location input) (JString "Unknown location");
       number_or (level input) (JNumber 50)];
    let nm := String_of pname in
    let catchMessages :=
      ["Gotcha! " +:+ nm +:+ " was caught!";
       "You caught " +:+ nm +:+ "!";
       nm +:+ " was caught successfully!";
       nm +:+ " is now part of your team!"] in
    do r <- (fun w => let (q, w') := Math_random w in (Returns q, w'));
    let i := Qfloor (r * 4)%Q in
    let catchMessage := if (i <? 0)%Z then None else catchMessages !! Z.to_nat i in
    do caught_at <- (fun w => let (t, w') := now_ISO w in (Returns t, w'));
    ret (Success
           {| catch_message := catchMessage;
              caught_pokemon :=
                JObject [("id", pid); ("name", pname);
                         ("nickname", match nickname input with
                                      | Some t => JString t
                                      | None => JUndefined
                                      end);
                         ("level", number_or (level input) (JNumber 50));
                         ("caught_at", JString caught_at)] |}).

Definition catch_pokemon (input : catch_input) : M (output caught) :=
  try_catch (catch_pokemon_try input).

Definition get_caught_pokemon_try (_ : unit) : M (output found) :=
  do caughtPokemon <- query_all
    "SELECT * FROM caught_pokemon WHERE user_id = 'default_user' ORDER BY caught_at DESC" [];
  ret (found_or caughtPokemon "You haven't caught any Pokemon yet").

Definition get_caught_pokemon (input : unit) : M (output found) :=
  try_catch (get_caught_pokemon_try input).

Definition release_pokemon_try (pokemon_id : Z) : M (output string) :=
  do pokemon <- query_get
    "SELECT pokemon_name, nickname FROM caught_pokemon WHERE id = ? AND user_id = 'default_user'"
    [JNumber pokemon_id];
  if negb (truthy pokemon) then
    ret (Failure ("No caught Pokemon found with ID: " +:+ String_of (JNumber pokemon_id)))
  else
    do _ <- query_run
      "DELETE FROM caught_pokemon WHERE id = ? AND user_id = 'default_user'"
      [JNumber pokemon_id];
    do nick <- lift (get pokemon "nickname");
    do displayName <-
      (if truthy nick then ret nick else lift (get pokemon "pokemon_name"));
    let displayName := String_of displayName in
    ret (Success (displayName +:+ " was released back into the wild. Bye bye, "
                  +:+ displayName +:+ "!")).

Definition release_pokemon (pokemon_id : Z) : M (output string) :=
  try_catch (release_pokemon_try pokemon_id).

Definition search_caught_pokemon_try (search_term : string) : M (output found) :=
  let searchTerm := JString ("%" +:+ toLowerCase search_term +:+ "%") in
  do rows <- query_all
    "SELECT * FROM caught_pokemon WHERE (LOWER(pokemon_name) LIKE ? OR LOWER(nickname) LIKE ?) AND user_id = 'default_user' ORDER BY caught_at DESC"
    [searchTerm; searchTerm];
  ret (found_or rows ("No caught Pokemon found matching '" +:+ search_term +:+ "'")).

Definition search_caught_pokemon (search_term : string) : M (output found) :=
  try_catch (search_caught_pokemon_try search_term).

(** *** The tools handed to the agent in [index.ts]

    [battle_pokemon], the thirteenth, is [Battle.battle_pokemon]. *)
Record tool : Type := {
  tool_name : string;
  tool_args : Type;
  tool_payload : Type;
  tool_try : tool_args -> M (output tool_payload);
  tool_run : tool_args -> M (output tool_payload)
}.

Definition exposed_tools : list tool :=
  [ {| tool_name := "sqlite_schedule_read";
       tool_try := sqlite_schedule_read_try; tool_run := sqlite_schedule_read |};
    {| tool_name := "sqlite_schedule_schema";
       tool_try := sqlite_schedule_schema_try; tool_run := sqlite_schedule_schema |};
    {| tool_name := "get_talks_by_speaker";
       tool_try := get_talks_by_speaker_try; tool_run := get_talks_by_speaker |};
    {| tool_name := "get_talks_by_room";
       tool_try := get_talks_by_room_try; tool_run := get_talks_by_room |};
    {| tool_name := "pokemon_read";
       tool_try := pokemon_read_try; tool_run := pokemon_read |};
    {| tool_name := "pokemon_schema";
       tool_try := pokemon_schema_try; tool_run := pokemon_schema |};
    {| tool_name := "get_pokemon_by_type";
       tool_try := get_pokemon_by_type_try; tool_run := get_pokemon_by_type |};
    {| tool_name := "get_pokemon_by_ability";
       tool_try := get_pokemon_by_ability_try; tool_run := get_pokemon_by_ability |};
    {| tool_name := "catch_pokemon";
       tool_try := catch_pokemon_try; tool_run := catch_pokemon |};
    {| tool_name := "get_caught_pokemon";
       tool_try := get_caught_pokemon_try; tool_run := get_caught_pokemon |};
    {| tool_name := "release_pokemon";
       tool_try := release_pokemon_try; tool_run := release_pokemon |};
    {| tool_name := "search_caught_pokemon";
       tool_try := search_caught_pokemon_try; tool_run := search_caught_pokemon |} ].

End World.

(** A database that answers every statement with no rows. *)
Definition empty_answers (sql : string) (params : list json) (w : unit)
  : completion (list json) * unit := (Returns [], w).

(** The statements of [release_pokemon], and the address [validatePokemon]
    asks. *)
Definition release_select_sql : string :=
  "SELECT pokemon_name, nickname FROM caught_pokemon WHERE id = ? AND user_id = 'default_user'".

Definition release_delete_sql : string :=
  "DELETE FROM caught_pokemon WHERE id = ? AND user_id = 'default_user'".


(** The fields [compressPokemonData] deletes. *)
Definition verbose_fields : list string :=
  ["game_indices"; "moves"; "sprites"; "held_items"].

(** A world that logs the statements it is asked to run; the API answers
    every request with status 404. *)
Definition logged_run (sql : string) (params : list json) (w : list string)
  : completion unit * list string := (Returns tt, w ++ [sql]).

Definition no_row (sql : string) (params : list json) (w : list string)
  : completion json * list string := (Returns JUndefined, w).


Definition found_mew (url : string) (w : list string)
  : completion response * list string :=
  (Returns {| ok := true; status := 200;
              body := Returns (JObject [("id", JNumber 151); ("name", JString "mew")]) |},
   w).

Definition fixed_random (w : list string) : Q * list string := ((0 # 1)%Q, w).

Definition fixed_clock (w : list string) : string * list string :=
  ("2025-04-23T09:00:00.000Z", w).

Definition plain_text (v : json) : string :=
  match v with
  | JString t => t
  | JNumber n => pretty n
  | _ => ""
  end.

Definition sample_document : json :=
  JObject [("id", JNumber 151); ("name", JString "mew");
           ("moves", JArray [JString "pound"]); ("sprites", JNull);
           ("stats", JArray [JObject [("base_stat", JNumber 100);
                                      ("stat", JObject [("name", JString "hp")])]])].

End Tools.

(** ** The importer of [build-schedule/index.ts] *)

Module Schedule.

Import JS.

(** ** The feed ([types.ts])

    Identifiers and plain strings are typed as the interfaces declare them;
    the fields the importer inspects with [typeof] are kept as loose values;
    an optional field is an [option]. *)

Record Room : Type := {
  room_id : Z;
  room_name : json;
  room_description : json
}.

Record Track : Type := {
  track_id : Z;
  track_name : json;
  track_description : json;
  track_color : option string
}.

Record Speaker : Type := {
  speaker_code : string;
  speaker_name : string;
  avatar : option string;
  avatar_thumbnail_default : option string;
  avatar_thumbnail_tiny : option string
}.

Record Talk : Type := {
  talk_id : Z;
  talk_code : option string;
  talk_title : json;
  talk_abstract : option string;
  talk_start : string;
  talk_end : string;
  talk_room : Z;
  talk_track : option Z;
  talk_duration : option Z;
  talk_updated : option string;
  talk_state : option string;
  talk_do_not_record : option bool;
  speaker_codes : option (list string)    (* talk.speakers *)
}.

(** A field of [ScheduleData] is [None] when it is missing or not an array. *)
Record ScheduleData : Type := {
  data_rooms : option (list Room);
  data_tracks : option (list Track);
  data_speakers : option (list Speaker);
  data_talks : option (list Talk)
}.

(** ** The tables

    A table is the finite map from its primary key to the other columns;
    [talk_speakers], whose two columns are its primary key, is a set. *)

Record room_row : Type := {
  r_name : json;
  r_description : json
}.

Record track_row : Type := {
  t_name : json;
  t_description : json;
  t_color : option string
}.

Record speaker_row : Type := {
  s_name : string;
  s_avatar : string;
  s_avatar_thumbnail_default : string;
  s_avatar_thumbnail_tiny : string
}.

Record talk_row : Type := {
  code : option string;          (* UNIQUE *)
  title : json;
  abstract : option string;
  start : string;
  end_ : string;
  room : Z;
  track : option Z;
  duration : option Z;
  updated : option string;
  state : option string;
  do_not_record : Z
}.

Record database : Type := {
  talks : gmap Z talk_row;
  speakers : gmap string speaker_row;
  rooms : gmap Z room_row;
  tracks : gmap Z track_row;
  talk_speakers : gset (Z * string)
}.

(** ** The prepared statements *)

Inductive statement : Type :=
| insertTalk (id : Z) (row : talk_row)
| insertSpeaker (code : string) (row : speaker_row)
| insertRoom (id : Z) (row : room_row)
| insertTrack (id : Z) (row : track_row)
| insertTalkSpeaker (talk_id : Z) (speaker_code : string).

(** [INSERT OR REPLACE INTO talks] removes every row that the new one
    conflicts with, on the primary key [id] or on the [UNIQUE] column [code]
    (two [NULL] codes do not conflict), before it inserts. *)
Definition clashes (id : Z) (row : talk_row) (kv : Z * talk_row) : Prop :=
  fst kv = id \/ (code row <> None /\ code (snd kv) = code row).

#[export] Instance clashes_dec id row kv : Decision (clashes id row kv).
Proof. unfold clashes. apply _. Defined.

(** What a statement does to the tables when the engine accepts it. *)
Definition effect (s : statement) (d : database) : database :=
  match s with
  | insertTalk id row =>
      {| talks := <[id := row]> (filter (fun kv => ~ clashes id row kv) (talks d));
         speakers := speakers d; rooms := rooms d; tracks := tracks d;
         talk_speakers := talk_speakers d |}
  | insertSpeaker c row =>
      {| talks := talks d; speakers := <[c := row]> (speakers d); rooms := rooms d;
         tracks := tracks d; talk_speakers := talk_speakers d |}
  | insertRoom id row =>
      {| talks := talks d; speakers := speakers d; rooms := <[id := row]> (rooms d);
         tracks := tracks d; talk_speakers := talk_speakers d |}
  | insertTrack id row =>
      {| talks := talks d; speakers := speakers d; rooms := rooms d;
         tracks := <[id := row]> (tracks d); talk_speakers := talk_speakers d |}
  | insertTalkSpeaker t c =>
      (* INSERT OR IGNORE: nothing changes when the pair is there *)
      {| talks := talks d; speakers := speakers d; rooms := rooms d;
         tracks := tracks d;
         talk_speakers := if decide ((t, c) ∈ talk_speakers d)
                          then talk_speakers d
                          else {[ (t, c) ]} ∪ talk_speakers d |}
  end.

(** The tables after a list of accepted statements. *)
Definition effects (l : list statement) (d : database) : database :=
  fold_left (fun acc s => effect s acc) l d.

(** The part of the tables a statement does not overwrite. *)
Definition erase (s : statement) (d : database) : database :=
  match s with
  | insertTalk id row =>
      {| talks := filter (fun kv => ~ clashes id row kv) (talks d);
         speakers := speakers d; rooms := rooms d; tracks := tracks d;
         talk_speakers := talk_speakers d |}
  | insertSpeaker c _ =>
      {| talks := talks d; speakers := delete c (speakers d); rooms := rooms d;
         tracks := tracks d; talk_speakers := talk_speakers d |}
  | insertRoom id _ =>
      {| talks := talks d; speakers := speakers d; rooms := delete id (rooms d);
         tracks := tracks d; talk_speakers := talk_speakers d |}
  | insertTrack id _ =>
      {| talks := talks d; speakers := speakers d; rooms := rooms d;
         tracks := delete id (tracks d); talk_speakers := talk_speakers d |}
  | insertTalkSpeaker t c =>
      {| talks := talks d; speakers := speakers d; rooms := rooms d;
         tracks := tracks d; talk_speakers := talk_speakers d ∖ {[ (t, c) ]} |}
  end.

Section Engine.

(** The engine may refuse a statement in the state it finds (a foreign key
    with [PRAGMA foreign_keys = ON], a [NOT NULL] column, a value it cannot
    bind); [rejects] is its verdict, with the message of the error raised. *)
Variable rejects : statement -> database -> option string.
Variable JSON_stringify : json -> json.

(** Code inside the transaction: it threads the database and stops at the
    first exception. *)
Definition T (A : Type) : Type := database -> completion (A * database).

Definition ret {A : Type} (a : A) : T A := fun d => Returns (a, d).

Definition bind {A B : Type} (m : T A) (k : A -> T B) : T B :=
  fun d =>
    match m d with
    | Returns (a, d') => k a d'
    | Throws e => Throws e
    end.

Notation "'do' x <- m ; k" := (bind m (fun x => k))
  (at level 10, x name, m at level 100, k at level 200).

(** [statement.run(params)] *)
Definition run (s : statement) : T unit :=
  fun d =>
    match rejects s d with
    | Some e => Throws e
    | None => Returns (tt, effect s d)
    end.

Fixpoint for_of {A : Type} (l : list A) (body : A -> T unit) : T unit :=
  match l with
  | [] => ret tt
  | x :: rest => do _ <- body x; for_of rest body
  end.

(** [if (a && Array.isArray(a)) { for (const x of a) ... }] *)
Definition if_array {A : Type} (a : option (list A)) (body : A -> T unit) : T unit :=
  match a with
  | Some l => for_of l body
  | None => ret tt
  end.

(** [typeof v === 'string' ? v : (v && v.en ? v.en : JSON.stringify(v))] *)
Definition localized (v : json) : json :=
  match v with
  | JString s => JString s
  | _ =>
      if truthy v then
        match get v "en" with
        | Returns en => if truthy en then en else JSON_stringify v
        | Throws _ => JSON_stringify v
        end
      else JSON_stringify v
  end.

(** [v ? localized(v) : null] *)
Definition localized_or_null (v : json) : json :=
  if truthy v then localized v else JNull.

(** [s || null] and [s || ''] on an optional string, [n || null] on an
    optional number. *)
Definition text_or_null (s : option string) : option string :=
  match s with
  | Some t => if String.eqb t "" then None else Some t
  | None => None
  end.

Definition text_or_empty (s : option string) : string :=
  match s with
  | Some t => t
  | None => ""
  end.

Definition number_or_null (n : option Z) : option Z :=
  match n with
  | Some k => if (k =? 0)%Z then None else Some k
  | None => None
  end.

Definition room_statement (room : Room) : statement :=
  insertRoom (room_id room)
    {| r_name := localized (room_name room);
       r_description := localized_or_null (room_description room) |}.

Definition track_statement (track : Track) : statement :=
  insertTrack (track_id track)
    {| t_name := localized (track_name track);
       t_description := localized_or_null (track_description track);
       t_color := text_or_null (track_color track) |}.

Definition speaker_statement (speaker : Speaker) : statement :=
  insertSpeaker (speaker_code speaker)
    {| s_name := speaker_name speaker;
       s_avatar := text_or_empty (avatar speaker);
       s_avatar_thumbnail_default := text_or_empty (avatar_thumbnail_default speaker);
       s_avatar_thumbnail_tiny := text_or_empty (avatar_thumbnail_tiny speaker) |}.

Definition talk_statement (talk : Talk) : statement :=
  insertTalk (talk_id talk)
    {| code := text_or_null (talk_code talk);
       title := localized (talk_title talk);
       abstract := text_or_null (talk_abstract talk);
       start := talk_start talk;
       end_ := talk_end talk;
       room := talk_room talk;
       track := number_or_null (talk_track talk);
       duration := number_or_null (talk_duration talk);
       updated := text_or_null (talk_updated talk);
       state := text_or_null (talk_state talk);
       do_not_record := match talk_do_not_record talk with
                        | Some true => 1
                        | _ => 0
                        end |}.

Record import_stats : Type := {
  stat_rooms : nat;
  stat_tracks : nat;
  stat_speakers : nat;
  stat_talks : nat
}.

Definition count {A : Type} (a : option (list A)) : nat :=
  match a with
  | Some l => length l
  | None => O
  end.

(** The function handed to [db.transaction], lines 105-194. *)
Definition insertScheduleData_body (data : ScheduleData) : T import_stats :=
  do _ <- if_array (data_rooms data) (fun room => run (room_statement room));
  do _ <- if_array (data_tracks data) (fun track => run (track_statement track));
  do _ <- if_array (data_speakers data) (fun speaker => run (speaker_statement speaker));
  do _ <- if_array (data_talks data) (fun talk =>
    do _ <- run (talk_statement talk);
    if_array (speaker_codes talk) (fun speakerCode =>
      run (insertTalkSpeaker (talk_id talk) speakerCode)));
  ret {| stat_rooms := count (data_rooms data);
         stat_tracks := count (data_tracks data);
         stat_speakers := count (data_speakers data);
         stat_talks := count (data_talks data) |}.

(** [db.transaction(f)]: commit what [f] did, or roll back and rethrow. *)
Definition transaction {A B : Type} (f : A -> T B) (a : A) (d : database)
  : completion B * database :=
  match f a d with
  | Returns (b, d') => (Returns b, d')
  | Throws e => (Throws e, d)
  end.

Definition insertScheduleData (data : ScheduleData) (d : database)
  : completion import_stats * database :=
  transaction insertScheduleData_body data d.

(** The statements an import issues, in order. *)
Definition talk_statements (talk : Talk) : list statement :=
  talk_statement talk
  :: match speaker_codes talk with
     | Some l => map (insertTalkSpeaker (talk_id talk)) l
     | None => []
     end.

Definition array {A : Type} (a : option (list A)) : list A :=
  match a with
  | Some l => l
  | None => []
  end.

Definition statements (data : ScheduleData) : list statement :=
  map room_statement (array (data_rooms data))
  ++ map track_statement (array (data_tracks data))
  ++ map speaker_statement (array (data_speakers data))
  ++ flat_map talk_statements (array (data_talks data)).

Definition run_all (l : list statement) : T unit := for_of l run.

End Engine.

(** ** A sample feed *)

Local Open Scope Z_scope.

Definition sample_talk (i : Z) (c : string) (who : list string) : Talk :=
  {| talk_id := i; talk_code := Some c; talk_title := JString "Keynote";
     talk_abstract := None; talk_start := "2025-04-23T09:00:00+02:00";
     talk_end := "2025-04-23T10:00:00+02:00"; talk_room := 1; talk_track := None;
     talk_duration := Some 60; talk_updated := None; talk_state := None;
     talk_do_not_record := None; speaker_codes := Some who |}.

(** Two talks of the feed share the code "X" and two share the id 1. *)
Definition sample_feed : ScheduleData :=
  {| data_rooms := Some [{| room_id := 1; room_name := JObject [("en", JString "Hall")];
                            room_description := JNull |}];
     data_tracks := None;
     data_speakers := Some [{| speaker_code := "ABC"; speaker_name := "Ada";
                               avatar := None; avatar_thumbnail_default := None;
                               avatar_thumbnail_tiny := None |}];
     data_talks := Some [sample_talk 1 "X" []; sample_talk 2 "X" ["ABC"];
                         sample_talk 1 "Y" []] |}.

Definition empty_database : database :=
  {| talks := ∅; speakers := ∅; rooms := ∅; tracks := ∅; talk_speakers := ∅ |}.

Definition keys (d : database)
  : list Z * list string * list Z * list Z * list (Z * string) :=
  (map fst (map_to_list (talks d)), map fst (map_to_list (speakers d)),
   map fst (map_to_list (rooms d)), map fst (map_to_list (tracks d)),
   elements (talk_speakers d)).

(** ** Vocabulary for further statements *)

(** The row a statement writes into each table, with its key. *)
Definition written_room (s : statement) : option (Z * room_row) :=
  match s with insertRoom i r => Some (i, r) | _ => None end.

Definition written_track (s : statement) : option (Z * track_row) :=
  match s with insertTrack i r => Some (i, r) | _ => None end.

Definition written_speaker (s : statement) : option (string * speaker_row) :=
  match s with insertSpeaker c r => Some (c, r) | _ => None end.

Definition written_talk (s : statement) : option (Z * talk_row) :=
  match s with insertTalk i r => Some (i, r) | _ => None end.

Definition written_pair (s : statement) : option (Z * string) :=
  match s with insertTalkSpeaker t c => Some (t, c) | _ => None end.

(** What a table holds under a key after the entries were written in order
    over the table [before]: the last entry with this key, or else what was
    there. *)
Definition stored `{Countable K} {V : Type} (entries : list (K * V))
    (before : gmap K V) (k : K) : option V :=
  match last (filter (fun kv => fst kv = k) entries) with
  | Some kv => Some (snd kv)
  | None => before !! k
  end.

(** The constraint [code TEXT UNIQUE]: no two rows share a code that is not
    [NULL]. *)
Definition codes_unique (m : gmap Z talk_row) : Prop :=
  forall i j r1 r2,
    m !! i = Some r1 -> m !! j = Some r2 ->
    code r1 <> None -> code r1 = code r2 -> i = j.

Definition accept_all (s : statement) (d : database) : option string := None.

(** An engine that refuses to attach speakers to talk 2. *)
Definition refuse_talk_2 (s : statement) (d : database) : option string :=
  match s with
  | insertTalkSpeaker 2 _ => Some "FOREIGN KEY constraint failed"
  | _ => None
  end.

End Schedule.

(** * Part II: what the program does *)

(** ** The battle simulator *)

Module BattleFacts.

Import Battle.

Local Open Scope Z_scope.

(** *** The monad *)

Lemma bind_Ok {A B : Type} (m : M A) (k : A -> M B) w b w' :
  bind m k w = Ok (b, w') ->
  exists a w1, m w = Ok (a, w1) /\ k a w1 = Ok (b, w').
Proof.
  unfold bind. destruct (m w) as [[a w1]| |]; try discriminate.
  intros H. exists a, w1. split; [reflexivity | exact H].
Qed.

Lemma bind_step {A B : Type} (m : M A) (k : A -> M B) w a w1 :
  m w = Ok (a, w1) -> bind m k w = k a w1.
Proof. intros H. unfold bind. rewrite H. reflexivity. Qed.

Lemma same_objects_refl w : same_objects w w.
Proof. repeat split. Qed.

Lemma same_objects_trans w1 w2 w3 :
  same_objects w1 w2 -> same_objects w2 w3 -> same_objects w1 w3.
Proof.
  intros (A1 & A2 & A3) (B1 & B2 & B3). repeat split; congruence.
Qed.

Lemma same_objects_deref w w' c : same_objects w w' -> deref w' c = deref w c.
Proof. intros (A1 & A2 & _). destruct c; assumption. Qed.

Lemma Math_random_Ok w :
  exists r w', Math_random w = Ok (r, w') /\ same_objects w w'
               /\ (0 <= r)%Q /\ (r < 1)%Q.
Proof.
  eexists _, _. split; [reflexivity|]. split; [repeat split|].
  unfold unit_sample.
  assert (Hm : (0 <= Z.of_N (entropy w (drawn w) mod 2 ^ 53) < 2 ^ 53)%Z).
  { pose proof (N.mod_lt (entropy w (drawn w)) (2 ^ 53)) as Hlt.
    assert (Hne : (2 ^ 53)%N <> 0%N) by discriminate.
    specialize (Hlt Hne). split; [apply N2Z.is_nonneg|].
    change (2 ^ 53)%Z with (Z.of_N (2 ^ 53)). apply N2Z.inj_lt. exact Hlt. }
  split.
  - unfold Qle. simpl. lia.
  - unfold Qlt. simpl. lia.
Qed.

(** *** calculateDamage *)

Lemma calculateDamage_Some attacker defender mv w :
  exists r w', calculateDamage attacker defender (Some mv) w = Ok (r, w')
               /\ same_objects w w'.
Proof.
  unfold calculateDamage.
  destruct (_ =? 0).
  - eexists _, _. split; [reflexivity | apply same_objects_refl].
  - eexists _, _. split; [reflexivity | repeat split].
Qed.

Lemma calculateDamage_inv attacker defender mv w r w' :
  calculateDamage attacker defender mv w = Ok (r, w') ->
  same_objects w w' /\ exists m, mv = Some m.
Proof.
  destruct mv as [m|]; [|discriminate].
  intros H. destruct (calculateDamage_Some attacker defender m w) as (r0 & w0 & E & S).
  rewrite E in H. inversion H; subst. split; [exact S | eauto].
Qed.

Lemma calculateDamage_fuel attacker defender mv w :
  calculateDamage attacker defender mv w <> OutOfFuel.
Proof.
  destruct mv as [m|]; [|discriminate].
  destruct (calculateDamage_Some attacker defender m w) as (r0 & w0 & E & S).
  rewrite E. discriminate.
Qed.

Lemma stab_of_cases attacker mv :
  (In (move_type mv) (types attacker) /\ stab_of attacker mv = (3 # 2)%Q)
  \/ (~ In (move_type mv) (types attacker) /\ stab_of attacker mv = (1 # 1)%Q).
Proof.
  unfold stab_of.
  destruct (existsb _ _) eqn:E.
  - left. split; [|reflexivity].
    apply existsb_exists in E. destruct E as (t & Hin & Heq).
    apply String.eqb_eq in Heq. subst. exact Hin.
  - right. split; [|reflexivity].
    intros Hin.
    assert (Ht : existsb (fun t => String.eqb t (move_type mv)) (types attacker) = true).
    { apply existsb_exists. exists (move_type mv). split; [exact Hin|].
      apply String.eqb_refl. }
    congruence.
Qed.

(** *** simulateTurn *)

Lemma with_hp_id p : with_hp p (current_hp p) = p.
Proof. destruct p; reflexivity. Qed.

Lemma with_hp_twice p a b : with_hp (with_hp p a) b = with_hp p b.
Proof. reflexivity. Qed.

Lemma deref_set_same c h w : deref (set_current_hp c h w) c = with_hp (deref w c) h.
Proof. destruct c; reflexivity. Qed.

Lemma deref_set_other c c' h w :
  c <> c' -> deref (set_current_hp c h w) c' = deref w c'.
Proof. destruct c, c'; intros Hne; try reflexivity; congruence. Qed.

Lemma entropy_set c h w : entropy (set_current_hp c h w) = entropy w.
Proof. destruct c; reflexivity. Qed.

Lemma strike_inv striker target mv w e w' :
  strike striker target mv w = Ok (e, w') ->
  striker <> target ->
  ev_by e = striker
  /\ ev_remaining_hp e = Z.max 0 (hp_of w target - ev_damage e)
  /\ ev_fainted e = (ev_remaining_hp e <=? 0)
  /\ ev_attacker e = name (deref w striker)
  /\ ev_defender e = name (deref w target)
  /\ deref w' target = with_hp (deref w target) (ev_remaining_hp e)
  /\ deref w' striker = deref w striker
  /\ entropy w' = entropy w
  /\ exists m, mv = Some m.
Proof.
  intros H Hne. unfold strike, bind, read in H.
  destruct (calculateDamage (deref w striker) (deref w target) mv w)
    as [[r w1]| |] eqn:E; try discriminate.
  apply calculateDamage_inv in E. destruct E as [S Hm].
  unfold write_hp, ret in H. inversion H; subst; clear H. cbn.
  rewrite deref_set_same, (deref_set_other target striker) by congruence.
  rewrite entropy_set. unfold hp_of.
  rewrite !(same_objects_deref w w1) by exact S.
  destruct S as (_ & _ & S3).
  repeat split; auto.
Qed.

Lemma strike_Some striker target m w :
  exists e w', strike striker target (Some m) w = Ok (e, w').
Proof.
  unfold strike, bind, read.
  destruct (calculateDamage_Some (deref w striker) (deref w target) m w)
    as (r & w1 & E & _).
  rewrite E. eexists _, _. reflexivity.
Qed.

Lemma strike_fuel striker target mv w : strike striker target mv w <> OutOfFuel.
Proof.
  unfold strike, bind, read.
  pose proof (calculateDamage_fuel (deref w striker) (deref w target) mv w) as F.
  destruct (calculateDamage _ _ mv w) as [[r w1]| |]; try discriminate.
  congruence.
Qed.

Lemma same_combatants_refl w : same_combatants w w.
Proof.
  unfold same_combatants, hp1, hp2. rewrite !with_hp_id. repeat split.
Qed.

Lemma same_combatants_trans w1 w2 w3 :
  same_combatants w1 w2 -> same_combatants w2 w3 -> same_combatants w1 w3.
Proof.
  intros (A1 & A2 & A3) (B1 & B2 & B3). unfold same_combatants.
  rewrite B1 at 1. rewrite B2 at 1. rewrite A1, A2. rewrite !with_hp_twice.
  repeat split. congruence.
Qed.

Lemma same_objects_combatants w w' : same_objects w w' -> same_combatants w w'.
Proof.
  intros (A1 & A2 & A3). unfold same_combatants, hp1, hp2.
  rewrite A1 at 1. rewrite A2 at 1. rewrite A1, A2, !with_hp_id. repeat split. exact A3.
Qed.

Lemma same_combatants_of_deref w w' :
  (forall c, deref w' c = with_hp (deref w c) (hp_of w' c)) ->
  entropy w' = entropy w ->
  same_combatants w w'.
Proof.
  intros H He. repeat split; [apply (H P1) | apply (H P2) | exact He].
Qed.

Lemma simulateTurn_inv m1 m2 w evs w' :
  simulateTurn P1 P2 m1 m2 w = Ok (evs, w') ->
  0 < hp1 w -> 0 < hp2 w ->
  same_combatants w w' /\ turn_shape w w' evs.
Proof.
  intros H A1 A2.
  unfold simulateTurn, bind, read in H. cbn [deref] in H.
  pose proof (eq_refl (first_mover w)) as Hfm.
  unfold first_mover at 2 in Hfm.
  destruct (speed (pstats (pokemon2 w)) <=? speed (pstats (pokemon1 w))) eqn:Es.
  - (* pokemon1 is at least as fast *)
    assert (Hp : (0 <? current_hp (pokemon1 w)) = true) by (apply Z.ltb_lt; exact A1).
    cbn [deref] in H. rewrite Hp in H. cbv beta iota in H.
    destruct (strike P1 P2 m1 w) as [[e1 w1]| |] eqn:S1; try discriminate.
    apply strike_inv in S1; [|discriminate].
    destruct S1 as (B1 & R1 & _ & Na & Nd & T1 & K1 & N1 & _).
    assert (Op : opening w e1).
    { unfold opening. rewrite Hfm. cbn [opponent]. auto. }
    cbn [deref] in *. unfold ret in H.
    destruct (current_hp (pokemon2 w1) <=? 0) eqn:F1.
    + inversion H; subst evs w'; clear H.
      apply Z.leb_le in F1.
      assert (R0 : ev_remaining_hp e1 = 0).
      { rewrite T1 in F1. cbn in F1. lia. }
      split.
      * apply same_combatants_of_deref; [|exact N1].
        intros [|]; unfold hp_of; cbn [deref].
        -- rewrite K1, with_hp_id. reflexivity.
        -- rewrite T1. reflexivity.
      * apply first_knocks_out; rewrite ?Hfm; unfold hp_of; cbn [deref opponent].
        -- exact Op.
        -- exact R0.
        -- rewrite T1. reflexivity.
        -- rewrite K1. reflexivity.
    + apply Z.leb_gt in F1.
      assert (Hq : (0 <? current_hp (pokemon2 w1)) = true) by (apply Z.ltb_lt; exact F1).
      cbn [deref] in H. rewrite Hq in H. cbv beta iota in H.
      destruct (strike P2 P1 m2 w1) as [[e2 w2]| |] eqn:S2; try discriminate.
      apply strike_inv in S2; [|discriminate].
      destruct S2 as (B2 & R2 & _ & _ & _ & T2 & K2 & N2 & _).
      cbn [deref] in *. unfold ret in H.
      assert (P1' : 0 < ev_remaining_hp e1) by (rewrite T1 in F1; exact F1).
      assert (Hsame : same_combatants w w2).
      { apply same_combatants_of_deref; [|congruence].
        intros [|]; unfold hp_of; cbn [deref].
        - rewrite T2, K1. reflexivity.
        - rewrite K2, T1. reflexivity. }
      destruct (current_hp (pokemon1 w2) <=? 0) eqn:F2;
        inversion H; subst evs w'; clear H; (split; [exact Hsame|]).
      * apply Z.leb_le in F2.
        apply second_knocks_out; rewrite ?Hfm; unfold hp_of; cbn [deref opponent];
          auto; rewrite ?T2, ?K2, ?T1; try reflexivity.
        rewrite T2 in F2. cbn in F2. lia.
      * apply Z.leb_gt in F2.
        apply both_stand; rewrite ?Hfm; unfold hp_of; cbn [deref opponent];
          auto; rewrite ?T2, ?K2, ?T1; try reflexivity.
        rewrite T2 in F2. exact F2.
  - (* pokemon2 is strictly faster *)
    assert (Hp : (0 <? current_hp (pokemon2 w)) = true) by (apply Z.ltb_lt; exact A2).
    cbn [deref] in H. rewrite Hp in H. cbv beta iota in H.
    destruct (strike P2 P1 m2 w) as [[e1 w1]| |] eqn:S1; try discriminate.
    apply strike_inv in S1; [|discriminate].
    destruct S1 as (B1 & R1 & _ & Na & Nd & T1 & K1 & N1 & _).
    assert (Op : opening w e1).
    { unfold opening. rewrite Hfm. cbn [opponent]. auto. }
    cbn [deref] in *. unfold ret in H.
    destruct (current_hp (pokemon1 w1) <=? 0) eqn:F1.
    + inversion H; subst evs w'; clear H.
      apply Z.leb_le in F1.
      assert (R0 : ev_remaining_hp e1 = 0).
      { rewrite T1 in F1. cbn in F1. lia. }
      split.
      * apply same_combatants_of_deref; [|exact N1].
        intros [|]; unfold hp_of; cbn [deref].
        -- rewrite T1. reflexivity.
        -- rewrite K1, with_hp_id. reflexivity.
      * apply first_knocks_out; rewrite ?Hfm; unfold hp_of; cbn [deref opponent].
        -- exact Op.
        -- exact R0.
        -- rewrite T1. reflexivity.
        -- rewrite K1. reflexivity.
    + apply Z.leb_gt in F1.
      assert (Hq : (0 <? current_hp (pokemon1 w1)) = true) by (apply Z.ltb_lt; exact F1).
      cbn [deref] in H. rewrite Hq in H. cbv beta iota in H.
      destruct (strike P1 P2 m1 w1) as [[e2 w2]| |] eqn:S2; try discriminate.
      apply strike_inv in S2; [|discriminate].
      destruct S2 as (B2 & R2 & _ & _ & _ & T2 & K2 & N2 & _).
      cbn [deref] in *. unfold ret in H.
      assert (P1' : 0 < ev_remaining_hp e1) by (rewrite T1 in F1; exact F1).
      assert (Hsame : same_combatants w w2).
      { apply same_combatants_of_deref; [|congruence].
        intros [|]; unfold hp_of; cbn [deref].
        - rewrite K2, T1. reflexivity.
        - rewrite T2, K1. reflexivity. }
      destruct (current_hp (pokemon2 w2) <=? 0) eqn:F2;
        inversion H; subst evs w'; clear H; (split; [exact Hsame|]).
      * apply Z.leb_le in F2.
        apply second_knocks_out; rewrite ?Hfm; unfold hp_of; cbn [deref opponent];
          auto; rewrite ?T2, ?K2, ?T1; try reflexivity.
        rewrite T2 in F2. cbn in F2. lia.
      * apply Z.leb_gt in F2.
        apply both_stand; rewrite ?Hfm; unfold hp_of; cbn [deref opponent];
          auto; rewrite ?T2, ?K2, ?T1; try reflexivity.
        rewrite T2 in F2. exact F2.
Qed.

Lemma simulateTurn_Some m1 m2 w :
  exists evs w', simulateTurn P1 P2 (Some m1) (Some m2) w = Ok (evs, w').
Proof.
  unfold simulateTurn, bind, read, ret.
  destruct (speed (pstats (deref w P2)) <=? speed (pstats (deref w P1)));
    destruct (0 <? current_hp (deref w _)).
  - destruct (strike_Some P1 P2 m1 w) as (e1 & w1 & ->).
    destruct (current_hp (deref w1 P2) <=? 0); [eauto|].
    destruct (0 <? current_hp (deref w1 P2)); [|eauto].
    destruct (strike_Some P2 P1 m2 w1) as (e2 & w2 & ->).
    destruct (current_hp (deref w2 P1) <=? 0); eauto.
  - destruct (0 <? current_hp (deref w P2)); [|eauto].
    destruct (strike_Some P2 P1 m2 w) as (e2 & w2 & ->).
    destruct (current_hp (deref w2 P1) <=? 0); eauto.
  - destruct (strike_Some P2 P1 m2 w) as (e1 & w1 & ->).
    destruct (current_hp (deref w1 P1) <=? 0); [eauto|].
    destruct (0 <? current_hp (deref w1 P1)); [|eauto].
    destruct (strike_Some P1 P2 m1 w1) as (e2 & w2 & ->).
    destruct (current_hp (deref w2 P2) <=? 0); eauto.
  - destruct (0 <? current_hp (deref w P1)); [|eauto].
    destruct (strike_Some P1 P2 m1 w) as (e2 & w2 & ->).
    destruct (current_hp (deref w2 P2) <=? 0); eauto.
Qed.

Lemma simulateTurn_fuel m1 m2 w : simulateTurn P1 P2 m1 m2 w <> OutOfFuel.
Proof.
  unfold simulateTurn, bind, read, ret.
  repeat match goal with
  | |- context [strike ?a ?b ?m ?v] =>
      let F := fresh "F" in
      pose proof (strike_fuel a b m v) as F;
      destruct (strike a b m v) as [[? ?]| |]; try discriminate; try congruence;
      clear F
  | |- context [if ?b then _ else _] => destruct b
  end; discriminate.
Qed.

(** *** Move selection *)

Lemma floor_index (r : Q) (n : Z) :
  (0 <= r)%Q -> (r < 1)%Q -> 0 < n -> 0 <= Qfloor (r * inject_Z n)%Q < n.
Proof.
  intros R0 R1 Hn.
  assert (Hn' : (inject_Z 0 < inject_Z n)%Q) by (rewrite <- Zlt_Qlt; exact Hn).
  split.
  - assert (Hle : (inject_Z 0 <= r * inject_Z n)%Q).
    { apply Qmult_le_0_compat; [exact R0 | apply Qlt_le_weak; exact Hn']. }
    apply Qfloor_resp_le in Hle. rewrite Qfloor_Z in Hle. exact Hle.
  - rewrite Zlt_Qlt.
    apply Qle_lt_trans with (y := (r * inject_Z n)%Q); [apply Qfloor_le|].
    apply Qlt_le_trans with (y := (1 * inject_Z n)%Q).
    + apply Qmult_lt_compat_r; assumption.
    + rewrite Qmult_1_l. apply Qle_refl.
Qed.

Lemma select_move_Ok c w :
  exists mv w', select_move c w = Ok (mv, w') /\ same_objects w w'
                /\ (moves (deref w c) <> [] -> exists m, mv = Some m).
Proof.
  unfold select_move, bind, read.
  destruct (Math_random_Ok w) as (r & w1 & E & S & R0 & R1).
  rewrite E. unfold ret. eexists _, _. split; [reflexivity|]. split; [exact S|].
  intros Hne.
  set (n := Z.of_nat (length (moves (deref w c)))).
  assert (Hn : 0 < n).
  { unfold n. destruct (moves (deref w c)); [congruence | cbn [length]; lia]. }
  pose proof (floor_index r n R0 R1 Hn) as [I0 I1].
  assert (Hlt : (Qfloor (r * inject_Z n)%Q <? 0) = false) by (apply Z.ltb_ge; exact I0).
  rewrite Hlt.
  assert (Hi : (Z.to_nat (Qfloor (r * inject_Z n)%Q) < length (moves (deref w c)))%nat).
  { subst n. lia. }
  subst n. apply lookup_lt_is_Some_2 in Hi. destruct Hi as [m Hm]. exists m. exact Hm.
Qed.

(** *** Lists whose elements but the last satisfy a property *)

Section AllButLast.
Context {A : Type} (P : A -> Prop).

Lemma all_but_last_nil : all_but_last P [].
Proof. intros [|? ?] x post H; discriminate. Qed.

Lemma all_but_last_singleton x : all_but_last P [x].
Proof.
  intros [|a pre] y post H Hne.
  - inversion H; subst. congruence.
  - inversion H as [[Ha Hp]]. destruct pre; discriminate.
Qed.

Lemma all_but_last_cons x l : P x -> all_but_last P l -> all_but_last P (x :: l).
Proof.
  intros Hx Hl [|a pre] y post H Hne.
  - inversion H; subst. exact Hx.
  - inversion H; subst. eapply Hl; eauto.
Qed.

Lemma all_but_last_app l1 l2 :
  Forall P l1 -> all_but_last P l2 -> all_but_last P (l1 ++ l2).
Proof.
  induction 1 as [|x l1 Hx _ IH]; intros H2; [exact H2|].
  cbn. apply all_but_last_cons; auto.
Qed.

Lemma all_but_last_Forall l : Forall P l -> all_but_last P l.
Proof.
  intros H. rewrite <- (app_nil_r l). apply all_but_last_app; [exact H|].
  apply all_but_last_nil.
Qed.
End AllButLast.

Lemma first_mover_same w w' : same_combatants w w' -> first_mover w' = first_mover w.
Proof.
  intros (A1 & A2 & _). unfold first_mover. rewrite A1, A2. reflexivity.
Qed.

Lemma turn_shape_hp w w' evs :
  turn_shape w w' evs -> 0 < hp1 w -> 0 < hp2 w ->
  0 <= hp1 w' /\ 0 <= hp2 w' /\ (0 < hp1 w' \/ 0 < hp2 w').
Proof.
  unfold hp1, hp2.
  intros H A1 A2; inversion H; subst; clear H;
    destruct (first_mover w); unfold hp_of in *; cbn [deref opponent] in *; lia.
Qed.

Lemma turn_shape_attacks w w' evs :
  turn_shape w w' evs ->
  all_but_last stands (attacks_of_events evs)
  /\ (0 < hp1 w' -> 0 < hp2 w' -> Forall stands (attacks_of_events evs))
  /\ opened_by (first_mover w) (0, evs).
Proof.
  unfold hp1, hp2, opened_by.
  intros H; inversion H as [e1 msg Op|e1 e2 msg Op|e1 e2 Op]; subst; clear H;
    destruct Op as (Hby & _); cbn [attacks_of_events flat_map app snd].
  - split; [apply all_but_last_singleton|]. split.
    + intros B1 B2. destruct (first_mover w); unfold hp_of in *;
        cbn [deref opponent] in *; lia.
    + exists e1, [Message msg]. repeat split; auto.
  - split; [apply all_but_last_cons; [assumption | apply all_but_last_singleton]|].
    split.
    + intros B1 B2. destruct (first_mover w); unfold hp_of in *;
        cbn [deref opponent] in *; lia.
    + exists e1, [Attack e2; Message msg]. repeat split; auto.
      cbn. repeat constructor. assumption.
  - split; [apply all_but_last_cons; [assumption | apply all_but_last_singleton]|].
    split.
    + intros _ _. repeat constructor; assumption.
    + exists e1, [Attack e2]. repeat split; auto.
      cbn. repeat constructor. assumption.
Qed.

(** *** The battle loop *)

Lemma turns_of_log_entries ts : turns_of_log (map entry_of_turn ts) = ts.
Proof.
  induction ts as [|[k evs] ts IH]; [reflexivity|].
  cbn. f_equal. exact IH.
Qed.

Lemma turns_of_log_app l1 l2 :
  turns_of_log (l1 ++ l2) = turns_of_log l1 ++ turns_of_log l2.
Proof. apply flat_map_app. Qed.

Lemma loop_post_idle N ct w :
  Qle_bool (inject_Z ct) N && (0 <? current_hp (pokemon1 w))
    && (0 <? current_hp (pokemon2 w)) = false ->
  0 <= hp1 w -> 0 <= hp2 w ->
  loop_post N ct w ct w [].
Proof.
  intros G A1 A2. rewrite !andb_false_iff in G.
  constructor.
  - apply same_combatants_refl.
  - exact A1.
  - exact A2.
  - auto.
  - lia.
  - lia.
  - intros B1 B2. destruct G as [[G|G]|G].
    + apply Qnot_le_lt. intros Hle. apply Qle_bool_iff in Hle. congruence.
    + apply Z.ltb_ge in G. unfold hp1 in B1. lia.
    + apply Z.ltb_ge in G. unfold hp2 in B2. lia.
  - reflexivity.
  - rewrite Z.sub_diag. reflexivity.
  - apply all_but_last_nil.
  - intros _ _. constructor.
  - apply all_but_last_nil.
  - intros _ _. constructor.
  - constructor.
  - intros B0 B1 B2. exfalso.
    apply Qle_bool_iff in B0. unfold hp1 in B1. unfold hp2 in B2.
    apply Z.ltb_lt in B1, B2.
    destruct G as [[G|G]|G]; congruence.
  - constructor.
  - constructor.
Qed.

Lemma turn_shape_nonneg w w' evs :
  turn_shape w w' evs ->
  Forall (fun e => 0 <= ev_remaining_hp e) (attacks_of_events evs).
Proof.
  intros H; inversion H; subst; clear H; cbn; repeat constructor; lia.
Qed.

Lemma battle_loop_inv fuel : forall N ct log w ct' log' w',
  battle_loop fuel N ct log w = Ok ((ct', log'), w') ->
  0 <= hp1 w -> 0 <= hp2 w ->
  exists ts, log' = log ++ map entry_of_turn ts /\ loop_post N ct w ct' w' ts.
Proof.
  induction fuel as [|fuel IH]; intros N ct log w ct' log' w' H A1 A2.
  - (* no fuel: only the exit of the guard returns *)
    cbn [battle_loop] in H. unfold bind, read in H. cbn [deref] in H.
    destruct (Qle_bool (inject_Z ct) N && (0 <? current_hp (pokemon1 w))
              && (0 <? current_hp (pokemon2 w))) eqn:G; [discriminate|].
    unfold ret in H. inversion H; subst; clear H.
    exists []. split; [symmetry; apply app_nil_r|].
    apply loop_post_idle; assumption.
  - cbn [battle_loop] in H. unfold bind at 1 2, read in H. cbn [deref] in H.
    destruct (Qle_bool (inject_Z ct) N && (0 <? current_hp (pokemon1 w))
              && (0 <? current_hp (pokemon2 w))) eqn:G.
    + (* one more turn *)
      rewrite !andb_true_iff in G. destruct G as [[G0 G1] G2].
      apply Qle_bool_iff in G0. apply Z.ltb_lt in G1, G2.
      apply bind_Ok in H. destruct H as (m1 & w1 & E1 & H).
      apply bind_Ok in H. destruct H as (m2 & w2 & E2 & H).
      apply bind_Ok in H. destruct H as (evs & w3 & E3 & H).
      destruct (select_move_Ok P1 w) as (m1' & w1' & E1' & S1 & _).
      rewrite E1 in E1'. inversion E1'; subst m1' w1'; clear E1'.
      destruct (select_move_Ok P2 w1) as (m2' & w2' & E2' & S2 & _).
      rewrite E2 in E2'. inversion E2'; subst m2' w2'; clear E2'.
      pose proof (same_objects_trans _ _ _ S1 S2) as S12.
      pose proof (same_objects_combatants _ _ S12) as C12.
      assert (B1 : 0 < hp1 w2) by (unfold hp1; destruct S12 as (-> & _); exact G1).
      assert (B2 : 0 < hp2 w2) by (unfold hp2; destruct S12 as (_ & -> & _); exact G2).
      apply simulateTurn_inv in E3; [|exact B1|exact B2].
      destruct E3 as [C23 Shape].
      pose proof (same_combatants_trans _ _ _ C12 C23) as C13.
      destruct (turn_shape_hp _ _ _ Shape B1 B2) as (D1 & D2 & D3).
      destruct (turn_shape_attacks _ _ _ Shape) as (T1 & T2 & T3).
      rewrite (first_mover_same _ _ C12) in T3.
      unfold bind at 1 2, read in H. cbn [deref] in H.
      destruct ((current_hp (pokemon1 w3) <=? 0) || (current_hp (pokemon2 w3) <=? 0)) eqn:F.
      * (* break *)
        unfold ret in H. inversion H; subst; clear H.
        exists [(ct, evs)]. split; [reflexivity|].
        apply orb_true_iff in F.
        assert (Hdown : ~ (0 < hp1 w' /\ 0 < hp2 w')).
        { unfold hp1, hp2. destruct F as [F|F]; apply Z.leb_le in F; lia. }
        constructor.
        -- exact C13.
        -- exact D1.
        -- exact D2.
        -- intros _. exact D3.
        -- lia.
        -- intros _. replace (ct + 1 - 1) with ct by lia. exact G0.
        -- intros X Y. exfalso. apply Hdown. split; assumption.
        -- intros X. exfalso. apply X. split; assumption.
        -- replace (ct + 1 - ct) with 1 by lia. reflexivity.
        -- unfold attacks_of_turns. cbn [flat_map snd]. rewrite app_nil_r. exact T1.
        -- intros X Y. exfalso. apply Hdown. split; assumption.
        -- apply all_but_last_singleton.
        -- intros X Y. exfalso. apply Hdown. split; assumption.
        -- constructor; [exact T3 | constructor].
        -- intros _ _ _. lia.
        -- unfold attacks_of_turns. cbn [flat_map snd]. rewrite app_nil_r.
           eapply turn_shape_nonneg; eassumption.
        -- constructor; [exact T1 | constructor].
      * (* next iteration *)
        apply orb_false_iff in F. destruct F as [F1 F2].
        apply Z.leb_gt in F1, F2.
        apply IH in H; [|exact D1|exact D2].
        destruct H as (ts & Hlog & P).
        exists ((ct, evs) :: ts). split.
        { rewrite Hlog, <- app_assoc. reflexivity. }
        destruct P.
        constructor.
        -- eapply same_combatants_trans; eassumption.
        -- assumption.
        -- assumption.
        -- intros _. apply lp_one_stands0. left. exact F1.
        -- lia.
        -- intros _. destruct (Z.eq_dec ct' (ct + 1)) as [->|Hne].
           ++ replace (ct + 1 - 1) with ct by lia. exact G0.
           ++ apply lp_cap0. lia.
        -- assumption.
        -- intros X. exfalso. apply X. split; assumption.
        -- cbn [map fst]. rewrite lp_numbers0.
           rewrite (seqZ_cons ct (ct' - ct)) by lia.
           f_equal. f_equal; lia.
        -- unfold attacks_of_turns. cbn [flat_map snd].
           apply all_but_last_app; [apply T2; assumption | exact lp_attacks0].
        -- intros X Y. unfold attacks_of_turns. cbn [flat_map snd].
           apply Forall_app. split; [apply T2; assumption | apply lp_attacks_quiet0; assumption].
        -- apply all_but_last_cons; [apply T2; assumption | exact lp_turns0].
        -- intros X Y. constructor; [apply T2; assumption | apply lp_turns_quiet0; assumption].
        -- constructor; [exact T3|].
           rewrite (first_mover_same _ _ C13) in lp_order0. exact lp_order0.
        -- intros _ _ _. lia.
        -- unfold attacks_of_turns. cbn [flat_map snd].
           apply Forall_app. split; [|exact lp_nonneg0].
           eapply turn_shape_nonneg; eassumption.
        -- constructor; [exact T1 | exact lp_each_turn0].
    + (* the guard fails *)
      unfold ret in H. inversion H; subst; clear H.
      exists []. split; [symmetry; apply app_nil_r|].
      apply loop_post_idle; assumption.
Qed.

Lemma floor_ge (N : Q) (k : Z) : (inject_Z k <= N)%Q -> k <= Qfloor N.
Proof.
  intros H. apply Qfloor_resp_le in H. rewrite Qfloor_Z in H. exact H.
Qed.

Lemma floor_lt (N : Q) (k : Z) : (N < inject_Z k)%Q -> Qfloor N < k.
Proof.
  intros H. rewrite Zlt_Qlt.
  apply Qle_lt_trans with (y := N); [apply Qfloor_le | exact H].
Qed.

(** With fuel for every admissible value of the turn counter the loop never
    runs dry, and it throws only when a combatant has no move to pick. *)
Lemma battle_loop_runs fuel : forall N ct log w,
  Qfloor N + 1 - ct <= Z.of_nat fuel ->
  match battle_loop fuel N ct log w with
  | Ok _ => True
  | Throw _ => moves (pokemon1 w) = [] \/ moves (pokemon2 w) = []
  | OutOfFuel => False
  end.
Proof.
  induction fuel as [|fuel IH]; intros N ct log w Hfuel.
  - cbn [battle_loop]. unfold bind, read. cbn [deref].
    destruct (Qle_bool (inject_Z ct) N && (0 <? current_hp (pokemon1 w))
              && (0 <? current_hp (pokemon2 w))) eqn:G; [|exact I].
    rewrite !andb_true_iff in G. destruct G as [[G0 _] _].
    apply Qle_bool_iff, floor_ge in G0. cbn in Hfuel. lia.
  - cbn [battle_loop]. unfold bind at 1 2, read. cbn [deref].
    destruct (Qle_bool (inject_Z ct) N && (0 <? current_hp (pokemon1 w))
              && (0 <? current_hp (pokemon2 w))) eqn:G; [|exact I].
    destruct (select_move_Ok P1 w) as (m1 & w1 & E1 & S1 & M1).
    rewrite (bind_step _ _ _ _ _ E1).
    destruct (select_move_Ok P2 w1) as (m2 & w2 & E2 & S2 & M2).
    rewrite (bind_step _ _ _ _ _ E2).
    pose proof (same_objects_trans _ _ _ S1 S2) as S12.
    unfold bind at 1.
    destruct (simulateTurn P1 P2 m1 m2 w2) as [[evs w3]| |] eqn:E3.
    + unfold bind, read. cbn [deref].
      destruct ((current_hp (pokemon1 w3) <=? 0) || (current_hp (pokemon2 w3) <=? 0));
        [exact I|].
      specialize (IH N (ct + 1) (log ++ [turn ct evs]) w3).
      assert (Hf : Qfloor N + 1 - (ct + 1) <= Z.of_nat fuel) by lia.
      specialize (IH Hf).
      rewrite !andb_true_iff in G. destruct G as [[_ G1] G2].
      apply Z.ltb_lt in G1, G2.
      apply simulateTurn_inv in E3.
      * destruct E3 as [(C1 & C2 & _) _].
        destruct S12 as (O1 & O2 & _).
        rewrite C1, C2, O1, O2 in IH. exact IH.
      * unfold hp1. destruct S12 as (-> & _). exact G1.
      * unfold hp2. destruct S12 as (_ & -> & _). exact G2.
    + destruct (list_eq_nil_dec (moves (pokemon1 w))) as [Hn1|Hn1]; [left; exact Hn1|].
      destruct (list_eq_nil_dec (moves (pokemon2 w))) as [Hn2|Hn2]; [right; exact Hn2|].
      exfalso.
      destruct (M1 Hn1) as [a1 ->].
      assert (Hn2' : moves (deref w1 P2) <> []).
      { rewrite (same_objects_deref _ _ P2 S1). exact Hn2. }
      destruct (M2 Hn2') as [a2 ->].
      destruct (simulateTurn_Some a1 a2 w2) as (evs & w3 & E). congruence.
    + exfalso. eapply simulateTurn_fuel. exact E3.
Qed.

(** *** The whole battle *)

Lemma battle_inv turns w r w' :
  battle turns w = Ok (r, w') ->
  0 <= hp1 w -> 0 <= hp2 w ->
  exists ct' ts,
    loop_post (max_turns turns) 1 w ct' w' ts
    /\ turns_of_log (battle_log r) = ts
    /\ turns_run r = ct' - 1
    /\ final1 r = pokemon1 w'
    /\ final2 r = pokemon2 w'
    /\ decided r = decide_winner (hp1 w') (hp2 w')
    /\ winner r = winner_value (decided r) (pokemon1 w') (pokemon2 w').
Proof.
  intros H A1 A2. unfold battle in H.
  unfold bind at 1 2, read in H. cbn [deref] in H.
  apply bind_Ok in H. destruct H as ([ct' log'] & w1 & E & H).
  apply battle_loop_inv in E; [|exact A1|exact A2].
  destruct E as (ts & Hlog & P).
  unfold bind, read, ret in H. cbn [deref fst snd] in H.
  inversion H; subst r w'; clear H.
  cbn [battle_log turns_run final1 final2 decided winner].
  exists ct', ts. split; [exact P|].
  split; [|repeat split].
  rewrite Hlog, !turns_of_log_app, turns_of_log_entries. cbn. apply app_nil_r.
Qed.

Lemma battle_returns turns w :
  moves (pokemon1 w) <> [] -> moves (pokemon2 w) <> [] ->
  exists r w', battle turns w = Ok (r, w').
Proof.
  intros M1 M2. unfold battle. unfold bind at 1 2, read. cbn [deref].
  pose proof (battle_loop_runs (Z.to_nat (Qfloor (max_turns turns)))
                (max_turns turns) 1
                [battle_start (name (pokemon1 w)) (level (pokemon1 w))
                   (current_hp (pokemon1 w)) (types (pokemon1 w))
                   (name (pokemon2 w)) (level (pokemon2 w))
                   (current_hp (pokemon2 w)) (types (pokemon2 w))] w) as R.
  assert (Hf : Qfloor (max_turns turns) + 1 - 1
               <= Z.of_nat (Z.to_nat (Qfloor (max_turns turns)))) by lia.
  specialize (R Hf).
  unfold bind at 1.
  destruct (battle_loop _ _ _ _ w) as [[res w1]| |].
  - unfold bind, read, ret. eexists _, _. reflexivity.
  - exfalso. destruct R as [R|R]; contradiction.
  - contradiction.
Qed.

Lemma battle_fuel turns w : battle turns w <> OutOfFuel.
Proof.
  unfold battle. unfold bind at 1 2, read. cbn [deref].
  pose proof (battle_loop_runs (Z.to_nat (Qfloor (max_turns turns)))
                (max_turns turns) 1
                [battle_start (name (pokemon1 w)) (level (pokemon1 w))
                   (current_hp (pokemon1 w)) (types (pokemon1 w))
                   (name (pokemon2 w)) (level (pokemon2 w))
                   (current_hp (pokemon2 w)) (types (pokemon2 w))] w) as R.
  assert (Hf : Qfloor (max_turns turns) + 1 - 1
               <= Z.of_nat (Z.to_nat (Qfloor (max_turns turns)))) by lia.
  specialize (R Hf).
  unfold bind at 1.
  destruct (battle_loop _ _ _ _ w) as [[res w1]| |].
  - unfold bind, read, ret. discriminate.
  - discriminate.
  - contradiction.
Qed.

Example fetch_rattata : fetchPokemonForBattle sample_api "rattata" = Ok rattata.
Proof. vm_compute. reflexivity. Qed.

Example fetch_gastly : fetchPokemonForBattle sample_api "gastly" = Ok gastly.
Proof. vm_compute. reflexivity. Qed.

(** *** Claims about the damage calculator *)

(** Every entry of the chart is one of 0, 0.5, 1, 2. *)
Lemma chart_values : chart_values_ok = true.
Proof. vm_compute. reflexivity. Qed.

Lemma effectiveness_fold moveType l : forall acc,
  (fold_left (effectiveness_step moveType) l acc
   == acc * fold_right (fun t p => guarded_factor moveType t * p) (1 # 1) l)%Q.
Proof.
  induction l as [|t l IH]; intros acc; cbn [fold_left fold_right].
  - ring.
  - rewrite IH. unfold effectiveness_step, guarded_factor, chart_factor.
    destruct (truthy (chart_entry moveType t)).
    + destruct (chart_entry moveType t); ring.
    + ring.
Qed.

(** The multiplier of the code is the product of the guarded factors. *)
Lemma type_effectiveness_guarded defender mv :
  (type_effectiveness defender mv
   == fold_right (fun t p => guarded_factor (move_type mv) t * p) (1 # 1)
        (types defender))%Q.
Proof.
  unfold type_effectiveness. rewrite effectiveness_fold. ring.
Qed.

(** It is the product of the specification whenever no chart entry met is 0. *)
Lemma type_effectiveness_without_immunity defender mv :
  Forall (fun t => ~ (chart_factor (move_type mv) t == 0)%Q) (types defender) ->
  (type_effectiveness defender mv
   == chart_product (move_type mv) (types defender))%Q.
Proof.
  intros H. rewrite type_effectiveness_guarded. unfold chart_product.
  induction H as [|t l Ht _ IH]; cbn [fold_right]; [reflexivity|].
  rewrite IH.
  assert (E : (guarded_factor (move_type mv) t == chart_factor (move_type mv) t)%Q).
  { unfold guarded_factor, chart_factor in *. unfold truthy.
    destruct (chart_entry (move_type mv) t) as [e|]; [|reflexivity].
    destruct (Qeq_bool e 0) eqn:Z0; [|reflexivity].
    apply Qeq_bool_iff in Z0. contradiction. }
  rewrite E. reflexivity.
Qed.

(** The multiplier reported for a move with power is [type_effectiveness]. *)
Lemma calculateDamage_effectiveness attacker defender mv pw w :
  power mv = Some pw -> pw <> 0 ->
  exists r w',
    calculateDamage attacker defender (Some mv) w = Ok (r, w')
    /\ effectiveness r = type_effectiveness defender mv.
Proof.
  intros Hp Hpos. unfold calculateDamage. rewrite Hp.
  assert (Hz : (pw =? 0) = false) by (apply Z.eqb_neq; exact Hpos).
  rewrite Hz. eexists _, _. split; reflexivity.
Qed.

(** C1 (code evaluated at the failing input).  The chart holds 0 for a ghost
    move against a normal-type defender, so the product the claim describes
    is 0; [calculateDamage] nevertheless reports the multiplier 1 for Gastly's
    Lick against Rattata, whatever the random draws, because the guard of
    line 67 treats the entry 0 as absent. *)
Theorem immunity_entry_is_skipped :
  chart_entry "ghost" "normal" = Some (0 # 1)%Q
  /\ (chart_product (move_type lick) (types rattata) == 0)%Q
  /\ forall w, exists r w',
       calculateDamage gastly rattata (Some lick) w = Ok (r, w')
       /\ effectiveness r = (1 # 1)%Q
       /\ ~ (effectiveness r == chart_product (move_type lick) (types rattata))%Q.
Proof.
  split; [reflexivity|]. split; [reflexivity|].
  intros w.
  destruct (calculateDamage_effectiveness gastly rattata lick 30 w)
    as (r & w' & E & Heff); [reflexivity | discriminate |].
  exists r, w'. split; [exact E|]. rewrite Heff.
  split; [reflexivity|]. vm_compute. discriminate.
Qed.

(** C6.  For a move of positive power [calculateDamage] returns, and the
    damage it returns is the base damage of line 57 multiplied by a factor
    [s] and floored, then taken through the later multipliers with the type
    effectiveness of the move, the random roll and the critical hit that
    the two draws of the call give; [s] is 1.5 exactly when the attacker's
    type list contains the move's type and 1 exactly when it does not.  The
    roll is one of 0 to 15, so that the random factor lies between 0.85 and
    1; the multiplier and the critical flag returned are the ones used. *)
Theorem stab_iff_type_matches attacker defender mv pw w :
  power mv = Some pw -> 0 < pw ->
  exists s r w',
    calculateDamage attacker defender (Some mv) w = Ok (r, w')
    /\ (s = (3 # 2)%Q <-> In (move_type mv) (types attacker))
    /\ (s = (1 # 1)%Q <-> ~ In (move_type mv) (types attacker))
    /\ damage r
       = later_multipliers
           (Qfloor (inject_Z (base_damage attacker defender mv pw) * s)%Q)
           (type_effectiveness defender mv) (random_roll w) (critical_draw w)
    /\ effectiveness r = type_effectiveness defender mv
    /\ isCritical r = critical_draw w
    /\ 0 <= random_roll w <= 15.
Proof.
  intros Hp Hpos.
  exists (stab_of attacker mv).
  unfold calculateDamage. rewrite Hp.
  assert (Hz : (pw =? 0) = false) by (apply Z.eqb_neq; lia).
  rewrite Hz.
  eexists _, _. split; [reflexivity|].
  split; [|split; [|split; [reflexivity|split; [reflexivity|split; [reflexivity|]]]]].
  - destruct (stab_of_cases attacker mv) as [[Hin ->]|[Hin ->]]; split;
      intros X; try assumption; try reflexivity; try discriminate; contradiction.
  - destruct (stab_of_cases attacker mv) as [[Hin ->]|[Hin ->]]; split;
      intros X; try assumption; try reflexivity; try discriminate; contradiction.
  - destruct (Math_random_Ok w) as (r1 & w1 & E1 & _ & R0 & R1).
    unfold Math_random in E1. injection E1 as <- _.
    unfold random_roll.
    pose proof (floor_index _ 16 R0 R1) as F.
    change (inject_Z 16) with 16%Q in F. lia.
Qed.

Lemma stab_iff_type_matches_witness :
  exists s r w',
    calculateDamage rattata gastly (Some tackle) sample_world = Ok (r, w')
    /\ (s = (3 # 2)%Q <-> In (move_type tackle) (types rattata))
    /\ (s = (1 # 1)%Q <-> ~ In (move_type tackle) (types rattata))
    /\ damage r
       = later_multipliers
           (Qfloor (inject_Z (base_damage rattata gastly tackle 40) * s)%Q)
           (type_effectiveness gastly tackle) (random_roll sample_world)
           (critical_draw sample_world)
    /\ effectiveness r = type_effectiveness gastly tackle
    /\ isCritical r = critical_draw sample_world
    /\ 0 <= random_roll sample_world <= 15.
Proof.
  apply (stab_iff_type_matches rattata gastly tackle 40 sample_world).
  - reflexivity.
  - lia.
Defined.

(** The same attack with and without the attacker's type matching the
    move: base damage 28, roll 0, no critical hit; 28 * 1.5 = 42 and
    floor (42 * 0.85) = 35 with the bonus, floor (28 * 0.85) = 23 without. *)
Example stab_on_the_sample :
  match calculateDamage rattata gastly (Some tackle) sample_world,
        calculateDamage (with_types rattata ["water"]) gastly (Some tackle) sample_world
  with
  | Ok (with_bonus, _), Ok (without, _) =>
      base_damage rattata gastly tackle 40 = 28
      /\ random_roll sample_world = 0 /\ critical_draw sample_world = false
      /\ damage with_bonus = 35 /\ damage without = 23
  | _, _ => False
  end.
Proof. vm_compute. repeat split. Qed.

(** *** Claims about the turn and the battle *)

Lemma turn_shape_opening w w' evs :
  turn_shape w w' evs ->
  exists e rest, evs = Attack e :: rest /\ opening w e
    /\ Forall (fun e' => ev_by e' = opponent (first_mover w)) (attacks_of_events rest).
Proof.
  intros H; inversion H; subst; clear H; eexists _, _;
    (split; [reflexivity|]); (split; [assumption|]); cbn; repeat constructor;
    assumption.
Qed.

(** C7.  In a turn that both combatants enter standing, the first entry of
    the turn is an attack, made by pokemon1 when its speed is strictly higher
    or equal, by pokemon2 when pokemon2's speed is strictly higher; it names
    the mover as attacker, it hits the other combatant, and every later
    attack of the turn is the other combatant's. *)
Theorem faster_combatant_attacks_first m1 m2 w :
  0 < hp1 w -> 0 < hp2 w ->
  exists evs w' e rest,
    simulateTurn P1 P2 (Some m1) (Some m2) w = Ok (evs, w')
    /\ evs = Attack e :: rest
    /\ (speed (pstats (pokemon2 w)) < speed (pstats (pokemon1 w)) -> ev_by e = P1)
    /\ (speed (pstats (pokemon1 w)) < speed (pstats (pokemon2 w)) -> ev_by e = P2)
    /\ (speed (pstats (pokemon1 w)) = speed (pstats (pokemon2 w)) -> ev_by e = P1)
    /\ ev_attacker e = name (deref w (ev_by e))
    /\ ev_defender e = name (deref w (opponent (ev_by e)))
    /\ ev_remaining_hp e = Z.max 0 (hp_of w (opponent (ev_by e)) - ev_damage e)
    /\ Forall (fun e' => ev_by e' = opponent (ev_by e)) (attacks_of_events rest).
Proof.
  intros A1 A2.
  destruct (simulateTurn_Some m1 m2 w) as (evs & w' & E).
  destruct (simulateTurn_inv _ _ _ _ _ E A1 A2) as [_ Shape].
  destruct (turn_shape_opening _ _ _ Shape) as (e & rest & -> & (B & Na & Nd & R) & F).
  exists (Attack e :: rest), w', e, rest.
  rewrite B. repeat split; try assumption;
    unfold first_mover; intros Hs;
    destruct (Z.leb_spec (speed (pstats (pokemon2 w))) (speed (pstats (pokemon1 w))));
    try reflexivity; lia.
Qed.

Lemma faster_combatant_attacks_first_witness :
  exists evs w' e rest,
    simulateTurn P1 P2 (Some tackle) (Some lick) sample_world = Ok (evs, w')
    /\ evs = Attack e :: rest
    /\ (speed (pstats (pokemon2 sample_world)) < speed (pstats (pokemon1 sample_world))
        -> ev_by e = P1)
    /\ (speed (pstats (pokemon1 sample_world)) < speed (pstats (pokemon2 sample_world))
        -> ev_by e = P2)
    /\ (speed (pstats (pokemon1 sample_world)) = speed (pstats (pokemon2 sample_world))
        -> ev_by e = P1)
    /\ ev_attacker e = name (deref sample_world (ev_by e))
    /\ ev_defender e = name (deref sample_world (opponent (ev_by e)))
    /\ ev_remaining_hp e
       = Z.max 0 (hp_of sample_world (opponent (ev_by e)) - ev_damage e)
    /\ Forall (fun e' => ev_by e' = opponent (ev_by e)) (attacks_of_events rest).
Proof.
  apply (faster_combatant_attacks_first tackle lick sample_world).
  - unfold hp1. cbn. lia.
  - unfold hp2. cbn. lia.
Defined.

(** The same order holds in every turn a battle logs. *)
Lemma every_turn_opened_by_faster turns w r w' :
  battle turns w = Ok (r, w') ->
  0 <= hp1 w -> 0 <= hp2 w ->
  Forall (opened_by (first_mover w)) (turns_of_log (battle_log r)).
Proof.
  intros H A1 A2.
  destruct (battle_inv _ _ _ _ H A1 A2) as (ct' & ts & P & Hts & _).
  rewrite Hts. apply (lp_order _ _ _ _ _ _ P).
Qed.

Lemma decide_winner_spec h1 h2 :
  0 <= h1 -> 0 <= h2 ->
  (h2 < h1 -> decide_winner h1 h2 = Winner P1)
  /\ (h1 < h2 -> decide_winner h1 h2 = Winner P2)
  /\ (decide_winner h1 h2 = Draw <-> h1 = h2 \/ (h1 <= 0 /\ h2 <= 0)).
Proof.
  intros A1 A2. unfold decide_winner.
  destruct (Z.leb_spec h1 0), (Z.leb_spec h2 0), (Z.ltb_spec h2 h1),
    (Z.ltb_spec h1 h2); cbn [andb];
    (split; [|split; [|split]]); intros; try reflexivity; try discriminate;
    try lia; auto.
Qed.



Lemma all_but_last_split {A : Type} (P : A -> Prop) (l pre post : list A) (x : A) :
  all_but_last P l -> l = pre ++ x :: post -> ~ P x -> post = [].
Proof.
  intros H E Hx. destruct post as [|y post]; [reflexivity|].
  exfalso. apply Hx. apply (H pre x (y :: post) E). discriminate.
Qed.

Lemma map_fst_nil {A B : Type} (l : list (A * B)) : map fst l = [] -> l = [].
Proof. destruct l; [reflexivity | discriminate]. Qed.

(** C4.  In the sequence of all attacks of a battle, in the order they are
    made, an attack that brings its target to zero hit points is the last
    one: no attack follows it, in the same turn or in a later one, and so
    none by the combatant that was hit.  A combatant that enters the battle
    at zero makes no attack at all. *)
Theorem fainted_combatant_never_attacks turns w :
  0 <= hp1 w -> 0 <= hp2 w ->
  (forall r w', battle turns w = Ok (r, w') ->
     (forall pre e post,
        attacks_of_log (battle_log r) = pre ++ e :: post ->
        ev_remaining_hp e <= 0 ->
        post = [] /\ Forall (fun e' => ev_by e' <> opponent (ev_by e)) post)
     /\ (forall c, hp_of w c <= 0 -> attacks_of_log (battle_log r) = []))
  /\ (moves (pokemon1 w) <> [] -> moves (pokemon2 w) <> [] ->
      exists r w', battle turns w = Ok (r, w')).
Proof.
  intros A1 A2. split; [|apply battle_returns].
  intros r w' H.
  destruct (battle_inv _ _ _ _ H A1 A2) as (ct' & ts & P & Hts & _).
  unfold attacks_of_log. rewrite Hts. split.
  - intros pre e post E Hz.
    assert (Hp : post = []).
    { apply (all_but_last_split stands _ pre post e (lp_attacks _ _ _ _ _ _ P) E).
      unfold stands. lia. }
    subst post. split; [reflexivity | constructor].
  - intros c Hc.
    assert (Hidle : ct' = 1).
    { apply (lp_idle _ _ _ _ _ _ P). unfold hp_of, hp1, hp2 in *.
      destruct c; cbn [deref] in Hc; lia. }
    pose proof (lp_numbers _ _ _ _ _ _ P) as Hn.
    rewrite Hidle in Hn. cbn in Hn. apply map_fst_nil in Hn. rewrite Hn. reflexivity.
Qed.

Lemma fainted_combatant_never_attacks_witness :
  (forall r w', battle None sample_world = Ok (r, w') ->
     (forall pre e post,
        attacks_of_log (battle_log r) = pre ++ e :: post ->
        ev_remaining_hp e <= 0 ->
        post = [] /\ Forall (fun e' => ev_by e' <> opponent (ev_by e)) post)
     /\ (forall c, hp_of sample_world c <= 0 -> attacks_of_log (battle_log r) = []))
  /\ (moves (pokemon1 sample_world) <> [] -> moves (pokemon2 sample_world) <> [] ->
      exists r w', battle None sample_world = Ok (r, w')).
Proof.
  apply (fainted_combatant_never_attacks None sample_world).
  - unfold hp1. cbn. lia.
  - unfold hp2. cbn. lia.
Defined.

(** C5.  A battle between combatants that both have a move ends; its turns
    are numbered 1, 2, ... up to the number of turns simulated, which never
    exceeds the turn cap; when both combatants still stand at the end the cap
    was used up; and a turn in which an attack brought a combatant to zero
    is the last turn of the log. *)
Theorem battle_stops_at_cap_or_faint turns w :
  0 <= hp1 w -> 0 <= hp2 w ->
  moves (pokemon1 w) <> [] -> moves (pokemon2 w) <> [] ->
  exists r w',
    battle turns w = Ok (r, w')
    /\ map fst (turns_of_log (battle_log r)) = seqZ 1 (turns_run r)
    /\ 0 <= turns_run r <= Z.max 0 (Qfloor (max_turns turns))
    /\ (0 < turns_run r -> (inject_Z (turns_run r) <= max_turns turns)%Q)
    /\ (0 < current_hp (final1 r) -> 0 < current_hp (final2 r) ->
        turns_run r = Z.max 0 (Qfloor (max_turns turns)))
    /\ (forall pre t post,
          turns_of_log (battle_log r) = pre ++ t :: post ->
          Exists (fun e => ev_remaining_hp e <= 0) (attacks_of_events (snd t)) ->
          post = []).
Proof.
  intros A1 A2 M1 M2.
  destruct (battle_returns turns w M1 M2) as (r & w' & H).
  exists r, w'. split; [exact H|].
  destruct (battle_inv _ _ _ _ H A1 A2) as (ct' & ts & P & Hts & Hrun & F1 & F2 & _).
  rewrite Hts, Hrun, F1, F2. fold (hp1 w') (hp2 w').
  pose proof (lp_count _ _ _ _ _ _ P) as Hc.
  assert (Hcap : 0 < ct' - 1 -> ct' - 1 <= Qfloor (max_turns turns)).
  { intros Hpos. apply floor_ge. apply (lp_cap _ _ _ _ _ _ P). lia. }
  split; [|split; [|split; [|split]]].
  - rewrite (lp_numbers _ _ _ _ _ _ P). reflexivity.
  - lia.
  - intros Hpos. apply (lp_cap _ _ _ _ _ _ P). lia.
  - intros B1 B2.
    pose proof (lp_exit _ _ _ _ _ _ P B1 B2) as Hx. apply floor_lt in Hx. lia.
  - intros pre t post E Hex.
    apply (all_but_last_split quiet_turn _ pre post t (lp_turns _ _ _ _ _ _ P) E).
    unfold quiet_turn, stands. intros Hq.
    apply Exists_exists in Hex. destruct Hex as (e & Hin & Hz).
    rewrite Forall_forall in Hq. specialize (Hq e).
    specialize (Hq Hin). lia.
Qed.

Lemma battle_stops_at_cap_or_faint_witness :
  exists r w',
    battle (Some (3 # 1)%Q) sample_world = Ok (r, w')
    /\ map fst (turns_of_log (battle_log r)) = seqZ 1 (turns_run r)
    /\ 0 <= turns_run r <= Z.max 0 (Qfloor (max_turns (Some (3 # 1)%Q)))
    /\ (0 < turns_run r -> (inject_Z (turns_run r) <= max_turns (Some (3 # 1)%Q))%Q)
    /\ (0 < current_hp (final1 r) -> 0 < current_hp (final2 r) ->
        turns_run r = Z.max 0 (Qfloor (max_turns (Some (3 # 1)%Q))))
    /\ (forall pre t post,
          turns_of_log (battle_log r) = pre ++ t :: post ->
          Exists (fun e => ev_remaining_hp e <= 0) (attacks_of_events (snd t)) ->
          post = []).
Proof.
  apply (battle_stops_at_cap_or_faint (Some (3 # 1)%Q) sample_world).
  - unfold hp1. cbn. lia.
  - unfold hp2. cbn. lia.
  - cbn. discriminate.
  - cbn. discriminate.
Defined.

(** C9.  When the turns argument is omitted or is 0 the cap is 10, and a
    battle between two standing combatants then simulates at least one turn
    and at most ten. *)
Theorem zero_turns_defaults_to_ten turns w :
  turns = None \/ (exists t, turns = Some t /\ (t == 0)%Q) ->
  0 < hp1 w -> 0 < hp2 w ->
  max_turns turns = (10 # 1)%Q
  /\ (forall r w', battle turns w = Ok (r, w') -> 1 <= turns_run r <= 10)
  /\ (moves (pokemon1 w) <> [] -> moves (pokemon2 w) <> [] ->
      exists r w', battle turns w = Ok (r, w')).
Proof.
  intros Ht A1 A2.
  assert (Hmax : max_turns turns = (10 # 1)%Q).
  { destruct Ht as [->|(t & -> & Hz)]; [reflexivity|].
    unfold max_turns. apply Qeq_bool_iff in Hz. rewrite Hz. reflexivity. }
  split; [exact Hmax|]. split; [|apply battle_returns].
  intros r w' H.
  assert (B1 : 0 <= hp1 w) by lia. assert (B2 : 0 <= hp2 w) by lia.
  destruct (battle_inv _ _ _ _ H B1 B2) as (ct' & ts & P & _ & Hrun & _).
  rewrite Hmax in P. rewrite Hrun.
  assert (Hgo : 1 < ct').
  { apply (lp_progress _ _ _ _ _ _ P); [|exact A1|exact A2].
    unfold Qle. cbn. lia. }
  pose proof (lp_cap _ _ _ _ _ _ P Hgo) as Hcap.
  apply floor_ge in Hcap. change (Qfloor (10 # 1)) with 10 in Hcap. lia.
Qed.

Lemma zero_turns_defaults_to_ten_witness :
  max_turns (Some (0 # 1)%Q) = (10 # 1)%Q
  /\ (forall r w', battle (Some (0 # 1)%Q) sample_world = Ok (r, w') ->
      1 <= turns_run r <= 10)
  /\ (moves (pokemon1 sample_world) <> [] -> moves (pokemon2 sample_world) <> [] ->
      exists r w', battle (Some (0 # 1)%Q) sample_world = Ok (r, w')).
Proof.
  apply (zero_turns_defaults_to_ten (Some (0 # 1)%Q) sample_world).
  - right. exists (0 # 1)%Q. split; reflexivity.
  - unfold hp1. cbn. lia.
  - unfold hp2. cbn. lia.
Defined.

(** C10.  When both combatants enter the battle with positive hit points,
    then at its end both have non-negative hit points and at least one is
    still positive, so the first branch of the winner computation (both at
    zero) is not taken and a draw means equal positive hit points; every
    attack of the battle leaves its target with non-negative hit points; and
    in every turn an attack is followed by another one only if its target
    was left standing. *)
Theorem at_most_one_combatant_faints turns w :
  0 < hp1 w -> 0 < hp2 w ->
  (forall r w', battle turns w = Ok (r, w') ->
     let h1 := current_hp (final1 r) in
     let h2 := current_hp (final2 r) in
     0 <= h1 /\ 0 <= h2 /\ (0 < h1 \/ 0 < h2)
     /\ (h1 <=? 0) && (h2 <=? 0) = false
     /\ (decided r = Draw -> h1 = h2 /\ 0 < h1)
     /\ Forall (fun e => 0 <= ev_remaining_hp e) (attacks_of_log (battle_log r))
     /\ Forall (fun t => forall e rest,
                  snd t = Attack e :: rest ->
                  attacks_of_events rest <> [] ->
                  0 < ev_remaining_hp e)
               (turns_of_log (battle_log r)))
  /\ (moves (pokemon1 w) <> [] -> moves (pokemon2 w) <> [] ->
      exists r w', battle turns w = Ok (r, w')).
Proof.
  intros A1 A2. split; [|apply battle_returns].
  intros r w' H.
  assert (B1 : 0 <= hp1 w) by lia. assert (B2 : 0 <= hp2 w) by lia.
  destruct (battle_inv _ _ _ _ H B1 B2) as (ct' & ts & P & Hts & _ & F1 & F2 & D & _).
  cbn zeta. unfold attacks_of_log. rewrite Hts, F1, F2, D.
  fold (hp1 w') (hp2 w').
  pose proof (lp_hp1 _ _ _ _ _ _ P) as H1.
  pose proof (lp_hp2 _ _ _ _ _ _ P) as H2.
  assert (H3 : 0 < hp1 w' \/ 0 < hp2 w').
  { apply (lp_one_stands _ _ _ _ _ _ P). left. exact A1. }
  destruct (decide_winner_spec (hp1 w') (hp2 w') H1 H2) as (_ & _ & S3).
  split; [exact H1|]. split; [exact H2|]. split; [exact H3|].
  split; [|split; [|split]].
  - apply andb_false_iff.
    destruct H3 as [H3|H3]; [left|right]; apply Z.leb_gt; exact H3.
  - intros Hd. apply S3 in Hd. lia.
  - exact (lp_nonneg _ _ _ _ _ _ P).
  - eapply Forall_impl; [exact (lp_each_turn _ _ _ _ _ _ P)|].
    intros t Ht e rest E Hne. cbn beta in Ht. rewrite E in Ht.
    cbn [attacks_of_events flat_map app] in Ht.
    apply (Ht [] e (attacks_of_events rest)); [reflexivity | exact Hne].
Qed.

Lemma at_most_one_combatant_faints_witness :
  (forall r w', battle None sample_world = Ok (r, w') ->
     let h1 := current_hp (final1 r) in
     let h2 := current_hp (final2 r) in
     0 <= h1 /\ 0 <= h2 /\ (0 < h1 \/ 0 < h2)
     /\ (h1 <=? 0) && (h2 <=? 0) = false
     /\ (decided r = Draw -> h1 = h2 /\ 0 < h1)
     /\ Forall (fun e => 0 <= ev_remaining_hp e) (attacks_of_log (battle_log r))
     /\ Forall (fun t => forall e rest,
                  snd t = Attack e :: rest ->
                  attacks_of_events rest <> [] ->
                  0 < ev_remaining_hp e)
               (turns_of_log (battle_log r)))
  /\ (moves (pokemon1 sample_world) <> [] -> moves (pokemon2 sample_world) <> [] ->
      exists r w', battle None sample_world = Ok (r, w')).
Proof.
  apply (at_most_one_combatant_faints None sample_world).
  - unfold hp1. cbn. lia.
  - unfold hp2. cbn. lia.
Defined.

(** The tool itself never runs out of fuel: it answers with a success or a
    failure value. *)
Lemma battle_pokemon_answers api rng input :
  exists out, battle_pokemon api rng input = Ok out.
Proof.
  unfold battle_pokemon, and_then.
  destruct (fetchPokemonForBattle api (in_pokemon1 input)) as [p1| |] eqn:E1.
  - destruct (fetchPokemonForBattle api (in_pokemon2 input)) as [p2| |] eqn:E2.
    + match goal with |- context [battle ?t ?v] =>
        pose proof (battle_fuel t v) as F; destruct (battle t v) as [[r v']| |]
      end; eauto. contradiction.
    + eauto.
    + exfalso. unfold fetchPokemonForBattle, and_then, base_stat in E2.
      destruct (api (in_pokemon2 input)); [|discriminate].
      repeat match type of E2 with
      | context [JS.prop ?l ?k] => destruct (JS.prop l k)
      end; discriminate.
  - eauto.
  - exfalso. unfold fetchPokemonForBattle, and_then, base_stat in E1.
    destruct (api (in_pokemon1 input)); [|discriminate].
    repeat match type of E1 with
    | context [JS.prop ?l ?k] => destruct (JS.prop l k)
    end; discriminate.
Qed.

(** Combatants loaded from the API start with positive hit points: the HP
    formula at level 50 gives at least 60 for a non-negative base stat. *)
Lemma calculateHP_positive b : 0 <= b -> 60 <= calculateHP b 50.
Proof.
  intros Hb. unfold calculateHP.
  assert (H0 : 0 <= Qfloor (inject_Z ((2 * b + 31 + 0 / 4) * 50) / 100)%Q).
  { assert (Hq : (inject_Z 0 <= inject_Z ((2 * b + 31 + 0 / 4) * 50) / 100)%Q).
    { apply Qle_shift_div_l; [reflexivity|].
      unfold Qle. cbn. change (0 / 4) with 0. lia. }
    apply Qfloor_resp_le in Hq. rewrite Qfloor_Z in Hq. exact Hq. }
  lia.
Qed.

Example sample_battle :
  match battle None sample_world with
  | Ok (r, _) =>
      winner r = "rattata" /\ decided r = Winner P1 /\ turns_run r = 3
      /\ current_hp (final1 r) = 37 /\ current_hp (final2 r) = 0
      /\ map (fun e => (ev_by e, ev_damage e, ev_remaining_hp e))
             (attacks_of_log (battle_log r))
         = [(P2, 19, 86); (P1, 39, 66); (P2, 18, 68); (P1, 37, 29);
            (P2, 31, 37); (P1, 36, 0)]
  | _ => False
  end.
Proof. vm_compute. repeat split. Qed.

Example sample_battle_capped :
  match battle (Some (5 # 2)%Q) sample_world with
  | Ok (r, _) =>
      turns_run r = 2 /\ current_hp (final1 r) = 68 /\ current_hp (final2 r) = 29
      /\ decided r = Winner P1
  | _ => False
  end.
Proof. vm_compute. repeat split. Qed.

Example unknown_pokemon_is_a_failure :
  battle_pokemon sample_api sample_entropy
    {| in_pokemon1 := "rattata"; in_pokemon2 := "mew"; in_turns := None |}
  = Ok (Failure "Failed to fetch Pokemon data for mew").
Proof. vm_compute. reflexivity. Qed.

(** *** More about the formulas *)

Lemma Qfloor_div100 (n : Z) : Qfloor (inject_Z n / 100)%Q = n / 100.
Proof.
  unfold Qdiv, Qmult, Qinv, inject_Z, Qfloor. cbn.
  rewrite Z.mul_1_r. reflexivity.
Qed.

Lemma Qfloor_stat (n : Z) : Qfloor ((inject_Z n / 100 + 5) * 1)%Q = n / 100 + 5.
Proof.
  unfold Qdiv, Qmult, Qinv, Qplus, inject_Z, Qfloor. cbn.
  change (Z.pos (1 * 100 * 1 * 1)) with 100. change (Z.pos (1 * 100)) with 100.
  rewrite !Z.mul_1_r. rewrite Z.div_add by lia. reflexivity.
Qed.

Lemma calculateStat_eq (b l : Z) : calculateStat b l = (2 * b + 31) * l / 100 + 5.
Proof.
  unfold calculateStat. change (0 / 4) with 0. rewrite Z.add_0_r. apply Qfloor_stat.
Qed.

Lemma calculateHP_eq (b l : Z) : calculateHP b l = (2 * b + 31) * l / 100 + l + 10.
Proof.
  unfold calculateHP. change (0 / 4) with 0.
  rewrite Z.add_0_r, Qfloor_div100. reflexivity.
Qed.

Lemma half_of_level_50 (b : Z) : (2 * b + 31) * 50 / 100 = b + 15.
Proof.
  replace ((2 * b + 31) * 50) with (50 + (b + 15) * 100) by lia.
  rewrite Z.div_add by lia. reflexivity.
Qed.

Lemma calculateStat_50 (b : Z) : calculateStat b 50 = b + 20.
Proof. rewrite calculateStat_eq, half_of_level_50. lia. Qed.

Lemma calculateHP_50 (b : Z) : calculateHP b 50 = b + 75.
Proof. rewrite calculateHP_eq, half_of_level_50. lia. Qed.

(** The stat formulas in integer arithmetic ([/] rounds down), and what they
    give at level 50, the level of every combatant: the base stat plus 20,
    and for hit points the base stat plus 75. *)
Theorem stat_formulas (b l : Z) :
  calculateStat b l = (2 * b + 31) * l / 100 + 5
  /\ calculateHP b l = (2 * b + 31) * l / 100 + l + 10
  /\ calculateStat b 50 = b + 20
  /\ calculateHP b 50 = b + 75.
Proof.
  split; [apply calculateStat_eq|]. split; [apply calculateHP_eq|].
  split; [apply calculateStat_50 | apply calculateHP_50].
Qed.

Lemma Qfloor_nonneg (q : Q) : (0 <= q)%Q -> 0 <= Qfloor q.
Proof.
  intros H. change 0%Q with (inject_Z 0) in H.
  apply Qfloor_resp_le in H. rewrite Qfloor_Z in H. exact H.
Qed.

Lemma inject_Z_nonneg (z : Z) : 0 <= z -> (0 <= inject_Z z)%Q.
Proof. intros H. change 0%Q with (inject_Z 0). rewrite <- Zle_Qle. exact H. Qed.

Lemma prop_forallb {A : Type} (P : string * A -> bool) l k v :
  forallb P l = true -> JS.prop l k = Some v -> P (k, v) = true.
Proof.
  induction l as [|[k' v'] l IH]; cbn; [discriminate|].
  intros H E. apply andb_true_iff in H. destruct H as [H1 H2].
  destruct (String.eqb k' k) eqn:Ek.
  - apply String.eqb_eq in Ek. inversion E; subst. exact H1.
  - apply IH; assumption.
Qed.

(** Whatever pair of types is looked up, an entry found is 0, 0.5, 1 or 2. *)
Lemma chart_entry_values moveType defenderType e :
  chart_entry moveType defenderType = Some e ->
  (e == 0 \/ e == 1 # 2 \/ e == 1 \/ e == 2)%Q.
Proof.
  unfold chart_entry. intros H.
  destruct (JS.prop TYPE_EFFECTIVENESS moveType) as [row|] eqn:R; [|discriminate].
  pose proof (prop_forallb _ _ _ _ chart_values R) as Hrow. cbn [snd] in Hrow.
  pose proof (prop_forallb _ _ _ _ Hrow H) as He. cbn [snd] in He.
  rewrite !orb_true_iff in He. rewrite <- !Qeq_bool_iff. tauto.
Qed.

Lemma guarded_factor_positive moveType defenderType :
  (0 < guarded_factor moveType defenderType)%Q.
Proof.
  unfold guarded_factor, chart_factor, truthy.
  destruct (chart_entry moveType defenderType) as [e|] eqn:E; [|reflexivity].
  destruct (Qeq_bool e 0) eqn:Z0; cbn [negb]; [reflexivity|].
  destruct (chart_entry_values _ _ _ E) as [H|[H|[H|H]]]; rewrite H; try reflexivity.
  apply Qeq_bool_iff in H. congruence.
Qed.

Lemma type_effectiveness_positive defender mv :
  (0 < type_effectiveness defender mv)%Q.
Proof.
  rewrite type_effectiveness_guarded.
  induction (types defender) as [|t l IH]; cbn [fold_right]; [reflexivity|].
  apply Qmult_lt_0_compat; [apply guarded_factor_positive | exact IH].
Qed.

Lemma later_multipliers_nonneg d1 eff roll crit :
  0 <= d1 -> (0 <= eff)%Q -> 0 <= roll ->
  0 <= later_multipliers d1 eff roll crit.
Proof.
  intros H1 He Hr. unfold later_multipliers.
  set (d2 := Qfloor (inject_Z d1 * eff)%Q).
  assert (H2 : 0 <= d2).
  { apply Qfloor_nonneg, Qmult_le_0_compat; [apply inject_Z_nonneg|]; assumption. }
  set (d3 := Qfloor (inject_Z d2 * (inject_Z (85 + roll) / 100))%Q).
  assert (H3 : 0 <= d3).
  { apply Qfloor_nonneg, Qmult_le_0_compat; [apply inject_Z_nonneg; exact H2|].
    apply Qle_shift_div_l; [reflexivity|]. rewrite Qmult_0_l.
    apply inject_Z_nonneg. lia. }
  destruct crit; [|exact H3].
  apply Qfloor_nonneg, Qmult_le_0_compat; [apply inject_Z_nonneg; exact H3|].
  discriminate.
Qed.

Lemma base_damage_at_least_two attacker defender mv pw :
  sound_stats attacker -> sound_stats defender -> 0 <= pw ->
  2 <= base_damage attacker defender mv pw.
Proof.
  intros (L & A1 & A2 & _) (_ & _ & _ & D1 & D2) Hp.
  unfold base_damage. cbv zeta.
  set (lvl := if level attacker =? 0 then 50 else level attacker).
  assert (Hl : 0 <= lvl) by (unfold lvl; destruct (level attacker =? 0); lia).
  set (phys := match damage_class mv with Some c => String.eqb c "physical" | None => false end).
  set (atk := if phys then attack (pstats attacker) else special_attack (pstats attacker)).
  set (def := if phys then defense (pstats defender) else special_defense (pstats defender)).
  assert (Ha : 0 <= atk) by (unfold atk; destruct phys; lia).
  assert (Hd : 0 < def) by (unfold def; destruct phys; lia).
  assert (Hq : (0 <= (inject_Z (2 * lvl) / 5 + 2) * inject_Z pw * inject_Z atk
                     / inject_Z def / 50)%Q).
  { apply Qle_shift_div_l; [reflexivity|]. rewrite Qmult_0_l.
    apply Qle_shift_div_l.
    { change 0%Q with (inject_Z 0). rewrite <- Zlt_Qlt. exact Hd. }
    rewrite Qmult_0_l.
    repeat apply Qmult_le_0_compat; try (apply inject_Z_nonneg; assumption).
    apply Qle_trans with (y := (inject_Z (2 * lvl) / 5)%Q).
    - apply Qle_shift_div_l; [reflexivity|]. rewrite Qmult_0_l.
      apply inject_Z_nonneg. lia.
    - rewrite <- (Qplus_0_r (inject_Z (2 * lvl) / 5)) at 1.
      apply Qplus_le_r. discriminate. }
  apply Qfloor_nonneg in Hq. lia.
Qed.

Lemma calculateDamage_sound attacker defender mv w r w' :
  calculateDamage attacker defender (Some mv) w = Ok (r, w') ->
  sound_stats attacker -> sound_stats defender -> sound_move mv ->
  0 <= damage r /\ (0 < effectiveness r)%Q.
Proof.
  intros H Sa Sd Sm. unfold calculateDamage in H. unfold sound_move in Sm.
  destruct (power mv) as [pw|] eqn:Ep.
  - destruct (pw =? 0) eqn:Ez.
    + unfold ret in H. inversion H; subst. cbn. split; [lia | reflexivity].
    + apply bind_Ok in H. destruct H as (r1 & w1 & E1 & H).
      apply bind_Ok in H. destruct H as (r2 & w2 & E2 & H).
      destruct (Math_random_Ok w) as (r1' & w1' & E1' & _ & R10 & _).
      rewrite E1 in E1'. inversion E1'; subst r1' w1'; clear E1'.
      unfold ret in H. injection H as <- <-.
      cbn [damage effectiveness].
      split; [|apply type_effectiveness_positive].
      unfold apply_multipliers. apply later_multipliers_nonneg.
      * apply Qfloor_nonneg, Qmult_le_0_compat.
        -- apply inject_Z_nonneg.
           pose proof (base_damage_at_least_two attacker defender mv pw Sa Sd Sm).
           lia.
        -- unfold stab_of. destruct (existsb _ _); discriminate.
      * apply Qlt_le_weak, type_effectiveness_positive.
      * apply (Qfloor_nonneg (r1 * 16)%Q), Qmult_le_0_compat; [exact R10 | discriminate].
  - unfold ret in H. cbn in H. inversion H; subst. cbn. split; [lia | reflexivity].
Qed.

(** The damage of an attack is a non-negative integer and its type
    multiplier is positive, for combatants whose stats are not negative and
    whose defenses are not zero. *)
Theorem damage_is_not_negative attacker defender mv w :
  sound_stats attacker -> sound_stats defender -> sound_move mv ->
  exists r w',
    calculateDamage attacker defender (Some mv) w = Ok (r, w')
    /\ 0 <= damage r
    /\ (0 < effectiveness r)%Q.
Proof.
  intros Sa Sd Sm.
  destruct (calculateDamage_Some attacker defender mv w) as (r & w' & E & _).
  exists r, w'. split; [exact E|].
  exact (calculateDamage_sound _ _ _ _ _ _ E Sa Sd Sm).
Qed.

Lemma damage_is_not_negative_witness :
  exists r w',
    calculateDamage rattata gastly (Some tackle) sample_world = Ok (r, w')
    /\ 0 <= damage r
    /\ (0 < effectiveness r)%Q.
Proof.
  apply (damage_is_not_negative rattata gastly tackle sample_world).
  - unfold sound_stats. cbn. lia.
  - unfold sound_stats. cbn. lia.
  - unfold sound_move. cbn. lia.
Defined.

(** *** A turn as a chain of strikes *)

Lemma calculateDamage_positive_effectiveness attacker defender mv w r w' :
  calculateDamage attacker defender mv w = Ok (r, w') ->
  (0 < effectiveness r)%Q.
Proof.
  unfold calculateDamage. destruct mv as [mv|]; [|discriminate].
  destruct ((match power mv with Some p => p | None => 0 end) =? 0).
  - unfold ret. intros H. inversion H; subst. reflexivity.
  - intros H. apply bind_Ok in H. destruct H as (r1 & w1 & _ & H).
    apply bind_Ok in H. destruct H as (r2 & w2 & _ & H).
    unfold ret in H. inversion H; subst. cbn [effectiveness].
    apply type_effectiveness_positive.
Qed.

Lemma effectiveness_text_positive (eff : Q) :
  (0 < eff)%Q -> effectiveness_text eff <> "It has no effect...".
Proof.
  intros H. unfold effectiveness_text.
  destruct (Qeq_bool eff (2 # 1)); [discriminate|].
  destruct (Qeq_bool eff (1 # 2)); [discriminate|].
  destruct (Qeq_bool eff (0 # 1)) eqn:E; [|discriminate].
  apply Qeq_bool_iff in E. rewrite E in H. discriminate.
Qed.

(** What a strike logs comes from [calculateDamage] run on the two objects as
    they are when the strike starts. *)
Lemma strike_damage striker target m w e w' :
  strike striker target (Some m) w = Ok (e, w') ->
  exists r w1,
    calculateDamage (deref w striker) (deref w target) (Some m) w = Ok (r, w1)
    /\ ev_damage e = damage r
    /\ ev_move e = move_name m
    /\ ev_effectiveness e = effectiveness_text (effectiveness r)
    /\ ev_critical e = (if isCritical r then "Critical hit!" else "").
Proof.
  intros H. unfold strike, bind, read in H.
  destruct (calculateDamage (deref w striker) (deref w target) (Some m) w)
    as [[r w1]| |] eqn:E; try discriminate.
  unfold write_hp, ret in H. inversion H; subst; clear H. cbn.
  exists r, w1. repeat split.
Qed.

Lemma strike_keeps_moves c mv w e w' :
  strike c (opponent c) mv w = Ok (e, w') ->
  forall c', moves (deref w' c') = moves (deref w c').
Proof.
  intros H c'. apply strike_inv in H; [|destruct c; discriminate].
  destruct H as (_ & _ & _ & _ & _ & T & K & _).
  destruct c, c'; cbn [opponent] in *; rewrite ?T, ?K; reflexivity.
Qed.

Lemma strike_same_combatants c mv w e w' :
  strike c (opponent c) mv w = Ok (e, w') -> same_combatants w w'.
Proof.
  intros H. apply strike_inv in H; [|destruct c; discriminate].
  destruct H as (_ & _ & _ & _ & _ & T & K & N & _).
  apply same_combatants_of_deref; [|exact N].
  intros c'. unfold hp_of.
  destruct c, c'; cbn [opponent] in *; rewrite ?T, ?K, ?with_hp_id; reflexivity.
Qed.

Lemma simulateTurn_strikes m1 m2 w evs w' :
  simulateTurn P1 P2 m1 m2 w = Ok (evs, w') ->
  strikes m1 m2 w (attacks_of_events evs) w'.
Proof.
  intros H. unfold simulateTurn, bind, read in H. cbn [deref] in H.
  destruct (speed (pstats (pokemon2 w)) <=? speed (pstats (pokemon1 w))).
  - cbn [deref] in H. destruct (0 <? current_hp (pokemon1 w)).
    + destruct (strike P1 P2 m1 w) as [[e1 w1]| |] eqn:S1; try discriminate.
      cbn [deref] in H. destruct (current_hp (pokemon2 w1) <=? 0).
      * unfold ret in H. inversion H; subst. cbn.
        apply (strikes_cons m1 m2 P1 _ _ _ _ _ S1). constructor.
      * destruct (0 <? current_hp (pokemon2 w1)).
        -- destruct (strike P2 P1 m2 w1) as [[e2 w2]| |] eqn:S2; try discriminate.
           cbn [deref] in H. unfold ret in H.
           destruct (current_hp (pokemon1 w2) <=? 0); inversion H; subst; cbn;
             apply (strikes_cons m1 m2 P1 _ _ _ _ _ S1);
             apply (strikes_cons m1 m2 P2 _ _ _ _ _ S2); constructor.
        -- unfold ret in H. inversion H; subst. cbn.
           apply (strikes_cons m1 m2 P1 _ _ _ _ _ S1). constructor.
    + cbn [deref] in H. destruct (0 <? current_hp (pokemon2 w)).
      * destruct (strike P2 P1 m2 w) as [[e2 w2]| |] eqn:S2; try discriminate.
        cbn [deref] in H. unfold ret in H.
        destruct (current_hp (pokemon1 w2) <=? 0); inversion H; subst; cbn;
          apply (strikes_cons m1 m2 P2 _ _ _ _ _ S2); constructor.
      * unfold ret in H. inversion H; subst. cbn. constructor.
  - cbn [deref] in H. destruct (0 <? current_hp (pokemon2 w)).
    + destruct (strike P2 P1 m2 w) as [[e1 w1]| |] eqn:S1; try discriminate.
      cbn [deref] in H. destruct (current_hp (pokemon1 w1) <=? 0).
      * unfold ret in H. inversion H; subst. cbn.
        apply (strikes_cons m1 m2 P2 _ _ _ _ _ S1). constructor.
      * destruct (0 <? current_hp (pokemon1 w1)).
        -- destruct (strike P1 P2 m1 w1) as [[e2 w2]| |] eqn:S2; try discriminate.
           cbn [deref] in H. unfold ret in H.
           destruct (current_hp (pokemon2 w2) <=? 0); inversion H; subst; cbn;
             apply (strikes_cons m1 m2 P2 _ _ _ _ _ S1);
             apply (strikes_cons m1 m2 P1 _ _ _ _ _ S2); constructor.
        -- unfold ret in H. inversion H; subst. cbn.
           apply (strikes_cons m1 m2 P2 _ _ _ _ _ S1). constructor.
    + cbn [deref] in H. destruct (0 <? current_hp (pokemon1 w)).
      * destruct (strike P1 P2 m1 w) as [[e2 w2]| |] eqn:S2; try discriminate.
        cbn [deref] in H. unfold ret in H.
        destruct (current_hp (pokemon2 w2) <=? 0); inversion H; subst; cbn;
          apply (strikes_cons m1 m2 P1 _ _ _ _ _ S2); constructor.
      * unfold ret in H. inversion H; subst. cbn. constructor.
Qed.

Lemma select_move_inv c w mv w' :
  select_move c w = Ok (mv, w') ->
  same_objects w w' /\ forall m, mv = Some m -> In m (moves (deref w c)).
Proof.
  unfold select_move, bind, read.
  destruct (Math_random_Ok w) as (r & w1 & E & S & _).
  rewrite E. unfold ret. intros H. inversion H; subst; clear H.
  split; [exact S|]. intros m Hm.
  destruct (_ <? 0); [discriminate|].
  apply list_elem_of_In. eapply list_elem_of_lookup_2. exact Hm.
Qed.

(** *** Induction over the strikes of a battle

    A property [Inv] of the world that no draw of entropy disturbs and every
    strike with one of the striker's own moves preserves holds when the
    battle ends, and what every such strike establishes of its log entry,
    [Ev], holds of every attack in the log. *)

Section BattleInduction.

Variable Inv : world -> Prop.
Variable Ev : attack_event -> Prop.

Hypothesis Inv_objects : forall w w', same_objects w w' -> Inv w -> Inv w'.

Hypothesis Inv_strike : forall c m w e w',
  Inv w -> In m (moves (deref w c)) ->
  strike c (opponent c) (Some m) w = Ok (e, w') ->
  Inv w' /\ Ev e.

Lemma strikes_induction m1 m2 w es w' :
  strikes m1 m2 w es w' ->
  (forall c m, pick m1 m2 c = Some m -> In m (moves (deref w c))) ->
  Inv w ->
  Inv w' /\ Forall Ev es.
Proof.
  induction 1 as [w|c w e w1 es w' S _ IH]; intros Hm Hi.
  - split; [exact Hi | constructor].
  - pose proof S as S'. apply strike_inv in S'; [|destruct c; discriminate].
    destruct S' as (_ & _ & _ & _ & _ & _ & _ & _ & m & Em).
    rewrite Em in S.
    destruct (Inv_strike c m w e w1 Hi (Hm c m Em) S) as [Hi1 He].
    destruct IH as [Hi' Hes]; [|exact Hi1|].
    + intros c' m' E'. rewrite (strike_keeps_moves _ _ _ _ _ S). apply Hm, E'.
    + split; [exact Hi' | constructor; assumption].
Qed.

Lemma battle_loop_induction fuel : forall N ct log w ct' log' w',
  battle_loop fuel N ct log w = Ok ((ct', log'), w') ->
  Inv w ->
  Inv w' /\ exists ts, log' = log ++ map entry_of_turn ts
                       /\ Forall Ev (attacks_of_turns ts).
Proof.
  induction fuel as [|fuel IH]; intros N ct log w ct' log' w' H Hi.
  - cbn [battle_loop] in H. unfold bind, read in H. cbn [deref] in H.
    destruct (Qle_bool (inject_Z ct) N && (0 <? current_hp (pokemon1 w))
              && (0 <? current_hp (pokemon2 w))); [discriminate|].
    unfold ret in H. inversion H; subst; clear H.
    split; [exact Hi|]. exists []. split; [symmetry; apply app_nil_r | constructor].
  - cbn [battle_loop] in H. unfold bind at 1 2, read in H. cbn [deref] in H.
    destruct (Qle_bool (inject_Z ct) N && (0 <? current_hp (pokemon1 w))
              && (0 <? current_hp (pokemon2 w))).
    + apply bind_Ok in H. destruct H as (m1 & w1 & E1 & H).
      apply bind_Ok in H. destruct H as (m2 & w2 & E2 & H).
      apply bind_Ok in H. destruct H as (evs & w3 & E3 & H).
      apply select_move_inv in E1. destruct E1 as [S1 M1].
      apply select_move_inv in E2. destruct E2 as [S2 M2].
      apply simulateTurn_strikes in E3.
      apply strikes_induction in E3.
      * destruct E3 as [Hi3 He3].
        unfold bind at 1 2, read in H. cbn [deref] in H.
        destruct ((current_hp (pokemon1 w3) <=? 0) || (current_hp (pokemon2 w3) <=? 0)).
        -- unfold ret in H. inversion H; subst; clear H.
           split; [exact Hi3|]. exists [(ct, evs)]. split; [reflexivity|].
           unfold attacks_of_turns. cbn [flat_map snd]. rewrite app_nil_r. exact He3.
        -- apply IH in H; [|exact Hi3]. destruct H as [Hi' (ts & Hlog & Hts)].
           split; [exact Hi'|]. exists ((ct, evs) :: ts). split.
           ++ rewrite Hlog, <- app_assoc. reflexivity.
           ++ unfold attacks_of_turns. cbn [flat_map snd].
              apply Forall_app. split; assumption.
      * intros [|] m Em; cbn [pick] in Em.
        -- rewrite (same_objects_deref _ _ P1 S2), (same_objects_deref _ _ P1 S1).
           apply M1, Em.
        -- rewrite (same_objects_deref _ _ P2 S2). apply M2, Em.
      * apply (Inv_objects w1 w2 S2), (Inv_objects w w1 S1), Hi.
    + unfold ret in H. inversion H; subst; clear H.
      split; [exact Hi|]. exists []. split; [symmetry; apply app_nil_r | constructor].
Qed.

Lemma battle_induction turns w r w' :
  battle turns w = Ok (r, w') ->
  Inv w ->
  Inv w'
  /\ Forall Ev (attacks_of_log (battle_log r))
  /\ final1 r = pokemon1 w' /\ final2 r = pokemon2 w'.
Proof.
  intros H Hi. unfold battle in H.
  unfold bind at 1 2, read in H. cbn [deref] in H.
  apply bind_Ok in H. destruct H as ([ct' log'] & w1 & E & H).
  apply battle_loop_induction in E; [|exact Hi].
  destruct E as [Hi1 (ts & Hlog & Hts)].
  unfold bind, read, ret in H. cbn [deref fst snd] in H.
  inversion H; subst r w'; clear H.
  cbn [battle_log final1 final2]. split; [exact Hi1|]. split; [|split; reflexivity].
  unfold attacks_of_log.
  rewrite Hlog, !turns_of_log_app, turns_of_log_entries. cbn. rewrite app_nil_r.
  exact Hts.
Qed.

End BattleInduction.

(** *** What a battle does to the hit points *)

Lemma deref_same_combatants w w' c :
  same_combatants w w' -> deref w' c = with_hp (deref w c) (hp_of w' c).
Proof. intros (A & B & _). destruct c; assumption. Qed.

Lemma hp_of_with_hp_target c mv w e w' :
  strike c (opponent c) mv w = Ok (e, w') ->
  hp_of w' c = hp_of w c
  /\ hp_of w' (opponent c) = Z.max 0 (hp_of w (opponent c) - ev_damage e)
  /\ ev_remaining_hp e = hp_of w' (opponent c)
  /\ ev_by e = c.
Proof.
  intros H. apply strike_inv in H; [|destruct c; discriminate].
  destruct H as (B & R & _ & _ & _ & T & K & _).
  unfold hp_of in *. rewrite T, K. cbn. rewrite R. repeat split. exact B.
Qed.

(** With stats that are not negative and defenses that are not zero, no
    attack of a battle has negative damage and no combatant ends the battle
    with more hit points than it started with, or with fewer than 0. *)
Theorem hit_points_never_increase turns w :
  0 <= hp1 w -> 0 <= hp2 w ->
  sound_stats (pokemon1 w) -> sound_stats (pokemon2 w) ->
  Forall sound_move (moves (pokemon1 w)) ->
  Forall sound_move (moves (pokemon2 w)) ->
  moves (pokemon1 w) <> [] -> moves (pokemon2 w) <> [] ->
  exists r w',
    battle turns w = Ok (r, w')
    /\ 0 <= current_hp (final1 r) <= hp1 w
    /\ 0 <= current_hp (final2 r) <= hp2 w
    /\ Forall (fun e => 0 <= ev_damage e) (attacks_of_log (battle_log r)).
Proof.
  intros A1 A2 S1 S2 V1 V2 M1 M2.
  destruct (battle_returns turns w M1 M2) as (r & w' & H).
  exists r, w'. split; [exact H|].
  pose (Inv := fun v : world =>
    same_combatants w v /\ (forall c, 0 <= hp_of v c <= hp_of w c)).
  assert (Hsound : forall v c, same_combatants w v -> sound_stats (deref v c)).
  { intros v c C. rewrite (deref_same_combatants _ _ c C). destruct c; assumption. }
  assert (Hmoves : forall v c m, same_combatants w v -> In m (moves (deref v c)) ->
                                 sound_move m).
  { intros v c m C. rewrite (deref_same_combatants _ _ c C). cbn [moves with_hp].
    intros Hin. apply list_elem_of_In in Hin.
    destruct c; cbn [deref] in Hin;
      [rewrite Forall_forall in V1; apply V1 | rewrite Forall_forall in V2; apply V2];
      exact Hin. }
  enough (G : Inv w' /\ Forall (fun e => 0 <= ev_damage e) (attacks_of_log (battle_log r))
               /\ final1 r = pokemon1 w' /\ final2 r = pokemon2 w').
  { destruct G as ((_ & Hhp) & Hev & F1 & F2).
    rewrite F1, F2. split; [apply (Hhp P1) | split; [apply (Hhp P2) | exact Hev]]. }
  apply (battle_induction Inv (fun e => 0 <= ev_damage e)) with (turns := turns) (w := w);
    [| |exact H|].
  - intros v v' Sv [C B]. split.
    + eapply same_combatants_trans; [exact C | apply same_objects_combatants, Sv].
    + intros c. unfold hp_of. rewrite (same_objects_deref _ _ c Sv). apply B.
  - intros c m v e v' [C B] Hin St.
    destruct (strike_damage _ _ _ _ _ _ St) as (res & v1 & Ed & Hd & _).
    destruct (calculateDamage_sound _ _ _ _ _ _ Ed) as [Hnn _].
    { apply Hsound, C. } { apply Hsound, C. } { eapply Hmoves; [exact C | exact Hin]. }
    rewrite <- Hd in Hnn.
    destruct (hp_of_with_hp_target _ _ _ _ _ St) as (K & T & _).
    split; [split|exact Hnn].
    + eapply same_combatants_trans; [exact C | eapply strike_same_combatants, St].
    + intros c'. pose proof (B c) as Bc. pose proof (B (opponent c)) as Bo.
      destruct c, c'; cbn [opponent] in *; rewrite ?K, ?T; lia.
  - split; [apply same_combatants_refl|]. intros [|]; unfold hp_of; cbn [deref];
      fold (hp1 w) (hp2 w); lia.
Qed.

Lemma hit_points_never_increase_witness :
  exists r w',
    battle None sample_world = Ok (r, w')
    /\ 0 <= current_hp (final1 r) <= hp1 sample_world
    /\ 0 <= current_hp (final2 r) <= hp2 sample_world
    /\ Forall (fun e => 0 <= ev_damage e) (attacks_of_log (battle_log r)).
Proof.
  apply (hit_points_never_increase None sample_world).
  - unfold hp1. cbn. lia.
  - unfold hp2. cbn. lia.
  - unfold sound_stats. cbn. lia.
  - unfold sound_stats. cbn. lia.
  - repeat constructor. unfold sound_move. cbn. lia.
  - repeat constructor. unfold sound_move. cbn. lia.
  - cbn. discriminate.
  - cbn. discriminate.
Defined.

(** Every attack in the log of a battle is made with one of the (at most
    four) moves of the combatant that attacks, names attacker and defender
    as they are, and never carries the text for an attack without effect. *)
Theorem logged_attacks_use_own_moves turns w :
  moves (pokemon1 w) <> [] -> moves (pokemon2 w) <> [] ->
  exists r w',
    battle turns w = Ok (r, w')
    /\ Forall (fun e =>
         (exists m, In m (moves (deref w (ev_by e))) /\ ev_move e = move_name m)
         /\ ev_attacker e = name (deref w (ev_by e))
         /\ ev_defender e = name (deref w (opponent (ev_by e)))
         /\ ev_effectiveness e <> "It has no effect...")
       (attacks_of_log (battle_log r)).
Proof.
  intros M1 M2.
  destruct (battle_returns turns w M1 M2) as (r & w' & H).
  exists r, w'. split; [exact H|].
  eapply (battle_induction (same_combatants w)) with (turns := turns) (w := w);
    [| |exact H|apply same_combatants_refl].
  - intros v v' Sv C.
    eapply same_combatants_trans; [exact C | apply same_objects_combatants, Sv].
  - intros c m v e v' C Hin St.
    split; [eapply same_combatants_trans; [exact C | eapply strike_same_combatants, St]|].
    destruct (strike_damage _ _ _ _ _ _ St) as (res & v1 & Ed & _ & Hmv & Heff & _).
    apply strike_inv in St; [|destruct c; discriminate].
    destruct St as (B & _ & _ & Na & Nd & _).
    rewrite B, Na, Nd, !(deref_same_combatants _ _ _ C). cbn [name with_hp].
    split; [|split; [reflexivity|split; [reflexivity|]]].
    + exists m. split; [|exact Hmv].
      rewrite (deref_same_combatants _ _ c C) in Hin. exact Hin.
    + rewrite Heff. apply effectiveness_text_positive.
      eapply calculateDamage_positive_effectiveness, Ed.
Qed.

Lemma logged_attacks_use_own_moves_witness :
  exists r w',
    battle None sample_world = Ok (r, w')
    /\ Forall (fun e =>
         (exists m, In m (moves (deref sample_world (ev_by e)))
                    /\ ev_move e = move_name m)
         /\ ev_attacker e = name (deref sample_world (ev_by e))
         /\ ev_defender e = name (deref sample_world (opponent (ev_by e)))
         /\ ev_effectiveness e <> "It has no effect...")
       (attacks_of_log (battle_log r)).
Proof.
  apply (logged_attacks_use_own_moves None sample_world).
  - cbn. discriminate.
  - cbn. discriminate.
Defined.

Lemma calculateDamage_powerless attacker defender mv w :
  powerless mv ->
  calculateDamage attacker defender (Some mv) w
  = Ok ({| damage := 0; effectiveness := (1 # 1)%Q; isCritical := false |}, w).
Proof.
  unfold powerless, calculateDamage. destruct (power mv) as [p|].
  - intros ->. reflexivity.
  - intros _. reflexivity.
Qed.

(** A battle fought with moves that have no power leaves both combatants as
    they were: every attack deals 0 damage, the battle runs for the whole
    number of turns allowed, and the outcome is decided by the hit points
    the combatants started with. *)
Theorem powerless_moves_change_nothing turns w :
  0 < hp1 w -> 0 < hp2 w ->
  moves (pokemon1 w) <> [] -> moves (pokemon2 w) <> [] ->
  Forall powerless (moves (pokemon1 w)) ->
  Forall powerless (moves (pokemon2 w)) ->
  exists r w',
    battle turns w = Ok (r, w')
    /\ final1 r = pokemon1 w /\ final2 r = pokemon2 w
    /\ Forall (fun e => ev_damage e = 0
                        /\ ev_remaining_hp e = hp_of w (opponent (ev_by e)))
         (attacks_of_log (battle_log r))
    /\ turns_run r = Z.max 0 (Qfloor (max_turns turns))
    /\ decided r = decide_winner (hp1 w) (hp2 w).
Proof.
  intros A1 A2 M1 M2 V1 V2.
  destruct (battle_returns turns w M1 M2) as (r & w' & H).
  exists r, w'. split; [exact H|].
  pose (Inv := fun v : world => forall c, deref v c = deref w c).
  assert (G : Inv w'
              /\ Forall (fun e => ev_damage e = 0
                                  /\ ev_remaining_hp e = hp_of w (opponent (ev_by e)))
                   (attacks_of_log (battle_log r))
              /\ final1 r = pokemon1 w' /\ final2 r = pokemon2 w').
  { apply (battle_induction Inv) with (turns := turns) (w := w); [| |exact H|].
  - intros v v' Sv B c. rewrite (same_objects_deref _ _ c Sv). apply B.
  - intros c m v e v' B Hin St.
    assert (Hp : powerless m).
    { rewrite (B c) in Hin. apply list_elem_of_In in Hin.
      destruct c; cbn [deref] in Hin;
        [rewrite Forall_forall in V1; apply V1 | rewrite Forall_forall in V2; apply V2];
        exact Hin. }
    destruct (strike_damage _ _ _ _ _ _ St) as (res & v1 & Ed & Hd & _).
    rewrite (calculateDamage_powerless _ _ _ _ Hp) in Ed.
    inversion Ed; subst res v1; clear Ed. cbn [damage] in Hd.
    apply strike_inv in St; [|destruct c; discriminate].
    destruct St as (By & R & _ & _ & _ & T & K & _).
    assert (Hpos : 0 < hp_of w (opponent c)).
    { unfold hp_of. destruct c; assumption. }
    assert (Hr : ev_remaining_hp e = hp_of w (opponent c)).
    { rewrite R, Hd. unfold hp_of. rewrite (B (opponent c)). fold (hp_of w (opponent c)).
      lia. }
    split; [|split; [exact Hd | rewrite By; exact Hr]].
    intros c'.
    assert (Hc : c' = c \/ c' = opponent c) by (destruct c, c'; auto).
    destruct Hc as [->| ->].
    + rewrite K. apply B.
    + rewrite T, Hr, (B (opponent c)). apply with_hp_id.
  - intros c. reflexivity. }
  destruct G as (Hw & Hev & F1 & F2).
  pose proof (Hw P1) as W1. pose proof (Hw P2) as W2. cbn [deref] in W1, W2.
  rewrite F1, F2, W1, W2. split; [reflexivity|]. split; [reflexivity|].
  split; [exact Hev|].
  destruct (battle_inv _ _ _ _ H) as (ct' & ts & P & _ & Hrun & _ & _ & Hdec & _);
    [lia | lia |].
  unfold hp1, hp2 in Hdec. rewrite W1, W2 in Hdec. split; [|exact Hdec].
  rewrite Hrun.
  pose proof (lp_count _ _ _ _ _ _ P) as Hc.
  assert (B1 : 0 < hp1 w') by (unfold hp1; rewrite W1; exact A1).
  assert (B2 : 0 < hp2 w') by (unfold hp2; rewrite W2; exact A2).
  pose proof (lp_exit _ _ _ _ _ _ P B1 B2) as Hx. apply floor_lt in Hx.
  assert (Hcap : 0 < ct' - 1 -> ct' - 1 <= Qfloor (max_turns turns)).
  { intros Hpos. apply floor_ge. apply (lp_cap _ _ _ _ _ _ P). lia. }
  lia.
Qed.

Lemma powerless_moves_change_nothing_witness :
  exists r w',
    battle None (world_with_moves [growl] [growl]) = Ok (r, w')
    /\ final1 r = pokemon1 (world_with_moves [growl] [growl])
    /\ final2 r = pokemon2 (world_with_moves [growl] [growl])
    /\ Forall (fun e => ev_damage e = 0
                        /\ ev_remaining_hp e
                           = hp_of (world_with_moves [growl] [growl])
                                   (opponent (ev_by e)))
         (attacks_of_log (battle_log r))
    /\ turns_run r = Z.max 0 (Qfloor (max_turns None))
    /\ decided r = decide_winner (hp1 (world_with_moves [growl] [growl]))
                                 (hp2 (world_with_moves [growl] [growl])).
Proof.
  apply (powerless_moves_change_nothing None (world_with_moves [growl] [growl])).
  - unfold hp1. cbn. lia.
  - unfold hp2. cbn. lia.
  - cbn. discriminate.
  - cbn. discriminate.
  - repeat constructor.
  - repeat constructor.
Defined.

(** *** A combatant without moves *)

Lemma bind_Throw {A B : Type} (m : M A) (k : A -> M B) w msg :
  m w = Throw msg -> bind m k w = Throw msg.
Proof. intros H. unfold bind. rewrite H. reflexivity. Qed.

Lemma simulateTurn_without_move m1 m2 w :
  0 < hp_of w (first_mover w) ->
  pick m1 m2 (first_mover w) = None ->
  exists msg, simulateTurn P1 P2 m1 m2 w = Throw msg.
Proof.
  unfold first_mover, hp_of, simulateTurn, bind, read. cbn [deref].
  destruct (speed (pstats (pokemon2 w)) <=? speed (pstats (pokemon1 w)));
    cbn [deref pick]; intros Hpos ->; apply Z.ltb_lt in Hpos; rewrite Hpos;
    eexists; reflexivity.
Qed.

(** When the combatant that moves first has no moves, the first turn fails:
    the battle throws instead of returning a result, whenever at least one
    turn is allowed and both combatants stand. *)
Theorem battle_without_moves_throws turns w :
  0 < hp1 w -> 0 < hp2 w ->
  (1 <= max_turns turns)%Q ->
  moves (deref w (first_mover w)) = [] ->
  exists msg, battle turns w = Throw msg.
Proof.
  intros A1 A2 Hn Hm. unfold battle. unfold bind at 1 2, read. cbn [deref].
  assert (Hfl : 1 <= Qfloor (max_turns turns)).
  { apply floor_ge. exact Hn. }
  destruct (Z.to_nat (Qfloor (max_turns turns))) as [|fuel] eqn:Ef; [lia|].
  match goal with
  | |- exists msg, bind ?loop _ w = _ =>
      assert (Hloop : exists msg, loop w = Throw msg)
  end.
  { cbn [battle_loop]. unfold bind at 1 2, read. cbn [deref].
    apply Qle_bool_iff in Hn. change (inject_Z 1) with 1%Q. rewrite Hn.
    unfold hp1, hp2 in A1, A2.
    apply Z.ltb_lt in A1, A2. rewrite A1, A2. cbn [andb].
    apply Z.ltb_lt in A1, A2.
    destruct (select_move_Ok P1 w) as (m1 & w1 & E1 & S1 & _).
    rewrite (bind_step _ _ _ _ _ E1).
    destruct (select_move_Ok P2 w1) as (m2 & w2 & E2 & S2 & _).
    rewrite (bind_step _ _ _ _ _ E2).
    apply select_move_inv in E1, E2. destruct E1 as [_ I1]. destruct E2 as [_ I2].
    pose proof (same_objects_trans _ _ _ S1 S2) as S12.
    assert (Hfm : first_mover w2 = first_mover w).
    { apply first_mover_same, same_objects_combatants, S12. }
    destruct (simulateTurn_without_move m1 m2 w2) as [msg Hmsg].
    - rewrite Hfm. unfold hp_of. rewrite (same_objects_deref _ _ _ S12).
      destruct (first_mover w); assumption.
    - rewrite Hfm. destruct (first_mover w); cbn [pick deref] in *.
      + destruct m1 as [m|]; [|reflexivity].
        exfalso. specialize (I1 m eq_refl). rewrite Hm in I1. exact I1.
      + destruct m2 as [m|]; [|reflexivity].
        exfalso. specialize (I2 m eq_refl).
        destruct S1 as (_ & S1 & _). rewrite S1, Hm in I2. exact I2.
    - exists msg. apply bind_Throw. exact Hmsg. }
  destruct Hloop as [msg Hmsg]. exists msg. apply bind_Throw. exact Hmsg.
Qed.

Lemma battle_without_moves_throws_witness :
  exists msg, battle None (world_with_moves [tackle] []) = Throw msg.
Proof.
  apply (battle_without_moves_throws None (world_with_moves [tackle] [])).
  - unfold hp1. cbn. lia.
  - unfold hp2. cbn. lia.
  - vm_compute. discriminate.
  - reflexivity.
Defined.

(** *** Loading the combatants and answering *)

Lemma fetchPokemonForBattle_inv api pokemonId p :
  fetchPokemonForBattle api pokemonId = Ok p ->
  exists data b1 b2 b3 b4 b5 b6,
    api pokemonId = Some data
    /\ JS.prop (api_stats data) "hp" = Some b1
    /\ JS.prop (api_stats data) "attack" = Some b2
    /\ JS.prop (api_stats data) "defense" = Some b3
    /\ JS.prop (api_stats data) "special-attack" = Some b4
    /\ JS.prop (api_stats data) "special-defense" = Some b5
    /\ JS.prop (api_stats data) "speed" = Some b6
    /\ p = {| id := api_id data; name := api_name data; types := api_types data;
              level := 50;
              pstats := {| hp := b1 + 75; attack := b2 + 20; defense := b3 + 20;
                           special_attack := b4 + 20; special_defense := b5 + 20;
                           speed := b6 + 20 |};
              current_hp := b1 + 75; moves := take 4 (api_moves data) |}.
Proof.
  unfold fetchPokemonForBattle, and_then, base_stat.
  destruct (api pokemonId) as [data|] eqn:E; [|discriminate].
  destruct (JS.prop (api_stats data) "hp") as [b1|] eqn:H1; [|discriminate].
  destruct (JS.prop (api_stats data) "attack") as [b2|] eqn:H2; [|discriminate].
  destruct (JS.prop (api_stats data) "defense") as [b3|] eqn:H3; [|discriminate].
  destruct (JS.prop (api_stats data) "special-attack") as [b4|] eqn:H4; [|discriminate].
  destruct (JS.prop (api_stats data) "special-defense") as [b5|] eqn:H5; [|discriminate].
  destruct (JS.prop (api_stats data) "speed") as [b6|] eqn:H6; [|discriminate].
  rewrite !calculateStat_50, !calculateHP_50.
  intros H. inversion H; subst p; clear H.
  exists data, b1, b2, b3, b4, b5, b6. repeat (split; [assumption || reflexivity|]).
  reflexivity.
Qed.

Lemma fetchPokemonForBattle_Ok api pokemonId data :
  api pokemonId = Some data -> has_stats data = true ->
  exists p, fetchPokemonForBattle api pokemonId = Ok p
    /\ name p = api_name data /\ types p = api_types data /\ level p = 50
    /\ current_hp p = base_or_zero data "hp" + 75
    /\ moves p = take 4 (api_moves data).
Proof.
  intros E Hs. unfold fetchPokemonForBattle, and_then, base_stat, base_or_zero.
  rewrite E. unfold has_stats in Hs. cbn [forallb] in Hs.
  destruct (JS.prop (api_stats data) "hp") as [b1|]; [|discriminate].
  destruct (JS.prop (api_stats data) "attack") as [b2|]; [|discriminate].
  destruct (JS.prop (api_stats data) "defense") as [b3|]; [|discriminate].
  destruct (JS.prop (api_stats data) "special-attack") as [b4|]; [|discriminate].
  destruct (JS.prop (api_stats data) "special-defense") as [b5|]; [|discriminate].
  destruct (JS.prop (api_stats data) "speed") as [b6|]; [|discriminate].
  eexists. split; [reflexivity|]. cbn. rewrite calculateHP_50. repeat split.
Qed.

(** A combatant that was loaded is the API's Pokemon at level 50 and at full
    health; each of its stats is the base stat plus 20, its hit points the
    base stat plus 75, and its moves are the first four of the API's list. *)
Theorem fetched_pokemon_starts_at_full_health api pokemonId p :
  fetchPokemonForBattle api pokemonId = Ok p ->
  exists data,
    api pokemonId = Some data
    /\ id p = api_id data /\ name p = api_name data /\ types p = api_types data
    /\ level p = 50
    /\ current_hp p = hp (pstats p)
    /\ JS.prop (api_stats data) "hp" = Some (hp (pstats p) - 75)
    /\ JS.prop (api_stats data) "attack" = Some (attack (pstats p) - 20)
    /\ JS.prop (api_stats data) "defense" = Some (defense (pstats p) - 20)
    /\ JS.prop (api_stats data) "special-attack" = Some (special_attack (pstats p) - 20)
    /\ JS.prop (api_stats data) "special-defense"
       = Some (special_defense (pstats p) - 20)
    /\ JS.prop (api_stats data) "speed" = Some (speed (pstats p) - 20)
    /\ moves p = take 4 (api_moves data)
    /\ (length (moves p) <= 4)%nat.
Proof.
  intros H. apply fetchPokemonForBattle_inv in H.
  destruct H as (data & b1 & b2 & b3 & b4 & b5 & b6 & E & H1 & H2 & H3 & H4 & H5 & H6 & ->).
  exists data. cbn.
  replace (b1 + 75 - 75) with b1 by lia. replace (b2 + 20 - 20) with b2 by lia.
  replace (b3 + 20 - 20) with b3 by lia. replace (b4 + 20 - 20) with b4 by lia.
  replace (b5 + 20 - 20) with b5 by lia. replace (b6 + 20 - 20) with b6 by lia.
  repeat (split; [assumption || reflexivity|]).
  rewrite length_take. lia.
Qed.

Lemma fetched_pokemon_starts_at_full_health_witness :
  exists data,
    sample_api "gastly" = Some data
    /\ id gastly = api_id data /\ name gastly = api_name data
    /\ types gastly = api_types data
    /\ level gastly = 50
    /\ current_hp gastly = hp (pstats gastly)
    /\ JS.prop (api_stats data) "hp" = Some (hp (pstats gastly) - 75)
    /\ JS.prop (api_stats data) "attack" = Some (attack (pstats gastly) - 20)
    /\ JS.prop (api_stats data) "defense" = Some (defense (pstats gastly) - 20)
    /\ JS.prop (api_stats data) "special-attack"
       = Some (special_attack (pstats gastly) - 20)
    /\ JS.prop (api_stats data) "special-defense"
       = Some (special_defense (pstats gastly) - 20)
    /\ JS.prop (api_stats data) "speed" = Some (speed (pstats gastly) - 20)
    /\ moves gastly = take 4 (api_moves data)
    /\ (length (moves gastly) <= 4)%nat.
Proof.
  apply (fetched_pokemon_starts_at_full_health sample_api "gastly" gastly).
  vm_compute. reflexivity.
Defined.

Lemma battle_log_shape turns w r w' :
  battle turns w = Ok (r, w') ->
  exists ts,
    battle_log r
    = battle_start (name (pokemon1 w)) (level (pokemon1 w)) (hp1 w) (types (pokemon1 w))
                   (name (pokemon2 w)) (level (pokemon2 w)) (hp2 w) (types (pokemon2 w))
      :: map entry_of_turn ts
      ++ [battle_end (turns_run r) (winner r)
            (current_hp (final1 r)) (current_hp (final2 r))].
Proof.
  intros H. unfold battle in H.
  unfold bind at 1 2, read in H. cbn [deref] in H.
  apply bind_Ok in H. destruct H as ([ct' log'] & w1 & E & H).
  apply (battle_loop_induction (fun _ => True) (fun _ => True)) in E; auto.
  destruct E as [_ (ts & Hlog & _)].
  unfold bind, read, ret in H. cbn [deref fst snd] in H.
  inversion H; subst r w'; clear H.
  cbn [battle_log turns_run winner final1 final2].
  exists ts. rewrite Hlog. reflexivity.
Qed.

(** When the API knows both Pokemon with their six stats and at least one
    move each, the tool answers with a success whose log is one
    [battle_start] entry that shows both combatants at level 50 and full
    health, then the turns, then one [battle_end] entry that agrees with the
    result. *)
Theorem battle_pokemon_succeeds api rng input d1 d2 :
  api (in_pokemon1 input) = Some d1 -> api (in_pokemon2 input) = Some d2 ->
  has_stats d1 = true -> has_stats d2 = true ->
  api_moves d1 <> [] -> api_moves d2 <> [] ->
  exists r ts,
    battle_pokemon api rng input = Ok (Success r)
    /\ battle_log r
       = battle_start (api_name d1) 50 (base_or_zero d1 "hp" + 75) (api_types d1)
                      (api_name d2) 50 (base_or_zero d2 "hp" + 75) (api_types d2)
         :: map entry_of_turn ts
         ++ [battle_end (turns_run r) (winner r)
               (current_hp (final1 r)) (current_hp (final2 r))].
Proof.
  intros E1 E2 S1 S2 M1 M2.
  destruct (fetchPokemonForBattle_Ok _ _ _ E1 S1) as (p1 & F1 & N1 & T1 & L1 & H1 & Mv1).
  destruct (fetchPokemonForBattle_Ok _ _ _ E2 S2) as (p2 & F2 & N2 & T2 & L2 & H2 & Mv2).
  unfold battle_pokemon, and_then. rewrite F1, F2.
  set (w := {| pokemon1 := p1; pokemon2 := p2; entropy := rng; drawn := 0 |}).
  destruct (battle_returns (in_turns input) w) as (r & w' & B).
  { cbn. rewrite Mv1. destruct (api_moves d1); [congruence | discriminate]. }
  { cbn. rewrite Mv2. destruct (api_moves d2); [congruence | discriminate]. }
  rewrite B. cbn [fst].
  destruct (battle_log_shape _ _ _ _ B) as (ts & Hlog).
  exists r, ts. split; [reflexivity|].
  rewrite Hlog. unfold hp1, hp2. cbn [pokemon1 pokemon2 w].
  rewrite N1, N2, T1, T2, L1, L2, H1, H2. reflexivity.
Qed.

Lemma battle_pokemon_succeeds_witness :
  exists r ts,
    battle_pokemon sample_api sample_entropy
      {| in_pokemon1 := "rattata"; in_pokemon2 := "gastly"; in_turns := None |}
    = Ok (Success r)
    /\ battle_log r
       = battle_start "rattata" 50 (30 + 75) ["normal"]
                      "gastly" 50 (30 + 75) ["ghost"; "poison"]
         :: map entry_of_turn ts
         ++ [battle_end (turns_run r) (winner r)
               (current_hp (final1 r)) (current_hp (final2 r))].
Proof.
  apply (battle_pokemon_succeeds sample_api sample_entropy
           {| in_pokemon1 := "rattata"; in_pokemon2 := "gastly"; in_turns := None |}
           {| api_id := 19; api_name := "rattata"; api_types := ["normal"];
              api_stats := [("hp", 30); ("attack", 56); ("defense", 35);
                            ("special-attack", 25); ("special-defense", 35);
                            ("speed", 72)];
              api_moves := [tackle] |}
           {| api_id := 92; api_name := "gastly"; api_types := ["ghost"; "poison"];
              api_stats := [("hp", 30); ("attack", 35); ("defense", 30);
                            ("special-attack", 100); ("special-defense", 35);
                            ("speed", 80)];
              api_moves := [lick] |}).
  - reflexivity.
  - reflexivity.
  - reflexivity.
  - reflexivity.
  - discriminate.
  - discriminate.
Defined.

(** A Pokemon the API does not know makes the tool answer with a failure
    that names it; the first Pokemon is looked up first, and no battle is
    fought. *)
Theorem battle_pokemon_reports_unknown_pokemon api rng input :
  api (in_pokemon1 input) = None
  \/ (has_stats_of api (in_pokemon1 input) /\ api (in_pokemon2 input) = None) ->
  exists unknown,
    battle_pokemon api rng input
    = Ok (Failure ("Failed to fetch Pokemon data for " +:+ unknown))
    /\ api unknown = None
    /\ (unknown = in_pokemon1 input \/ unknown = in_pokemon2 input).
Proof.
  intros [E1|[(d1 & E1 & S1) E2]].
  - exists (in_pokemon1 input). unfold battle_pokemon, and_then, fetchPokemonForBattle.
    rewrite E1. auto.
  - exists (in_pokemon2 input).
    destruct (fetchPokemonForBattle_Ok _ _ _ E1 S1) as (p1 & F1 & _).
    unfold battle_pokemon, and_then. rewrite F1.
    unfold fetchPokemonForBattle. rewrite E2. auto.
Qed.

Lemma battle_pokemon_reports_unknown_pokemon_witness :
  exists unknown,
    battle_pokemon sample_api sample_entropy
      {| in_pokemon1 := "rattata"; in_pokemon2 := "mew"; in_turns := None |}
    = Ok (Failure ("Failed to fetch Pokemon data for " +:+ unknown))
    /\ sample_api unknown = None
    /\ (unknown = "rattata" \/ unknown = "mew").
Proof.
  apply (battle_pokemon_reports_unknown_pokemon sample_api sample_entropy
           {| in_pokemon1 := "rattata"; in_pokemon2 := "mew"; in_turns := None |}).
  right. split; [|reflexivity].
  eexists. split; reflexivity.
Defined.

(** *** The summary of a battle *)

Lemma append_empty_r (s : string) : s +:+ "" = s.
Proof.
  induction s as [|c s IH]; [reflexivity|].
  change (String c (s +:+ "") = String c s). rewrite IH. reflexivity.
Qed.

Lemma append_assoc (a b c : string) : (a +:+ b) +:+ c = a +:+ (b +:+ c).
Proof.
  induction a as [|x a IH]; [reflexivity|].
  change (String x ((a +:+ b) +:+ c) = String x (a +:+ (b +:+ c))).
  rewrite IH. reflexivity.
Qed.

Lemma middle_shape {A : Type} (a b : A) (l : list A) : middle (a :: l ++ [b]) = l.
Proof.
  unfold middle. cbn [length drop]. rewrite length_app. cbn [length].
  replace (S (length l + 1) - 2)%nat with (length l) by lia.
  apply take_app_length.
Qed.

Lemma tally_events evs t :
  fold_left tally_event evs t
  = fold_left (fun t e => tally_event t (Attack e)) (attacks_of_events evs) t.
Proof.
  revert t. induction evs as [|[e|msg] evs IH]; intros t; cbn; [reflexivity| |]; apply IH.
Qed.

Lemma tally_turns ts t :
  fold_left tally_entry (map entry_of_turn ts) t
  = fold_left (fun t e => tally_event t (Attack e)) (attacks_of_turns ts) t.
Proof.
  revert t. induction ts as [|[k evs] ts IH]; intros t; [reflexivity|].
  unfold attacks_of_turns. cbn [map fold_left entry_of_turn tally_entry flat_map fst snd].
  rewrite fold_left_app, <- tally_events. apply IH.
Qed.

Lemma max_damage_nonneg es : 0 <= max_damage es.
Proof. unfold max_damage. induction es as [|e es IH]; cbn [fold_right]; lia. Qed.

Lemma max_damage_app es x :
  max_damage (es ++ [x]) = Z.max (max_damage es) (ev_damage x).
Proof.
  unfold max_damage. induction es as [|e es IH]; cbn [fold_right app]; [lia|].
  rewrite IH. lia.
Qed.

Lemma max_damage_bound es : Forall (fun e => ev_damage e <= max_damage es) es.
Proof.
  unfold max_damage. induction es as [|e es IH]; constructor; cbn [fold_right]; [lia|].
  eapply Forall_impl; [exact IH|]. cbv beta. intros; lia.
Qed.

Lemma count_app f es x :
  count f (es ++ [x]) = count f es + (if f x then 1 else 0).
Proof.
  unfold count. rewrite List.filter_app, length_app. cbn [List.filter].
  destruct (f x); cbn [length]; lia.
Qed.

Lemma count_ext f g es :
  Forall (fun e => f e = g e) es -> count f es = count g es.
Proof.
  unfold count. induction 1 as [|e es He _ IH]; [reflexivity|].
  cbn [List.filter]. rewrite He. destruct (g e); cbn [length]; lia.
Qed.

(** What the loop has counted after any list of attacks, starting from the
    initial counters. *)
Lemma tally_attacks es :
  let t := fold_left (fun t e => tally_event t (Attack e)) es
             {| highestDamage := 0; highestDamageMove := ""; criticalHits := 0;
                superEffectiveHits := 0; fainted_lines := "" |} in
  highestDamage t = max_damage es
  /\ criticalHits t = count is_critical es
  /\ superEffectiveHits t = count is_super_effective es
  /\ (max_damage es = 0 -> highestDamageMove t = "")
  /\ (0 < max_damage es ->
      exists pre e post,
        es = pre ++ e :: post
        /\ ev_damage e = max_damage es
        /\ Forall (fun e' => ev_damage e' < ev_damage e) pre
        /\ highestDamageMove t = ev_attacker e +:+ " used " +:+ ev_move e).
Proof.
  induction es as [|x es IH] using rev_ind.
  - cbn. repeat split; try reflexivity. intros H. lia.
  - rewrite fold_left_app. cbn [fold_left].
    set (t := fold_left _ es _) in *. cbv zeta in IH.
    destruct IH as (Hmax & Hcrit & Hsup & Hnone & Hsome).
    unfold tally_event.
    cbn [highestDamage highestDamageMove criticalHits superEffectiveHits].
    rewrite max_damage_app, !count_app, Hmax, Hcrit, Hsup.
    pose proof (max_damage_nonneg es) as Hnn.
    pose proof (max_damage_bound es) as Hb.
    destruct (max_damage es <? ev_damage x) eqn:Hlt.
    + apply Z.ltb_lt in Hlt.
      split; [lia|]. split; [destruct (is_critical x); lia|].
      split; [destruct (is_super_effective x); lia|].
      split; [intros; lia|]. intros _.
      exists es, x, []. split; [reflexivity|]. split; [lia|]. split; [|reflexivity].
      eapply Forall_impl; [exact Hb|]. cbn. intros; lia.
    + apply Z.ltb_ge in Hlt.
      split; [lia|]. split; [destruct (is_critical x); lia|].
      split; [destruct (is_super_effective x); lia|].
      split.
      * intros H0. apply Hnone. lia.
      * intros Hpos. destruct Hsome as (pre & e & post & -> & Hd & Hpre & Hmv); [lia|].
        exists pre, e, (post ++ [x]). split; [rewrite <- app_assoc; reflexivity|].
        split; [lia|]. split; assumption.
Qed.

Lemma tally_fainted_lines es : forall t,
  all_but_last (fun e => ev_fainted e = false) es ->
  fainted_lines (fold_left (fun t e => tally_event t (Attack e)) es t)
  = fainted_lines t
    +:+ match last es with
        | Some e => if ev_fainted e then fainted_line e else ""
        | None => ""
        end.
Proof.
  induction es as [|e es IH]; intros t H.
  - cbn. symmetry. apply append_empty_r.
  - cbn [fold_left]. destruct es as [|e' es].
    + cbn. destruct (ev_fainted e); [reflexivity | symmetry; apply append_empty_r].
    + rewrite IH.
      * assert (He : ev_fainted e = false).
        { apply (H [] e (e' :: es)); [reflexivity | discriminate]. }
        cbn [tally_event fainted_lines]. rewrite He. reflexivity.
      * intros pre x post E Hne. apply (H (e :: pre) x post); [|exact Hne].
        rewrite E. reflexivity.
Qed.

Lemma battle_result_fields turns w r w' :
  battle turns w = Ok (r, w') ->
  winner r = winner_value (decided r) (final1 r) (final2 r)
  /\ final1 r = pokemon1 w' /\ final2 r = pokemon2 w'
  /\ same_combatants w w'
  /\ Forall (fun e =>
       ev_fainted e = (ev_remaining_hp e <=? 0)
       /\ is_critical e = String.eqb (ev_critical e) "Critical hit!"
       /\ is_super_effective e = String.eqb (ev_effectiveness e) "It's super effective!")
     (attacks_of_log (battle_log r)).
Proof.
  intros H.
  assert (Hw : winner r = winner_value (decided r) (final1 r) (final2 r)).
  { unfold battle in H. unfold bind at 1 2, read in H. cbn [deref] in H.
    apply bind_Ok in H. destruct H as ([ct' log'] & w1 & _ & H).
    unfold bind, read, ret in H. inversion H; subst; reflexivity. }
  split; [exact Hw|].
  enough (G : same_combatants w w'
              /\ Forall (fun e =>
                   ev_fainted e = (ev_remaining_hp e <=? 0)
                   /\ is_critical e = String.eqb (ev_critical e) "Critical hit!"
                   /\ is_super_effective e
                      = String.eqb (ev_effectiveness e) "It's super effective!")
                 (attacks_of_log (battle_log r))
              /\ final1 r = pokemon1 w' /\ final2 r = pokemon2 w') by tauto.
  apply (battle_induction (same_combatants w)) with (turns := turns) (w := w);
    [| |exact H|apply same_combatants_refl].
  - intros v v' Sv C.
    eapply same_combatants_trans; [exact C | apply same_objects_combatants, Sv].
  - intros c m v e v' C Hin St.
    split; [eapply same_combatants_trans; [exact C | eapply strike_same_combatants, St]|].
    destruct (strike_damage _ _ _ _ _ _ St) as (res & v1 & _ & _ & _ & Heff & Hcr).
    apply strike_inv in St; [|destruct c; discriminate].
    destruct St as (_ & _ & Hf & _).
    split; [exact Hf|]. unfold is_critical, is_super_effective.
    rewrite Hcr, Heff. split.
    + destruct (isCritical res); reflexivity.
    + unfold effectiveness_text.
      destruct (Qeq_bool (effectiveness res) (2 # 1)); [reflexivity|].
      destruct (Qeq_bool (effectiveness res) (1 # 2)); [reflexivity|].
      destruct (Qeq_bool (effectiveness res) (0 # 1)); reflexivity.
Qed.

(** The counters of the summary of a battle: the highest damage is the
    largest damage of the log and is credited to the earliest attack that
    dealt it, critical and super effective hits are the attacks logged as
    such, and the only line about a fainted combatant is for the last
    attack, when it brought its target to 0. *)
Theorem summary_counters_are_right turns w :
  0 <= hp1 w -> 0 <= hp2 w ->
  moves (pokemon1 w) <> [] -> moves (pokemon2 w) <> [] ->
  exists r w',
    battle turns w = Ok (r, w')
    /\ let es := attacks_of_log (battle_log r) in
       let t := highlights (battle_log r) in
       highestDamage t = max_damage es
       /\ (max_damage es = 0 -> highestDamageMove t = "")
       /\ (0 < max_damage es ->
           exists pre e post,
             es = pre ++ e :: post
             /\ ev_damage e = max_damage es
             /\ Forall (fun e' => ev_damage e' < ev_damage e) pre
             /\ highestDamageMove t = ev_attacker e +:+ " used " +:+ ev_move e)
       /\ criticalHits t
          = count (fun e => String.eqb (ev_critical e) "Critical hit!") es
       /\ superEffectiveHits t
          = count (fun e => String.eqb (ev_effectiveness e) "It's super effective!") es
       /\ fainted_lines t
          = match last es with
            | Some e => if ev_remaining_hp e <=? 0 then fainted_line e else ""
            | None => ""
            end.
Proof.
  intros A1 A2 M1 M2.
  destruct (battle_returns turns w M1 M2) as (r & w' & H).
  exists r, w'. split; [exact H|]. cbv zeta.
  destruct (battle_log_shape _ _ _ _ H) as (ts & Hlog).
  destruct (battle_result_fields _ _ _ _ H) as (_ & _ & _ & _ & Hev).
  destruct (battle_inv _ _ _ _ H A1 A2) as (ct' & ts' & P & Hts & _).
  assert (Hes : attacks_of_log (battle_log r) = attacks_of_turns ts).
  { unfold attacks_of_log. rewrite Hlog.
    change (?a :: map entry_of_turn ts ++ ?b)
      with ([a] ++ map entry_of_turn ts ++ b).
    rewrite !turns_of_log_app, turns_of_log_entries. cbn. rewrite app_nil_r.
    reflexivity. }
  assert (Hts' : ts' = ts).
  { rewrite <- Hts. unfold attacks_of_log. rewrite Hlog.
    change (?a :: map entry_of_turn ts ++ ?b)
      with ([a] ++ map entry_of_turn ts ++ b).
    rewrite !turns_of_log_app, turns_of_log_entries. cbn. apply app_nil_r. }
  subst ts'. rewrite Hts' in P.
  rewrite Hes in Hev |- *.
  unfold highlights. rewrite Hlog, middle_shape, tally_turns.
  destruct (tally_attacks (attacks_of_turns ts)) as (Hmax & Hcr & Hsu & Hnone & Hsome).
  split; [exact Hmax|]. split; [exact Hnone|]. split; [exact Hsome|].
  split; [|split].
  - rewrite Hcr. apply count_ext. eapply Forall_impl; [exact Hev|]. cbn. tauto.
  - rewrite Hsu. apply count_ext. eapply Forall_impl; [exact Hev|]. cbn. tauto.
  - rewrite tally_fainted_lines.
    + cbn [fainted_lines String.append].
      destruct (last (attacks_of_turns ts)) as [e|] eqn:El; [|reflexivity].
      apply last_Some in El. destruct El as (l' & El).
      rewrite El in Hev. apply Forall_app in Hev. destruct Hev as [_ Hev].
      apply Forall_inv in Hev. destruct Hev as (-> & _). reflexivity.
    + intros pre x post E Hne.
      pose proof (lp_attacks _ _ _ _ _ _ P pre x post E Hne) as Hst.
      rewrite E in Hev. apply Forall_app in Hev. destruct Hev as [_ Hev].
      apply Forall_inv in Hev. destruct Hev as (-> & _).
      unfold stands in Hst. apply Z.leb_gt. exact Hst.
Qed.

Lemma summary_counters_are_right_witness :
  exists r w',
    battle None sample_world = Ok (r, w')
    /\ let es := attacks_of_log (battle_log r) in
       let t := highlights (battle_log r) in
       highestDamage t = max_damage es
       /\ (max_damage es = 0 -> highestDamageMove t = "")
       /\ (0 < max_damage es ->
           exists pre e post,
             es = pre ++ e :: post
             /\ ev_damage e = max_damage es
             /\ Forall (fun e' => ev_damage e' < ev_damage e) pre
             /\ highestDamageMove t = ev_attacker e +:+ " used " +:+ ev_move e)
       /\ criticalHits t
          = count (fun e => String.eqb (ev_critical e) "Critical hit!") es
       /\ superEffectiveHits t
          = count (fun e => String.eqb (ev_effectiveness e) "It's super effective!") es
       /\ fainted_lines t
          = match last es with
            | Some e => if ev_remaining_hp e <=? 0 then fainted_line e else ""
            | None => ""
            end.
Proof.
  apply (summary_counters_are_right None sample_world).
  - unfold hp1. cbn. lia.
  - unfold hp2. cbn. lia.
  - cbn. discriminate.
  - cbn. discriminate.
Defined.

Lemma final_objects_names p1 p2 w w' :
  same_combatants w w' -> p1 = pokemon1 w' -> p2 = pokemon2 w' ->
  name p1 = name (pokemon1 w) /\ name p2 = name (pokemon2 w)
  /\ hp (pstats p1) = hp (pstats (pokemon1 w))
  /\ hp (pstats p2) = hp (pstats (pokemon2 w)).
Proof.
  intros (C1 & C2 & _) -> ->. rewrite C1, C2. repeat split.
Qed.

(** The summary of a battle is always produced, and it closes with the
    outcome: a draw, or the winner with its remaining and full hit points.
    The winner is recognised by its name: when both combatants have the same
    name the hit points shown are those of the first one, also when the
    second one has won. *)
Theorem summary_closes_with_the_outcome turns w :
  moves (pokemon1 w) <> [] -> moves (pokemon2 w) <> [] ->
  name (pokemon1 w) <> "draw" -> name (pokemon2 w) <> "draw" ->
  exists r w' prefix closing,
    battle turns w = Ok (r, w')
    /\ generateBattleSummary (battle_log r) (final1 r) (final2 r)
       = Ok (prefix +:+ closing)
    /\ (decided r = Draw ->
        closing = "The battle ended in a draw!" +:+ JS.newline)
    /\ (forall c, decided r = Winner c ->
        let shown := if String.eqb (name (pokemon2 w)) (name (pokemon1 w))
                     then P1 else c in
        closing
        = name (deref w c) +:+ " had "
          +:+ JS.String_of_number (current_hp (deref w' shown)) +:+ "/"
          +:+ JS.String_of_number (hp (pstats (deref w shown)))
          +:+ " HP remaining." +:+ JS.newline).
Proof.
  intros M1 M2 N1 N2.
  destruct (battle_returns turns w M1 M2) as (r & w' & H).
  destruct (battle_log_shape _ _ _ _ H) as (ts & Hlog).
  destruct (battle_result_fields _ _ _ _ H) as (Hw & F1 & F2 & C & _).
  destruct (final_objects_names _ _ _ _ C F1 F2) as (E1 & E2 & X1 & X2).
  set (t := highlights (battle_log r)).
  exists r, w',
    (summary_header (final1 r) (final2 r) +:+ fainted_lines t +:+ summary_counters t
     +:+ "BATTLE RESULT: " +:+ JS.toUpperCase (winner r) +:+ " wins in "
     +:+ JS.String_of_number (turns_run r) +:+ " turns!" +:+ JS.newline),
    (summary_closing (winner r) (current_hp (final1 r)) (current_hp (final2 r))
       (final1 r) (final2 r)).
  split; [exact H|]. split.
  - unfold generateBattleSummary. fold t.
    assert (Hl : last (battle_log r)
                 = Some (battle_end (turns_run r) (winner r)
                           (current_hp (final1 r)) (current_hp (final2 r)))).
    { rewrite Hlog. rewrite app_comm_cons. apply last_snoc. }
    rewrite Hl. f_equal. rewrite !append_assoc. reflexivity.
  - unfold summary_closing. rewrite Hw. split.
    + intros ->. reflexivity.
    + intros c ->. cbv zeta.
      assert (Hd1 : String.eqb (name (pokemon1 w)) "draw" = false)
        by (apply String.eqb_neq; exact N1).
      assert (Hd2 : String.eqb (name (pokemon2 w)) "draw" = false)
        by (apply String.eqb_neq; exact N2).
      destruct c; cbn [winner_value deref].
      * rewrite E1, Hd1, String.eqb_refl. cbn [negb]. cbv iota.
        rewrite E1, X1, F1.
        destruct (String.eqb (name (pokemon2 w)) (name (pokemon1 w))); reflexivity.
      * rewrite E1, E2, Hd2. cbn [negb]. cbv iota.
        destruct (String.eqb (name (pokemon2 w)) (name (pokemon1 w))) eqn:En; cbv iota.
        -- apply String.eqb_eq in En. rewrite E1, X1, F1, En. reflexivity.
        -- rewrite E2, X2, F2. reflexivity.
Qed.

Lemma summary_closes_with_the_outcome_witness :
  exists r w' prefix closing,
    battle None sample_world = Ok (r, w')
    /\ generateBattleSummary (battle_log r) (final1 r) (final2 r)
       = Ok (prefix +:+ closing)
    /\ (decided r = Draw ->
        closing = "The battle ended in a draw!" +:+ JS.newline)
    /\ (forall c, decided r = Winner c ->
        let shown := if String.eqb (name (pokemon2 sample_world))
                                   (name (pokemon1 sample_world))
                     then P1 else c in
        closing
        = name (deref sample_world c) +:+ " had "
          +:+ JS.String_of_number (current_hp (deref w' shown)) +:+ "/"
          +:+ JS.String_of_number (hp (pstats (deref sample_world shown)))
          +:+ " HP remaining." +:+ JS.newline).
Proof.
  apply (summary_closes_with_the_outcome None sample_world).
  - cbn. discriminate.
  - cbn. discriminate.
  - cbn. discriminate.
  - cbn. discriminate.
Defined.

Example sample_summary_closing :
  match battle None sample_world with
  | Ok (r, _) =>
      match generateBattleSummary (battle_log r) (final1 r) (final2 r) with
      | Ok text =>
          JS.includes text "- gastly fainted after rattata used tackle!" = true
          /\ JS.includes text "- Highest damage: rattata used tackle dealt 39 damage" = true
          /\ JS.includes text "BATTLE RESULT: RATTATA wins in 3 turns!" = true
          /\ JS.includes text "rattata had 37/105 HP remaining." = true
      | _ => False
      end
  | _ => False
  end.
Proof. vm_compute. repeat split. Qed.

End BattleFacts.

(** ** The tools *)

Module ToolsFacts.

Import JS Tools.

Section World.

Variable W : Type.
Variable query_all : string -> list json -> W -> completion (list json) * W.
Variable query_get : string -> list json -> W -> completion json * W.
Variable query_run : string -> list json -> W -> completion unit * W.
Variable fetch : string -> W -> completion response * W.
Variable Math_random : W -> Q * W.
Variable now_ISO : W -> string * W.
Variable String_of : json -> string.

Lemma try_catch_returns {A : Type} (body : M W (output A)) w :
  exists v w', try_catch W body w = (Returns v, w').
Proof.
  unfold try_catch. destruct (body w) as [[v|e] w']; eauto.
Qed.

Lemma try_catch_failure {A : Type} (body : M W (output A)) w e w' :
  body w = (Throws e, w') -> try_catch W body w = (Returns (Failure e), w').
Proof. intros H. unfold try_catch. rewrite H. reflexivity. Qed.

Lemma try_catch_success {A : Type} (body : M W (output A)) w v w' :
  body w = (Returns v, w') -> try_catch W body w = (Returns v, w').
Proof. intros H. unfold try_catch. rewrite H. reflexivity. Qed.

(** Every tool but [sqlite_schedule_read] is its [try] block under
    [try_catch]. *)
Lemma exposed_run_is_try t :
  In t (exposed_tools W query_all query_get query_run fetch Math_random now_ISO
          String_of) ->
  tool_name W t <> "sqlite_schedule_read" ->
  forall a, tool_run W t a = try_catch W (tool_try W t a).
Proof.
  unfold exposed_tools. cbn [In].
  intros H Hname.
  repeat (destruct H as [<-|H]; [first [reflexivity | exfalso; apply Hname; reflexivity]|]).
  contradiction.
Qed.

(** C2, as the code has it.  Each tool handed to the agent other than
    [sqlite_schedule_read] always returns, and returns
    [{success: false, error}] with the message of any exception its [try]
    block raises; [sqlite_schedule_read] does the same for a query that
    begins with [select] after trimming and lower-casing, and for any other
    query its [run] throws the error "Only SELECT queries are allowed with
    this tool." instead of returning; [battle_pokemon] always answers with a
    success or a failure value. *)
Theorem tools_report_failures :
  (forall t,
     In t (exposed_tools W query_all query_get query_run fetch Math_random now_ISO
             String_of) ->
     tool_name W t <> "sqlite_schedule_read" ->
     forall a w,
       (exists v w', tool_run W t a w = (Returns v, w'))
       /\ (forall e w', tool_try W t a w = (Throws e, w') ->
                        tool_run W t a w = (Returns (Failure e), w')))
  /\ (forall query w,
        startsWith (toLowerCase (trim query)) "select" = true ->
        (exists v w', sqlite_schedule_read W query_all query w = (Returns v, w'))
        /\ (forall e w',
              sqlite_schedule_read_try W query_all query w = (Throws e, w') ->
              sqlite_schedule_read W query_all query w = (Returns (Failure e), w')))
  /\ (forall query w,
        startsWith (toLowerCase (trim query)) "select" = false ->
        sqlite_schedule_read W query_all query w
        = (Throws "Only SELECT queries are allowed with this tool.", w))
  /\ (forall api rng input, exists out, Battle.battle_pokemon api rng input = Ok out).
Proof.
  split; [|split; [|split]].
  - intros t Hin Hname a w. rewrite (exposed_run_is_try t Hin Hname a).
    split; [apply try_catch_returns | apply try_catch_failure].
  - intros query w Hsel. unfold sqlite_schedule_read. rewrite Hsel. cbn [negb].
    split; [apply try_catch_returns | apply try_catch_failure].
  - intros query w Hsel. unfold sqlite_schedule_read. rewrite Hsel. reflexivity.
  - apply BattleFacts.battle_pokemon_answers.
Qed.

End World.

(** C2 does not hold as stated: for the query "DROP TABLE talks", which does
    not begin with [select], [sqlite_schedule_read] throws; it does not
    return a failure value. *)
Lemma non_select_query_throws :
  startsWith (toLowerCase (trim "DROP TABLE talks")) "select" = false
  /\ sqlite_schedule_read unit empty_answers "DROP TABLE talks" tt
     = (Throws "Only SELECT queries are allowed with this tool.", tt)
  /\ ~ (exists out w',
          sqlite_schedule_read unit empty_answers "DROP TABLE talks" tt
          = (Returns out, w')).
Proof.
  split; [reflexivity|]. split; [reflexivity|].
  intros (out & w' & H). discriminate H.
Qed.

Lemma tools_report_failures_witness :
  sqlite_schedule_read unit empty_answers "delete from talks" tt
  = (Throws "Only SELECT queries are allowed with this tool.", tt).
Proof.
  apply (tools_report_failures unit empty_answers
           (fun _ _ w => (Returns JNull, w)) (fun _ _ w => (Returns tt, w))
           (fun _ w => (Throws "offline", w)) (fun w => (0 # 1, w)%Q)
           (fun w => (EmptyString, w)) (fun _ => EmptyString)).
  reflexivity.
Defined.

(** White space outside ASCII is trimmed as well: a byte order mark or a
    no-break space before [select] does not make the guard throw. *)
Example trim_strips_unicode_white_space :
  trim (BOM +:+ NBSP +:+ "  select 1 " +:+ NBSP +:+ BOM) = "select 1"
  /\ sqlite_schedule_read unit empty_answers (BOM +:+ "select 1 as one") tt
     = (Returns (Success []), tt)
  /\ sqlite_schedule_read unit empty_answers (NBSP +:+ "SELECT 1") tt
     = (Returns (Success []), tt).
Proof. repeat split. Qed.

Example select_query_is_run :
  sqlite_schedule_read unit empty_answers "  SeLeCT * FROM talks" tt
  = (Returns (Success []), tt).
Proof. reflexivity. Qed.

(** *** Strings and objects *)

(** A character that lower-cases to a letter a-z is a letter of ASCII. *)
Lemma lower_letter_is_ascii c :
  (let n := nat_of_ascii (lower_char c) in (97 <=? n)%nat && (n <=? 122)%nat) = true ->
  (nat_of_ascii c <? 128)%nat = true /\ is_white_space c = false.
Proof.
  destruct c as [[] [] [] [] [] [] [] []]; cbv; intros H;
    first [discriminate H | split; reflexivity].
Qed.

(** No byte of ASCII starts the encoding of a white space of two or three
    bytes. *)
Lemma ascii_starts_no_white_space a :
  (nat_of_ascii a <? 128)%nat = true ->
  (forall b, is_white_space2 a b = false)
  /\ (forall b c, is_white_space3 a b c = false).
Proof.
  destruct a as [[] [] [] [] [] [] [] []]; intros H;
    first [discriminate H | split; intros; reflexivity].
Qed.

Lemma trimStart_white_space_upto n : forall ws s,
  (String.length ws <= n)%nat ->
  all_white_space ws = true -> trimStart (ws +:+ s) = trimStart s.
Proof.
  induction n as [|n IH]; intros ws s Hlen Hws.
  - destruct ws; [reflexivity | cbn [String.length] in Hlen; lia].
  - destruct ws as [|a ws1]; [reflexivity|].
    cbn [String.length] in Hlen. cbn [all_white_space] in Hws.
    change (String a ws1 +:+ s) with (String a (ws1 +:+ s)). cbn [trimStart].
    destruct (is_white_space a); [apply IH; [lia | exact Hws]|].
    destruct ws1 as [|b ws2]; [discriminate|].
    cbn [String.length] in Hlen.
    change (String b ws2 +:+ s) with (String b (ws2 +:+ s)). cbv iota.
    destruct (is_white_space2 a b); [apply IH; [lia | exact Hws]|].
    destruct ws2 as [|c ws3]; [discriminate|].
    cbn [String.length] in Hlen.
    change (String c ws3 +:+ s) with (String c (ws3 +:+ s)). cbv iota.
    apply andb_true_iff in Hws. destruct Hws as [H3 Hws]. rewrite H3.
    apply IH; [lia | exact Hws].
Qed.

Lemma trimStart_white_space ws s :
  all_white_space ws = true -> trimStart (ws +:+ s) = trimStart s.
Proof. apply (trimStart_white_space_upto (String.length ws)). lia. Qed.

Lemma trimStart_letter c s :
  (nat_of_ascii c <? 128)%nat = true -> is_white_space c = false ->
  trimStart (String c s) = String c s.
Proof.
  intros Ha Hw. destruct (ascii_starts_no_white_space c Ha) as [H2 H3].
  cbn [trimStart]. rewrite Hw.
  destruct s as [|b s2]; [reflexivity|]. rewrite H2.
  destruct s2 as [|d s3]; [reflexivity|]. rewrite H3. reflexivity.
Qed.

Lemma trimEnd_letter c s :
  (nat_of_ascii c <? 128)%nat = true -> is_white_space c = false ->
  trimEnd (String c s) = String c (trimEnd s).
Proof.
  intros Ha Hw. destruct (ascii_starts_no_white_space c Ha) as [H2 H3].
  cbn [trimEnd all_white_space]. rewrite Hw.
  destruct s as [|b s2]; [reflexivity|]. rewrite H2.
  destruct s2 as [|d s3]; [reflexivity|]. rewrite H3. reflexivity.
Qed.

(** A query that has the word [select], in any case, after leading white
    space passes the guard of [sqlite_schedule_read], whatever follows. *)
Lemma select_prefix_passes ws kw rest :
  all_white_space ws = true -> toLowerCase kw = "select" ->
  startsWith (toLowerCase (trim (ws +:+ kw +:+ rest))) "select" = true.
Proof.
  intros Hws Hkw. unfold trim. rewrite (trimStart_white_space _ _ Hws).
  destruct kw as [|c1 [|c2 [|c3 [|c4 [|c5 [|c6 [|c7 kw]]]]]]]; try discriminate.
  cbn [toLowerCase] in Hkw. injection Hkw as H1 H2 H3 H4 H5 H6.
  assert (L1 := lower_letter_is_ascii c1). rewrite H1 in L1. destruct (L1 eq_refl) as [A1 W1].
  assert (L2 := lower_letter_is_ascii c2). rewrite H2 in L2. destruct (L2 eq_refl) as [A2 W2].
  assert (L3 := lower_letter_is_ascii c3). rewrite H3 in L3. destruct (L3 eq_refl) as [A3 W3].
  assert (L4 := lower_letter_is_ascii c4). rewrite H4 in L4. destruct (L4 eq_refl) as [A4 W4].
  assert (L5 := lower_letter_is_ascii c5). rewrite H5 in L5. destruct (L5 eq_refl) as [A5 W5].
  assert (L6 := lower_letter_is_ascii c6). rewrite H6 in L6. destruct (L6 eq_refl) as [A6 W6].
  change (String c1 (String c2 (String c3 (String c4 (String c5 (String c6 ""))))) +:+ rest)
    with (String c1 (String c2 (String c3 (String c4 (String c5 (String c6 rest)))))).
  rewrite (trimStart_letter c1 _ A1 W1).
  rewrite (trimEnd_letter c1 _ A1 W1), (trimEnd_letter c2 _ A2 W2),
    (trimEnd_letter c3 _ A3 W3), (trimEnd_letter c4 _ A4 W4),
    (trimEnd_letter c5 _ A5 W5), (trimEnd_letter c6 _ A6 W6).
  cbn [toLowerCase]. rewrite H1, H2, H3, H4, H5, H6. unfold startsWith.
  set (tl := toLowerCase (trimEnd rest)). clearbody tl. destruct tl; reflexivity.
Qed.

Lemma prop_delete_prop_same {A : Type} (obj : list (string * A)) k :
  prop (delete_prop obj k) k = None.
Proof.
  unfold delete_prop. induction obj as [|[k' v] obj IH]; [reflexivity|].
  rewrite filter_cons. cbn [fst]. destruct (String.eqb k' k) eqn:E; cbn [negb].
  - rewrite decide_False by discriminate. exact IH.
  - rewrite decide_True by reflexivity. cbn [prop]. rewrite E. exact IH.
Qed.

Lemma prop_delete_prop_other {A : Type} (obj : list (string * A)) k k' :
  k <> k' -> prop (delete_prop obj k') k = prop obj k.
Proof.
  intros Hne. unfold delete_prop. induction obj as [|[k0 v] obj IH]; [reflexivity|].
  rewrite filter_cons. cbn [fst]. destruct (String.eqb k0 k') eqn:E; cbn [negb].
  - rewrite decide_False by discriminate. rewrite IH. cbn [prop].
    apply String.eqb_eq in E. subst k0.
    assert (String.eqb k' k = false) as -> by (apply String.eqb_neq; congruence).
    reflexivity.
  - rewrite decide_True by reflexivity. cbn [prop]. rewrite IH. reflexivity.
Qed.

Lemma prop_set_prop_other {A : Type} (obj : list (string * A)) k k' v :
  k <> k' -> prop (set_prop obj k' v) k = prop obj k.
Proof.
  intros Hne. induction obj as [|[k0 v0] obj IH]; cbn [set_prop prop].
  - assert (String.eqb k' k = false) as -> by (apply String.eqb_neq; congruence).
    reflexivity.
  - destruct (String.eqb k0 k') eqn:E; cbn [prop].
    + apply String.eqb_eq in E. subst k0.
      assert (String.eqb k' k = false) as -> by (apply String.eqb_neq; congruence).
      reflexivity.
    + rewrite IH. reflexivity.
Qed.

Section MoreTools.

Variable W : Type.
Variable query_all : string -> list json -> W -> completion (list json) * W.
Variable query_get : string -> list json -> W -> completion json * W.
Variable query_run : string -> list json -> W -> completion unit * W.
Variable fetch : string -> W -> completion response * W.
Variable Math_random : W -> Q * W.
Variable now_ISO : W -> string * W.
Variable String_of : json -> string.

(** The guard of [sqlite_schedule_read] looks at the first word only: a
    query that starts with [select], in any case and after any white space,
    is handed to the database as it was written, whatever follows the word;
    the rows come back as a success, an exception as a failure. *)
Theorem select_guard_checks_only_the_prefix ws kw rest w :
  all_white_space ws = true -> toLowerCase kw = "select" ->
  sqlite_schedule_read W query_all (ws +:+ kw +:+ rest) w
  = match query_all (ws +:+ kw +:+ rest) [] w with
    | (Returns rows, w') => (Returns (Success rows), w')
    | (Throws e, w') => (Returns (Failure e), w')
    end.
Proof.
  intros Hws Hkw. unfold sqlite_schedule_read.
  rewrite (select_prefix_passes ws kw rest Hws Hkw). cbn [negb].
  unfold try_catch, sqlite_schedule_read_try, bind, ret.
  destruct (query_all (ws +:+ kw +:+ rest) [] w) as [[rows|e] w']; reflexivity.
Qed.






(** [release_pokemon] deletes nothing when no caught Pokemon has the id: it
    answers with a failure and the world is as the [SELECT] left it.  When
    there is a row and the [DELETE] is accepted, the answer is a success. *)
Theorem release_pokemon_checks_before_deleting pokemon_id w row w1 :
  query_get release_select_sql [JNumber pokemon_id] w = (Returns row, w1) ->
  (truthy row = false ->
   release_pokemon W query_get query_run String_of pokemon_id w
   = (Returns (Failure ("No caught Pokemon found with ID: "
                        +:+ String_of (JNumber pokemon_id))), w1))
  /\ (truthy row = true ->
      forall w2,
        query_run release_delete_sql [JNumber pokemon_id] w1 = (Returns tt, w2) ->
        exists message,
          release_pokemon W query_get query_run String_of pokemon_id w
          = (Returns (Success message), w2)).
Proof.
  intros E. unfold release_select_sql in E. split.
  - intros Hf. unfold release_pokemon, try_catch, release_pokemon_try.
    unfold bind at 1. rewrite E, Hf. reflexivity.
  - intros Ht w2 D. unfold release_delete_sql in D.
    unfold release_pokemon, try_catch, release_pokemon_try.
    unfold bind at 1. rewrite E, Ht. cbn [negb].
    unfold bind at 1. rewrite D.
    unfold bind, lift, ret.
    destruct row as [| |b|n|t|items|fields]; try discriminate; cbn [get];
      try (eexists; reflexivity).
    destruct (truthy (match prop fields "nickname" with
                      | Some x => x
                      | None => JUndefined
                      end)); eexists; reflexivity.
Qed.

(** The defaults of [catch_pokemon]: a level that is omitted or 0 is level
    50, and a location that is omitted or empty is "Unknown location", in
    the row stored and in the answer. *)
Theorem catch_pokemon_defaults input w :
  level input = None \/ level input = Some 0%Z ->
  location input = None \/ location input = Some "" ->
  catch_pokemon W query_run fetch Math_random now_ISO String_of input w
  = catch_pokemon W query_run fetch Math_random now_ISO String_of
      {| pokemon_id_or_name := pokemon_id_or_name input;
         nickname := nickname input;
         location := Some "Unknown location";
         level := Some 50%Z |} w.
Proof.
  destruct input as [k nick loc lvl]. cbn [level location pokemon_id_or_name nickname].
  intros [-> | ->] [-> | ->]; reflexivity.
Qed.

End MoreTools.

(** A compressed document is an object without the four verbose fields, and
    with every other field but [stats] as the document has it. *)
Theorem compressPokemonData_drops_verbose_fields String_of data v :
  compressPokemonData String_of data = Returns v ->
  exists fields,
    v = JObject fields
    /\ Forall (fun k => prop fields k = None) verbose_fields
    /\ forall k, ~ In k verbose_fields -> k <> "stats" ->
                 prop fields k = prop (spread String_of data) k.
Proof.
  unfold compressPokemonData. cbv zeta.
  set (c := delete_prop _ "held_items").
  assert (Hdrop : Forall (fun k => prop c k = None) verbose_fields).
  { unfold c, verbose_fields. repeat constructor.
    - rewrite !prop_delete_prop_other by discriminate. apply prop_delete_prop_same.
    - rewrite !prop_delete_prop_other by discriminate. apply prop_delete_prop_same.
    - rewrite !prop_delete_prop_other by discriminate. apply prop_delete_prop_same.
    - apply prop_delete_prop_same. }
  assert (Hkeep : forall k, ~ In k verbose_fields ->
                            prop c k = prop (spread String_of data) k).
  { intros k Hk. unfold c. unfold verbose_fields in Hk. cbn [In] in Hk.
    rewrite !prop_delete_prop_other; [reflexivity| | | |]; intros ->; tauto. }
  assert (Hplain : exists fields,
            JObject c = JObject fields
            /\ Forall (fun k => prop fields k = None) verbose_fields
            /\ forall k, ~ In k verbose_fields -> k <> "stats" ->
                         prop fields k = prop (spread String_of data) k).
  { exists c. split; [reflexivity|]. split; [exact Hdrop|]. intros k Hk _. apply Hkeep, Hk. }
  destruct (prop c "stats") as [stats|]; [|intros H; inversion H; subst; exact Hplain].
  destruct (truthy stats); [|intros H; inversion H; subst; exact Hplain].
  unfold Bind. destruct (array_method stats "forEach") as [items|e]; [|discriminate].
  destruct (map_completion _ items) as [pairs|e]; [|discriminate].
  intros H. inversion H; subst v; clear H.
  eexists. split; [reflexivity|]. split.
  - apply Forall_forall. intros k Hk. rewrite Forall_forall in Hdrop.
    rewrite prop_set_prop_other; [apply Hdrop, Hk|].
    intros ->. apply list_elem_of_In in Hk. unfold verbose_fields in Hk. cbn [In] in Hk.
    repeat (destruct Hk as [Hk|Hk]; [discriminate|]). exact Hk.
  - intros k Hk Hne. rewrite prop_set_prop_other by exact Hne. apply Hkeep, Hk.
Qed.

Lemma select_guard_checks_only_the_prefix_witness :
  sqlite_schedule_read unit empty_answers
    ((BOM +:+ NBSP +:+ " ") +:+ "SeLeCT" +:+ " 1; DROP TABLE talks") tt
  = match empty_answers ((BOM +:+ NBSP +:+ " ") +:+ "SeLeCT" +:+ " 1; DROP TABLE talks")
            [] tt with
    | (Returns rows, w') => (Returns (Success rows), w')
    | (Throws e, w') => (Returns (Failure e), w')
    end.
Proof.
  apply (select_guard_checks_only_the_prefix unit empty_answers
           (BOM +:+ NBSP +:+ " ") "SeLeCT" " 1; DROP TABLE talks" tt).
  - reflexivity.
  - reflexivity.
Defined.



Lemma release_pokemon_checks_before_deleting_witness :
  (truthy JUndefined = false ->
   release_pokemon (list string) no_row logged_run plain_text 7 []
   = (Returns (Failure ("No caught Pokemon found with ID: "
                        +:+ plain_text (JNumber 7))), []))
  /\ (truthy JUndefined = true ->
      forall w2,
        logged_run release_delete_sql [JNumber 7] [] = (Returns tt, w2) ->
        exists message,
          release_pokemon (list string) no_row logged_run plain_text 7 []
          = (Returns (Success message), w2)).
Proof.
  apply (release_pokemon_checks_before_deleting (list string) no_row logged_run
           plain_text 7 [] JUndefined []).
  reflexivity.
Defined.

Lemma catch_pokemon_defaults_witness :
  catch_pokemon (list string) logged_run found_mew fixed_random fixed_clock plain_text
    {| pokemon_id_or_name := inr "Mew"; nickname := Some "Sparky"; location := Some "";
       level := Some 0%Z |} []
  = catch_pokemon (list string) logged_run found_mew fixed_random fixed_clock plain_text
      {| pokemon_id_or_name := inr "Mew"; nickname := Some "Sparky";
         location := Some "Unknown location"; level := Some 50%Z |} [].
Proof.
  apply (catch_pokemon_defaults (list string) logged_run found_mew fixed_random
           fixed_clock plain_text
           {| pokemon_id_or_name := inr "Mew"; nickname := Some "Sparky";
              location := Some ""; level := Some 0%Z |} []).
  - right. reflexivity.
  - right. reflexivity.
Defined.

Lemma compressPokemonData_drops_verbose_fields_witness :
  exists fields,
    JObject [("id", JNumber 151); ("name", JString "mew");
             ("stats", JObject [("hp", JNumber 100)])]
    = JObject fields
    /\ Forall (fun k => prop fields k = None) verbose_fields
    /\ forall k, ~ In k verbose_fields -> k <> "stats" ->
                 prop fields k = prop (spread plain_text sample_document) k.
Proof.
  apply (compressPokemonData_drops_verbose_fields plain_text sample_document).
  reflexivity.
Defined.

End ToolsFacts.

(** ** The importer *)

Module ScheduleFacts.

Import JS Schedule.

Lemma insert_or_ignore (p : Z * string) (s : gset (Z * string)) :
  (if decide (p ∈ s) then s else {[ p ]} ∪ s) = {[ p ]} ∪ s.
Proof.
  case_decide as Hin; [|reflexivity].
  apply set_eq. intros x. rewrite elem_of_union, elem_of_singleton.
  split; [auto|]. intros [->|Hx]; assumption.
Qed.

Lemma union_difference_singleton (p : Z * string) (s : gset (Z * string)) :
  {[ p ]} ∪ (s ∖ {[ p ]}) = {[ p ]} ∪ s.
Proof.
  apply set_eq. intros x.
  rewrite !elem_of_union, elem_of_difference, elem_of_singleton.
  destruct (decide (x = p)); tauto.
Qed.

Lemma difference_union_singleton (p : Z * string) (s : gset (Z * string)) :
  ({[ p ]} ∪ s) ∖ {[ p ]} = s ∖ {[ p ]}.
Proof.
  apply set_eq. intros x.
  rewrite !elem_of_difference, elem_of_union, elem_of_singleton. tauto.
Qed.

Lemma difference_union_other (p q : Z * string) (s : gset (Z * string)) :
  ({[ q ]} ∪ s) ∖ {[ p ]} = ({[ q ]} ∖ {[ p ]}) ∪ (s ∖ {[ p ]}).
Proof.
  apply set_eq. intros x.
  rewrite !elem_of_union, !elem_of_difference, elem_of_union. tauto.
Qed.

Lemma clashes_self id row : clashes id row (id, row).
Proof. left. reflexivity. Qed.

Lemma filter_clashes_insert id row (m : gmap Z talk_row) :
  filter (fun kv => ~ clashes id row kv) (<[id := row]> m)
  = filter (fun kv => ~ clashes id row kv) m.
Proof.
  apply map_filter_insert_not. intros y Hn. apply Hn. left. reflexivity.
Qed.

Lemma filter_clashes_twice id row (m : gmap Z talk_row) :
  filter (fun kv => ~ clashes id row kv) (filter (fun kv => ~ clashes id row kv) m)
  = filter (fun kv => ~ clashes id row kv) m.
Proof.
  rewrite map_filter_filter. apply map_filter_ext. intros i x _. tauto.
Qed.

(** A statement reads nothing of what it overwrites. *)
Lemma effect_erase s d : effect s (erase s d) = effect s d.
Proof.
  destruct s, d; cbn; f_equal.
  - rewrite filter_clashes_twice. reflexivity.
  - apply insert_delete_eq.
  - apply insert_delete_eq.
  - apply insert_delete_eq.
  - rewrite !insert_or_ignore. apply union_difference_singleton.
Qed.

(** It leaves the rest as it was. *)
Lemma erase_effect s d : erase s (effect s d) = erase s d.
Proof.
  destruct s, d; cbn; f_equal.
  - rewrite filter_clashes_insert. apply filter_clashes_twice.
  - apply delete_insert_eq.
  - apply delete_insert_eq.
  - apply delete_insert_eq.
  - rewrite insert_or_ignore. apply difference_union_singleton.
Qed.

Lemma erase_talks_effect id row j row' (m : gmap Z talk_row) :
  filter (fun kv => ~ clashes id row kv)
    (<[j := row']> (filter (fun kv => ~ clashes j row' kv) m))
  = if decide (~ clashes id row (j, row'))
    then <[j := row']>
           (filter (fun kv => ~ clashes j row' kv)
              (filter (fun kv => ~ clashes id row kv) m))
    else delete j
           (filter (fun kv => ~ clashes j row' kv)
              (filter (fun kv => ~ clashes id row kv) m)).
Proof.
  rewrite map_filter_insert.
  rewrite (map_filter_comm (fun kv => ~ clashes j row' kv)).
  case_decide; [reflexivity|].
  rewrite map_filter_delete. reflexivity.
Qed.

(** What is left of the rest after another statement depends on the rest
    only. *)
Lemma erase_effect_other s t d d' :
  erase s d = erase s d' -> erase s (effect t d) = erase s (effect t d').
Proof.
  destruct d as [a b c e f], d' as [a' b' c' e' f'].
  destruct s as [i r|i r|i r|i r|i j], t as [k q|k q|k q|k q|k l]; cbn;
    intros H; injection H as Ha Hb Hc He Hf; subst; try reflexivity;
    f_equal; try assumption.
  - rewrite !erase_talks_effect, Ha. reflexivity.
  - rewrite !delete_insert, Hb. reflexivity.
  - rewrite !delete_insert, Hc. reflexivity.
  - rewrite !delete_insert, He. reflexivity.
  - rewrite !insert_or_ignore, !difference_union_other, Hf. reflexivity.
Qed.

Lemma erase_effects s l : forall d d',
  erase s d = erase s d' -> erase s (effects l d) = erase s (effects l d').
Proof.
  induction l as [|t l IH]; intros d d' H; [exact H|].
  cbn. apply IH. apply erase_effect_other. exact H.
Qed.

(** A statement issued again after others undoes nothing they did that it
    does not redo. *)
Lemma effect_absorbs s l d :
  effect s (effects l (effect s d)) = effect s (effects l d).
Proof.
  rewrite <- (effect_erase s (effects l (effect s d))).
  rewrite <- (effect_erase s (effects l d)).
  f_equal. apply erase_effects. apply erase_effect.
Qed.

Lemma effects_app l1 l2 d : effects (l1 ++ l2) d = effects l2 (effects l1 d).
Proof. apply fold_left_app. Qed.

Lemma effects_idempotent l : forall d, effects l (effects l d) = effects l d.
Proof.
  induction l as [|s l IH] using rev_ind; intros d; [reflexivity|].
  rewrite !effects_app. cbn.
  rewrite effect_absorbs. rewrite IH. reflexivity.
Qed.

(** Each statement is an upsert on its key: issued twice it does what it
    does once, the row it carries is the row found under its key, and an
    association already present is left alone. *)
Lemma effect_twice s d : effect s (effect s d) = effect s d.
Proof. apply (effect_absorbs s [] d). Qed.

Lemma insertRoom_replaces id row d : rooms (effect (insertRoom id row) d) !! id = Some row.
Proof. cbn. apply lookup_insert_eq. Qed.

Lemma insertTrack_replaces id row d : tracks (effect (insertTrack id row) d) !! id = Some row.
Proof. cbn. apply lookup_insert_eq. Qed.

Lemma insertSpeaker_replaces c row d :
  speakers (effect (insertSpeaker c row) d) !! c = Some row.
Proof. cbn. apply lookup_insert_eq. Qed.

Lemma insertTalk_replaces id row d : talks (effect (insertTalk id row) d) !! id = Some row.
Proof. cbn. apply lookup_insert_eq. Qed.

Lemma insertTalkSpeaker_ignores t c d :
  (t, c) ∈ talk_speakers d -> effect (insertTalkSpeaker t c) d = d.
Proof.
  intros Hin. destruct d. cbn in *. f_equal.
  destruct (decide ((t, c) ∈ talk_speakers0)); [reflexivity | contradiction].
Qed.

Section Engine.

Variable rejects : statement -> database -> option string.
Variable JSON_stringify : json -> json.

Lemma run_all_Returns l : forall d u d',
  run_all rejects l d = Returns (u, d') -> d' = effects l d.
Proof.
  induction l as [|s l IH]; intros d u d' H.
  - cbn in H. unfold ret in H. inversion H. reflexivity.
  - cbn in H. unfold bind, run in H.
    destruct (rejects s d); [discriminate|].
    apply (IH _ _ _ H).
Qed.

Lemma run_all_app l1 l2 d :
  run_all rejects (l1 ++ l2) d
  = match run_all rejects l1 d with
    | Returns (_, d') => run_all rejects l2 d'
    | Throws e => Throws e
    end.
Proof.
  revert d. induction l1 as [|s l1 IH]; intros d; [reflexivity|].
  cbn. unfold bind, run. destruct (rejects s d); [reflexivity|]. apply IH.
Qed.

Lemma for_of_map {A : Type} (f : A -> statement) l d :
  for_of l (fun x => run rejects (f x)) d = run_all rejects (map f l) d.
Proof.
  revert d. induction l as [|x l IH]; intros d; [reflexivity|].
  cbn. unfold bind. destruct (run rejects (f x) d) as [[u d']|e]; [apply IH|reflexivity].
Qed.

Lemma if_array_map {A : Type} (f : A -> statement) a d :
  if_array a (fun x => run rejects (f x)) d = run_all rejects (map f (array a)) d.
Proof. destruct a as [l|]; [apply for_of_map | reflexivity]. Qed.

Lemma talk_body talk d :
  bind (run rejects (talk_statement JSON_stringify talk)) (fun _ =>
    if_array (speaker_codes talk) (fun speakerCode =>
      run rejects (insertTalkSpeaker (talk_id talk) speakerCode))) d
  = run_all rejects (talk_statements JSON_stringify talk) d.
Proof.
  unfold talk_statements, run_all. cbn [for_of]. unfold bind.
  destruct (run rejects (talk_statement JSON_stringify talk) d) as [[u d1]|e];
    [|reflexivity].
  rewrite if_array_map. destruct (speaker_codes talk); reflexivity.
Qed.

Lemma talks_loop l : forall d,
  for_of l (fun talk =>
    bind (run rejects (talk_statement JSON_stringify talk)) (fun _ =>
      if_array (speaker_codes talk) (fun speakerCode =>
        run rejects (insertTalkSpeaker (talk_id talk) speakerCode)))) d
  = run_all rejects (flat_map (talk_statements JSON_stringify) l) d.
Proof.
  induction l as [|talk l IH]; intros d; [reflexivity|].
  cbn [for_of flat_map]. rewrite run_all_app.
  unfold bind at 1. rewrite talk_body.
  destruct (run_all rejects (talk_statements JSON_stringify talk) d) as [[u d1]|e];
    [apply IH | reflexivity].
Qed.

(** The transaction body issues exactly the statements of [statements], in
    order, and stops at the first one the engine refuses. *)
Lemma body_run_all data d :
  insertScheduleData_body rejects JSON_stringify data d
  = match run_all rejects (statements JSON_stringify data) d with
    | Returns (_, d') =>
        Returns ({| stat_rooms := count (data_rooms data);
                    stat_tracks := count (data_tracks data);
                    stat_speakers := count (data_speakers data);
                    stat_talks := count (data_talks data) |}, d')
    | Throws e => Throws e
    end.
Proof.
  unfold insertScheduleData_body, statements.
  rewrite run_all_app. unfold bind at 1.
  rewrite if_array_map.
  destruct (run_all rejects (map _ (array (data_rooms data))) d) as [[u1 d1]|e];
    [|reflexivity].
  rewrite run_all_app. unfold bind at 1. rewrite if_array_map.
  destruct (run_all rejects (map _ (array (data_tracks data))) d1) as [[u2 d2]|e];
    [|reflexivity].
  rewrite run_all_app. unfold bind at 1. rewrite if_array_map.
  destruct (run_all rejects (map _ (array (data_speakers data))) d2) as [[u3 d3]|e];
    [|reflexivity].
  unfold bind at 1.
  assert (E : if_array (data_talks data) (fun talk =>
                bind (run rejects (talk_statement JSON_stringify talk)) (fun _ =>
                  if_array (speaker_codes talk) (fun speakerCode =>
                    run rejects (insertTalkSpeaker (talk_id talk) speakerCode)))) d3
              = run_all rejects
                  (flat_map (talk_statements JSON_stringify) (array (data_talks data))) d3).
  { destruct (data_talks data) as [l|]; [apply talks_loop | reflexivity]. }
  rewrite E.
  destruct (run_all rejects _ d3) as [[u4 d4]|e]; reflexivity.
Qed.

(** C8.  Importing the same feed a second time leaves the five tables as
    the first import left them, whatever the tables held before and whatever
    statements the engine refuses (a refused statement rolls the transaction
    back); and every statement of the importer, issued twice, does what it
    does once. *)
Theorem import_is_idempotent data d :
  let once := snd (insertScheduleData rejects JSON_stringify data d) in
  snd (insertScheduleData rejects JSON_stringify data once) = once
  /\ forall s d', effect s (effect s d') = effect s d'.
Proof.
  cbn zeta. split; [|intros; apply effect_twice].
  unfold insertScheduleData, transaction. rewrite !body_run_all.
  destruct (run_all rejects (statements JSON_stringify data) d) as [[u d1]|e] eqn:E1;
    cbn [snd].
  - apply run_all_Returns in E1.
    destruct (run_all rejects (statements JSON_stringify data) d1) as [[u2 d2]|e] eqn:E2;
      cbn [snd]; [|reflexivity].
    apply run_all_Returns in E2. subst d1 d2. apply effects_idempotent.
  - rewrite E1. reflexivity.
Qed.

End Engine.

Example sample_import :
  let accept_all := fun (_ : statement) (_ : database) => @None string in
  let once := snd (insertScheduleData accept_all (fun v => v) sample_feed empty_database) in
  keys once = ([2; 1], ["ABC"], [1], [], [(2, "ABC")])%Z
  /\ option_map code (talks once !! 1%Z) = Some (Some "Y")
  /\ keys (snd (insertScheduleData accept_all (fun v => v) sample_feed once)) = keys once.
Proof. vm_compute. repeat split. Qed.

(** *** What an import leaves in the tables *)

Section Table.

Context `{Countable K} {V : Type}.
Variable table : database -> gmap K V.
Variable written : statement -> option (K * V).

Hypothesis table_effect : forall s d,
  table (effect s d)
  = match written s with
    | Some kv => <[fst kv := snd kv]> (table d)
    | None => table d
    end.

Lemma table_effects l d k :
  table (effects l d) !! k = stored (omap written l) (table d) k.
Proof.
  induction l as [|s l IH] using rev_ind; [reflexivity|].
  rewrite effects_app. cbn [effects fold_left]. fold (effects l d).
  rewrite table_effect, omap_app. unfold stored in *. rewrite filter_app.
  replace (omap written [s])
    with (match written s with Some y => [y] | None => [] end) by reflexivity.
  destruct (written s) as [[k' v]|]; cbn [fst snd].
  - rewrite filter_cons. cbn [fst]. destruct (decide (k' = k)) as [->|Hne].
    + rewrite filter_nil, last_snoc. cbn [snd]. rewrite lookup_insert.
      rewrite decide_True by reflexivity. reflexivity.
    + rewrite filter_nil, app_nil_r, lookup_insert_ne by exact Hne. exact IH.
  - rewrite filter_nil, app_nil_r. exact IH.
Qed.

End Table.

Lemma effects_pairs l d :
  talk_speakers (effects l d) = talk_speakers d ∪ list_to_set (omap written_pair l).
Proof.
  induction l as [|s l IH] using rev_ind.
  - cbn [effects fold_left omap list_omap list_to_set]. symmetry. apply (right_id_L ∅ (∪)).
  - rewrite effects_app. cbn [effects fold_left]. fold (effects l d).
    rewrite omap_app, list_to_set_app_L.
    replace (omap written_pair [s])
      with (match written_pair s with Some y => [y] | None => [] end) by reflexivity.
    destruct s as [| | | |t c]; cbn [effect talk_speakers written_pair list_to_set];
      rewrite ?insert_or_ignore, IH; apply set_eq; intros x;
      rewrite ?elem_of_union, ?elem_of_singleton, ?elem_of_empty; tauto.
Qed.

Lemma effect_codes_unique s d :
  codes_unique (talks d) -> codes_unique (talks (effect s d)).
Proof.
  intros U. destruct s as [id row| | | |]; cbn [effect talks]; try exact U.
  intros i j r1 r2 H1 H2 Hc He.
  apply lookup_insert_Some in H1, H2.
  destruct H1 as [[<- <-]|[N1 H1]], H2 as [[<- <-]|[N2 H2]].
  - reflexivity.
  - exfalso. apply map_lookup_filter_Some in H2. destruct H2 as [_ H2].
    apply H2. right. split; [exact Hc | symmetry; exact He].
  - exfalso. apply map_lookup_filter_Some in H1. destruct H1 as [_ H1].
    apply H1. right. split; [rewrite <- He; exact Hc | exact He].
  - apply map_lookup_filter_Some in H1, H2.
    destruct H1 as [H1 _], H2 as [H2 _]. exact (U i j r1 r2 H1 H2 Hc He).
Qed.

Lemma effects_codes_unique l : forall d,
  codes_unique (talks d) -> codes_unique (talks (effects l d)).
Proof.
  induction l as [|s l IH]; intros d U; [exact U|].
  cbn [effects fold_left]. apply IH, effect_codes_unique, U.
Qed.

Lemma effects_keeps_talk l : forall d i row,
  talks d !! i = Some row ->
  Forall (fun kv => ~ clashes (fst kv) (snd kv) (i, row)) (omap written_talk l) ->
  talks (effects l d) !! i = Some row.
Proof.
  induction l as [|s l IH]; intros d i row Hi Hl; [exact Hi|].
  cbn [effects fold_left]. apply IH.
  - destruct s as [id r| | | |]; cbn [effect talks]; try exact Hi.
    cbn [omap written_talk] in Hl. apply Forall_inv in Hl. cbn [fst snd] in Hl.
    rewrite lookup_insert_ne.
    + apply map_lookup_filter_Some. split; [exact Hi | exact Hl].
    + intros ->. apply Hl. left. reflexivity.
  - destruct s; cbn [omap written_talk] in Hl; try exact Hl.
    apply Forall_inv_tail in Hl. exact Hl.
Qed.

Section MoreEngine.

Variable rejects : statement -> database -> option string.
Variable JSON_stringify : json -> json.

Lemma run_all_cons s l d :
  run_all rejects (s :: l) d
  = match rejects s d with
    | Some e => Throws e
    | None => run_all rejects l (effect s d)
    end.
Proof.
  unfold run_all. cbn [for_of]. unfold bind, run.
  destruct (rejects s d); reflexivity.
Qed.

(** A run of statements either accepts them all or stops at the first one
    the engine refuses. *)
Lemma run_all_cases l : forall d,
  match run_all rejects l d with
  | Returns (_, d') =>
      d' = effects l d
      /\ forall pre s post, l = pre ++ s :: post -> rejects s (effects pre d) = None
  | Throws e =>
      exists pre s post,
        l = pre ++ s :: post
        /\ rejects s (effects pre d) = Some e
        /\ forall pre' s' post', pre = pre' ++ s' :: post' ->
                                 rejects s' (effects pre' d) = None
  end.
Proof.
  induction l as [|s l IH]; intros d.
  - cbn. split; [reflexivity|]. intros [|] ? ? E; discriminate.
  - rewrite run_all_cons. destruct (rejects s d) as [e|] eqn:R.
    + exists [], s, l. split; [reflexivity|]. split; [exact R|].
      intros [|] ? ? E; discriminate.
    + specialize (IH (effect s d)).
      destruct (run_all rejects l (effect s d)) as [[u d']|e].
      * destruct IH as [-> IH]. split; [reflexivity|].
        intros [|x pre] s' post E; cbn in E; inversion E; subst.
        -- exact R.
        -- cbn [effects fold_left]. eapply IH. reflexivity.
      * destruct IH as (pre & s' & post & -> & Hr & Hpre).
        exists (s :: pre), s', post. split; [reflexivity|]. split; [exact Hr|].
        intros [|x pre'] s'' post' E; cbn in E; inversion E; subst.
        -- exact R.
        -- cbn [effects fold_left]. eapply Hpre. reflexivity.
Qed.

Lemma import_Returns data d stats d' :
  insertScheduleData rejects JSON_stringify data d = (Returns stats, d') ->
  d' = effects (statements JSON_stringify data) d.
Proof.
  unfold insertScheduleData, transaction. rewrite body_run_all.
  destruct (run_all rejects (statements JSON_stringify data) d) as [[u d1]|e] eqn:E;
    [|discriminate].
  intros X. inversion X; subst. eapply run_all_Returns, E.
Qed.

(** An import is all or nothing.  Either the engine accepts every statement:
    then the tables are what the statements, run in order, make of them, and
    the counts returned are the lengths of the four arrays of the feed.  Or
    the import throws the error of the first statement refused, and the
    tables are what they were before. *)
Theorem import_is_all_or_nothing data d :
  match insertScheduleData rejects JSON_stringify data d with
  | (Returns stats, d') =>
      d' = effects (statements JSON_stringify data) d
      /\ stats = {| stat_rooms := count (data_rooms data);
                    stat_tracks := count (data_tracks data);
                    stat_speakers := count (data_speakers data);
                    stat_talks := count (data_talks data) |}
      /\ forall pre s post,
           statements JSON_stringify data = pre ++ s :: post ->
           rejects s (effects pre d) = None
  | (Throws e, d') =>
      d' = d
      /\ exists pre s post,
           statements JSON_stringify data = pre ++ s :: post
           /\ rejects s (effects pre d) = Some e
           /\ forall pre' s' post', pre = pre' ++ s' :: post' ->
                                    rejects s' (effects pre' d) = None
  end.
Proof.
  unfold insertScheduleData, transaction. rewrite body_run_all.
  pose proof (run_all_cases (statements JSON_stringify data) d) as C.
  destruct (run_all rejects (statements JSON_stringify data) d) as [[u d1]|e].
  - destruct C as [-> C]. split; [reflexivity|]. split; [reflexivity | exact C].
  - split; [reflexivity | exact C].
Qed.

Lemma omap_of_map {A B C : Type} (written : B -> option C) (make : A -> B)
    (feed : list A) :
  omap written (map make feed) = omap (fun entry => written (make entry)) feed.
Proof.
  induction feed as [|entry feed IH]; [reflexivity|].
  cbn [map omap list_omap]. rewrite IH. reflexivity.
Qed.

Lemma omap_none {A B : Type} (g : A -> option B) (l : list A) :
  Forall (fun x => g x = None) l -> omap g l = [].
Proof.
  induction 1 as [|x l Hx _ IH]; [reflexivity|]. cbn [omap list_omap]. rewrite Hx. exact IH.
Qed.

Lemma omap_some {A B : Type} (g : A -> option B) (h : A -> B) (l : list A) :
  (forall x, g x = Some (h x)) -> omap g l = map h l.
Proof.
  intros E. induction l as [|x l IH]; [reflexivity|].
  cbn [omap list_omap map]. rewrite E, IH. reflexivity.
Qed.

Lemma omap_cons_none {A B : Type} (g : A -> option B) (x : A) (l : list A) :
  g x = None -> omap g (x :: l) = omap g l.
Proof. intros E. cbn [omap list_omap]. rewrite E. reflexivity. Qed.

Lemma omap_pairs_none {B : Type} (g : statement -> option B) (t : Z) (l : list string) :
  (forall c, g (insertTalkSpeaker t c) = None) ->
  omap g (map (insertTalkSpeaker t) l) = [].
Proof. intros E. rewrite omap_of_map. apply omap_none, Forall_forall. intros c _. apply E. Qed.

Lemma talk_statements_write_no talk :
  omap written_room (talk_statements JSON_stringify talk) = []
  /\ omap written_track (talk_statements JSON_stringify talk) = []
  /\ omap written_speaker (talk_statements JSON_stringify talk) = [].
Proof.
  unfold talk_statements. rewrite !omap_cons_none by reflexivity.
  destruct (speaker_codes talk) as [l|]; [|repeat split].
  repeat split; apply omap_pairs_none; reflexivity.
Qed.

Lemma flat_map_write_no {B : Type} (g : statement -> option B) (l : list Talk) :
  (forall talk, omap g (talk_statements JSON_stringify talk) = []) ->
  omap g (flat_map (talk_statements JSON_stringify) l) = [].
Proof.
  intros E. induction l as [|t l IH]; [reflexivity|].
  cbn [flat_map]. rewrite omap_app, E, IH. reflexivity.
Qed.

Lemma map_fst_omap {A K V : Type} (g : A -> option (K * V)) (key : A -> K) (l : list A) :
  (forall x, exists v, g x = Some (key x, v)) -> map fst (omap g l) = map key l.
Proof.
  intros E. induction l as [|x l IH]; [reflexivity|].
  destruct (E x) as [v Ev]. cbn [omap list_omap map]. rewrite Ev. cbn [map fst].
  f_equal. exact IH.
Qed.

Lemma written_keys data :
  map fst (omap written_room (statements JSON_stringify data))
  = map room_id (array (data_rooms data))
  /\ map fst (omap written_track (statements JSON_stringify data))
     = map track_id (array (data_tracks data))
  /\ map fst (omap written_speaker (statements JSON_stringify data))
     = map speaker_code (array (data_speakers data)).
Proof.
  unfold statements. rewrite !omap_app, !omap_of_map.
  rewrite !(flat_map_write_no _ _ (fun t => proj1 (talk_statements_write_no t))).
  rewrite !(flat_map_write_no _ _
              (fun t => proj1 (proj2 (talk_statements_write_no t)))).
  rewrite !(flat_map_write_no _ _
              (fun t => proj2 (proj2 (talk_statements_write_no t)))).
  repeat split.
  - rewrite (omap_none _ (array (data_tracks data))) by (apply Forall_forall; reflexivity).
    rewrite (omap_none _ (array (data_speakers data)))
      by (apply Forall_forall; reflexivity).
    rewrite !app_nil_r. apply map_fst_omap. intros r. eexists. reflexivity.
  - rewrite (omap_none _ (array (data_rooms data))) by (apply Forall_forall; reflexivity).
    rewrite (omap_none _ (array (data_speakers data)))
      by (apply Forall_forall; reflexivity).
    rewrite !app_nil_r. apply map_fst_omap. intros r. eexists. reflexivity.
  - rewrite (omap_none _ (array (data_rooms data))) by (apply Forall_forall; reflexivity).
    rewrite (omap_none _ (array (data_tracks data))) by (apply Forall_forall; reflexivity).
    rewrite !app_nil_r. apply map_fst_omap. intros r. eexists. reflexivity.
Qed.

(** After an import that succeeded, the rooms, tracks and speakers tables
    hold, under every key, the row of the last entry of the feed with this
    key, and under a key the feed does not have, the row that was there:
    the import updates and adds rows and removes none.  The statements write
    one row per entry of the feed, in the order of the feed. *)
Theorem import_keeps_the_last_entry data d stats d' :
  insertScheduleData rejects JSON_stringify data d = (Returns stats, d') ->
  let l := statements JSON_stringify data in
  (forall i, rooms d' !! i = stored (omap written_room l) (rooms d) i)
  /\ (forall i, tracks d' !! i = stored (omap written_track l) (tracks d) i)
  /\ (forall c, speakers d' !! c = stored (omap written_speaker l) (speakers d) c)
  /\ map fst (omap written_room l) = map room_id (array (data_rooms data))
  /\ map fst (omap written_track l) = map track_id (array (data_tracks data))
  /\ map fst (omap written_speaker l) = map speaker_code (array (data_speakers data)).
Proof.
  intros E l. apply import_Returns in E. subst d'. fold l.
  split; [|split; [|split; [|apply written_keys]]].
  - intros i. apply (table_effects rooms written_room).
    intros s d0. destruct s; reflexivity.
  - intros i. apply (table_effects tracks written_track).
    intros s d0. destruct s; reflexivity.
  - intros c. apply (table_effects speakers written_speaker).
    intros s d0. destruct s; reflexivity.
Qed.

(** An import that succeeded adds to [talk_speakers] the pairs of the feed
    and removes nothing: an association stays, also when its talk was
    replaced or is no longer in the feed. *)
Theorem import_only_adds_associations data d stats d' :
  insertScheduleData rejects JSON_stringify data d = (Returns stats, d') ->
  talk_speakers d'
  = talk_speakers d
    ∪ list_to_set (flat_map (fun talk => map (pair (talk_id talk))
                                           (array (speaker_codes talk)))
                     (array (data_talks data))).
Proof.
  intros E. apply import_Returns in E. subst d'. rewrite effects_pairs. f_equal.
  unfold statements. rewrite !omap_app, !omap_of_map.
  rewrite (omap_none _ (array (data_rooms data))) by (apply Forall_forall; reflexivity).
  rewrite (omap_none _ (array (data_tracks data))) by (apply Forall_forall; reflexivity).
  rewrite (omap_none _ (array (data_speakers data))) by (apply Forall_forall; reflexivity).
  cbn [app]. f_equal.
  induction (array (data_talks data)) as [|t l IH]; [reflexivity|].
  cbn [flat_map]. rewrite omap_app, IH. f_equal.
  unfold talk_statements. rewrite omap_cons_none by reflexivity.
  destruct (speaker_codes t) as [cs|]; [|reflexivity]. cbn [array].
  rewrite omap_of_map. apply omap_some. reflexivity.
Qed.

(** An import that succeeded keeps the codes of the talks table unique, and
    keeps every talk that no talk of the feed clashes with, on its id or on
    its code. *)
Theorem import_keeps_codes_unique data d stats d' :
  insertScheduleData rejects JSON_stringify data d = (Returns stats, d') ->
  codes_unique (talks d) ->
  codes_unique (talks d')
  /\ forall i row,
       talks d !! i = Some row ->
       Forall (fun kv => ~ clashes (fst kv) (snd kv) (i, row))
         (omap written_talk (statements JSON_stringify data)) ->
       talks d' !! i = Some row.
Proof.
  intros E U. apply import_Returns in E. subst d'. split.
  - apply effects_codes_unique, U.
  - intros i row. apply effects_keeps_talk.
Qed.

End MoreEngine.

Lemma import_keeps_the_last_entry_witness :
  let d' := effects (statements (fun v => v) sample_feed) empty_database in
  let l := statements (fun v => v) sample_feed in
  (forall i, rooms d' !! i = stored (omap written_room l) (rooms empty_database) i)
  /\ (forall i, tracks d' !! i = stored (omap written_track l) (tracks empty_database) i)
  /\ (forall c, speakers d' !! c
                = stored (omap written_speaker l) (speakers empty_database) c)
  /\ map fst (omap written_room l) = map room_id (array (data_rooms sample_feed))
  /\ map fst (omap written_track l) = map track_id (array (data_tracks sample_feed))
  /\ map fst (omap written_speaker l)
     = map speaker_code (array (data_speakers sample_feed)).
Proof.
  apply (import_keeps_the_last_entry accept_all (fun v => v) sample_feed empty_database
           {| stat_rooms := 1; stat_tracks := 0; stat_speakers := 1; stat_talks := 3 |}).
  reflexivity.
Defined.

Lemma import_only_adds_associations_witness :
  talk_speakers (effects (statements (fun v => v) sample_feed) empty_database)
  = talk_speakers empty_database
    ∪ list_to_set (flat_map (fun talk => map (pair (talk_id talk))
                                           (array (speaker_codes talk)))
                     (array (data_talks sample_feed))).
Proof.
  apply (import_only_adds_associations accept_all (fun v => v) sample_feed
           empty_database
           {| stat_rooms := 1; stat_tracks := 0; stat_speakers := 1; stat_talks := 3 |}).
  reflexivity.
Defined.

Lemma import_keeps_codes_unique_witness :
  codes_unique (talks (effects (statements (fun v => v) sample_feed) empty_database))
  /\ forall i row,
       talks empty_database !! i = Some row ->
       Forall (fun kv => ~ clashes (fst kv) (snd kv) (i, row))
         (omap written_talk (statements (fun v => v) sample_feed)) ->
       talks (effects (statements (fun v => v) sample_feed) empty_database) !! i
       = Some row.
Proof.
  apply (import_keeps_codes_unique accept_all (fun v => v) sample_feed empty_database
           {| stat_rooms := 1; stat_tracks := 0; stat_speakers := 1; stat_talks := 3 |}).
  - reflexivity.
  - intros i j r1 r2 H. cbn in H. rewrite lookup_empty in H. discriminate.
Defined.

Example refused_import_changes_nothing :
  insertScheduleData refuse_talk_2 (fun v => v) sample_feed empty_database
  = (Throws "FOREIGN KEY constraint failed", empty_database).
Proof. reflexivity. Qed.

End ScheduleFacts.
